(** * Structural features over CSR graphs: triangle and directed-motif counters

    A verification development for [structfeatures/core.py]: the CSR
    accessors [get_neigh] / [get_data], the undirected local triangle
    counter [_count_number_local_triangles] and the directed motif counter
    [_count_number_triangles_directed].

    Arrays of [int64] are lists of integers; an index that falls outside
    an array is a fault ([None]), which covers whatever the compiled code
    does there; 64-bit additions wrap around.  A Python [set] is a [gset];
    its iteration order is that of [elements], and the loops do not depend
    on it.  The counters are first embedded with explicit passing of the
    result arrays, then once more over a store of mutable arrays, to speak
    about aliasing and allocation. *)

From stdpp Require Import base numbers option list sorting strings gmap sets fin_sets.

Local Open Scope Z_scope.

(** ** 64-bit signed integers *)

Definition int64_min : Z := - 2 ^ 63.
Definition int64_max : Z := 2 ^ 63 - 1.

Definition wrap64 (x : Z) : Z := (x + 2 ^ 63) `mod` 2 ^ 64 - 2 ^ 63.

Definition add64 (a b : Z) : Z := wrap64 (a + b).

Definition in_int64 (x : Z) : Prop := int64_min ≤ x ≤ int64_max.

(** ** One-dimensional arrays *)

Definition len (a : list Z) : Z := Z.of_nat (length a).

(** An index below zero counts from the end, as in Python; past either end
    the access is a fault. *)
Definition wrap_index (n i : Z) : Z := if bool_decide (i < 0) then i + n else i.

Definition getitem (a : list Z) (i : Z) : option Z :=
  let j := wrap_index (len a) i in
  if bool_decide (0 ≤ j) then a !! Z.to_nat j else None.

Definition setitem (a : list Z) (i : Z) (x : Z) : option (list Z) :=
  let j := wrap_index (len a) i in
  if bool_decide (0 ≤ j < len a) then Some (<[Z.to_nat j := x]> a) else None.

(** Bounds of a slice [a[start:stop]] are clipped to the array. *)
Definition clip_index (n i : Z) : Z :=
  if bool_decide (i < 0) then Z.max 0 (i + n) else Z.min i n.

Definition slice (a : list Z) (start stop : Z) : list Z :=
  let lo := clip_index (len a) start in
  let hi := clip_index (len a) stop in
  take (Z.to_nat (hi - lo)) (drop (Z.to_nat lo) a).

(** [np.zeros((n,), dtype=np.int64)]: a negative dimension is refused. *)
Definition np_zeros (n : Z) : option (list Z) :=
  if bool_decide (0 ≤ n) then Some (replicate (Z.to_nat n) 0) else None.

(** ** Loops whose body may fault *)

Fixpoint for_each {A S : Type} (body : S → A → option S) (xs : list A) (s : S)
  : option S :=
  match xs with
  | [] => Some s
  | x :: xs' => s' ← body s x; for_each body xs' s'
  end.

(** ** CSR accessors *)

Definition get_neigh (node : Z) (indices indptr : list Z) : option (list Z) :=
  lo ← getitem indptr node;
  hi ← getitem indptr (add64 node 1);
  Some (slice indices lo hi).

Definition get_data (node : Z) (data indptr : list Z) : option (list Z) :=
  lo ← getitem indptr node;
  hi ← getitem indptr (add64 node 1);
  Some (slice data lo hi).

(** ** Sets of node ids *)

Definition set_update (s : gset Z) (xs : list Z) : gset Z := s ∪ list_to_set xs.

(** ** Undirected local triangle counter *)

Module Local.

(** The two inner loops of one node: [num_t] is bumped once for every
    entry of a neighbour's slice that lies in the egonet. *)
Definition scan_slice (egonet : gset Z) (num_t : Z) (neigh_neigh : Z) : Z :=
  if bool_decide (neigh_neigh ∈ egonet) then add64 num_t 1 else num_t.

Definition scan_neigh (indices indptr : list Z) (egonet : gset Z)
    (num_t : Z) (neigh : Z) : option Z :=
  nn ← get_neigh neigh indices indptr;
  Some (foldl (scan_slice egonet) num_t nn).

Definition node_body (indices indptr : list Z) (num_triangles : list Z) (v : Z)
  : option (list Z) :=
  nb ← get_neigh v indices indptr;
  let egonet := set_update ∅ nb in
  num_t ← for_each (scan_neigh indices indptr egonet) (elements egonet) 0;
  setitem num_triangles v num_t.

(** The node loop, for a given order of visiting the nodes. *)
Definition node_loop (indices indptr : list Z) (order : list Z)
    (num_triangles : list Z) : option (list Z) :=
  for_each (node_body indices indptr) order num_triangles.

End Local.

Definition _count_number_local_triangles (indices indptr : list Z)
  : option (list Z) :=
  let num_nodes := len indptr - 1 in
  num_triangles ← np_zeros num_nodes;
  Local.node_loop indices indptr (seqZ 0 num_nodes) num_triangles.

(** ** Directed triangle motif counter *)

Record motifs : Type := Motifs {
  num_out_triangles : list Z;
  num_in_triangles : list Z;
  num_cycle_triangles : list Z;
  num_middle_triangles : list Z
}.

(** The four result arrays are told apart by the motif they count. *)
Inductive motif : Type := Out | In | Cycle | Middle.

Global Instance motif_eq_dec : EqDecision motif.
Proof. solve_decision. Defined.

Definition counter (k : motif) (m : motifs) : list Z :=
  match k with
  | Out => num_out_triangles m
  | In => num_in_triangles m
  | Cycle => num_cycle_triangles m
  | Middle => num_middle_triangles m
  end.

Definition with_counter (k : motif) (a : list Z) (m : motifs) : motifs :=
  match k with
  | Out => Motifs a (num_in_triangles m) (num_cycle_triangles m) (num_middle_triangles m)
  | In => Motifs (num_out_triangles m) a (num_cycle_triangles m) (num_middle_triangles m)
  | Cycle => Motifs (num_out_triangles m) (num_in_triangles m) a (num_middle_triangles m)
  | Middle => Motifs (num_out_triangles m) (num_in_triangles m) (num_cycle_triangles m) a
  end.

(** [a[v] += 1] *)
Definition bump (a : list Z) (v : Z) : option (list Z) :=
  x ← getitem a v; setitem a v (add64 x 1).

(** [num_k_triangles[v] += 1] *)
Definition bump_counter (k : motif) (v : Z) (m : motifs) : option motifs :=
  a ← bump (counter k m) v; Some (with_counter k a m).

Module Directed.

(** Body of both innermost loops: skip [v] itself, then test the entry
    against the out-egonet and the in-egonet; [if_out] and [if_in] name
    the arrays bumped by the two tests. *)
Definition scan_slice (v : Z) (out_egonet in_egonet : gset Z)
    (if_out if_in : motif) (m : motifs) (x : Z) : option motifs :=
  if bool_decide (x = v) then Some m
  else
    m1 ← (if bool_decide (x ∈ out_egonet) then bump_counter if_out v m
          else Some m);
    if bool_decide (x ∈ in_egonet) then bump_counter if_in v m1 else Some m1.

Definition scan_neigh (out_indices out_indptr : list Z) (v : Z)
    (out_egonet in_egonet : gset Z) (if_out if_in : motif)
    (m : motifs) (neigh : Z) : option motifs :=
  nn ← get_neigh neigh out_indices out_indptr;
  for_each (scan_slice v out_egonet in_egonet if_out if_in) nn m.

Definition node_body (out_indices out_indptr in_indices in_indptr : list Z)
    (m : motifs) (v : Z) : option motifs :=
  ons ← get_neigh v out_indices out_indptr;
  let out_egonet : gset Z := list_to_set ons in
  ins ← get_neigh v in_indices in_indptr;
  let in_egonet : gset Z := list_to_set ins in
  m1 ← for_each
         (scan_neigh out_indices out_indptr v out_egonet in_egonet Out Cycle)
         (elements out_egonet) m;
  for_each
    (scan_neigh out_indices out_indptr v out_egonet in_egonet Middle In)
    (elements in_egonet) m1.

(** The node loop, for a given order of visiting the nodes. *)
Definition node_loop (out_indices out_indptr in_indices in_indptr : list Z)
    (order : list Z) (m : motifs) : option motifs :=
  for_each (node_body out_indices out_indptr in_indices in_indptr) order m.

End Directed.

Definition _count_number_triangles_directed
    (out_indices out_indptr in_indices in_indptr : list Z) : option motifs :=
  let num_nodes := len out_indptr - 1 in
  num_out ← np_zeros num_nodes;
  num_in ← np_zeros num_nodes;
  num_cycle ← np_zeros num_nodes;
  num_middle ← np_zeros num_nodes;
  Directed.node_loop out_indices out_indptr in_indices in_indptr
    (seqZ 0 num_nodes) (Motifs num_out num_in num_cycle num_middle).

(** The directed 3-cycle 0 → 1 → 2 → 0 and its reverse, as out- and in-CSR
    structures; each is the transpose of the other. *)
Definition cycle_indptr : list Z := [0; 1; 2; 3].
Definition cycle_forward : list Z := [1; 2; 0].
Definition cycle_backward : list Z := [2; 0; 1].

(** ** The counters over a store of mutable arrays

    Arrays live in a store and are passed by reference.  A slice is a view
    of its base array: it is read element by element while the loop over it
    runs.  [np.zeros] takes an unused location. *)

Module Store.

Definition M (A : Type) : Type :=
  gmap positive (list Z) → option (A * gmap positive (list Z)).

Definition ret {A} (x : A) : M A := λ h, Some (x, h).

Definition bind {A B} (c : M A) (k : A → M B) : M B :=
  λ h, match c h with Some (x, h') => k x h' | None => None end.

Global Instance store_ret : MRet M := @ret.
Global Instance store_bind : MBind M := λ A B k c, bind c k.

Fixpoint for_each_st {A S : Type} (body : S → A → M S) (xs : list A) (s : S)
  : M S :=
  match xs with
  | [] => ret s
  | x :: xs' => s' ← body s x; for_each_st body xs' s'
  end.

(** [len(a)], [a[i]], [a[i] = x] *)
Definition array_len (l : positive) : M Z :=
  λ h, match h !! l with Some a => Some (len a, h) | None => None end.

Definition load (l : positive) (i : Z) : M Z :=
  λ h, match h !! l with
       | Some a => match getitem a i with Some x => Some (x, h) | None => None end
       | None => None
       end.

Definition store (l : positive) (i x : Z) : M unit :=
  λ h, match h !! l with
       | Some a =>
           match setitem a i x with
           | Some a' => Some (tt, <[l := a']> h)
           | None => None
           end
       | None => None
       end.

(** [np.zeros((n,), dtype=np.int64)] *)
Definition zeros (n : Z) : M positive :=
  λ h, match np_zeros n with
       | Some a => let l := fresh (dom h) in Some (l, <[l := a]> h)
       | None => None
       end.

(** A view [base[start : start + size]], with bounds already clipped. *)
Record view : Type := View { base : positive; start : Z; size : Z }.

Definition slice_view (l : positive) (lo hi : Z) : M view :=
  n ← array_len l;
  let lo' := clip_index n lo in
  let hi' := clip_index n hi in
  ret (View l lo' (Z.max 0 (hi' - lo'))).

(** All elements of a view at once, as [set(view)] reads them. *)
Definition view_to_list (w : view) : M (list Z) :=
  λ h, match h !! base w with
       | Some a =>
           Some (take (Z.to_nat (size w)) (drop (Z.to_nat (start w)) a), h)
       | None => None
       end.

(** [for x in view: body] *)
Definition for_view {S : Type} (w : view) (body : S → Z → M S) (s : S) : M S :=
  for_each_st (λ s k, x ← load (base w) (start w + k); body s x)
    (seqZ 0 (size w)) s.

Definition get_neigh (node : Z) (indices indptr : positive) : M view :=
  lo ← load indptr node;
  hi ← load indptr (add64 node 1);
  slice_view indices lo hi.

Definition local_node_body (indices indptr num_triangles : positive)
    (_ : unit) (v : Z) : M unit :=
  w ← get_neigh v indices indptr;
  nb ← view_to_list w;
  let egonet := set_update ∅ nb in
  num_t ← for_each_st
            (λ num_t neigh,
               wn ← get_neigh neigh indices indptr;
               for_view wn
                 (λ num_t neigh_neigh,
                    ret (Local.scan_slice egonet num_t neigh_neigh))
                 num_t)
            (elements egonet) 0;
  store num_triangles v num_t.

Definition _count_number_local_triangles (indices indptr : positive)
  : M positive :=
  n ← array_len indptr;
  let num_nodes := n - 1 in
  num_triangles ← zeros num_nodes;
  _ ← for_each_st (local_node_body indices indptr num_triangles)
        (seqZ 0 num_nodes) tt;
  ret num_triangles.

(** Locations of the four result arrays. *)
Definition motif_locs : Type := motif → positive.

Definition four_locs (l_out l_in l_cycle l_middle : positive) : motif_locs :=
  λ k, match k with
       | Out => l_out | In => l_in | Cycle => l_cycle | Middle => l_middle
       end.

(** [num_k_triangles[v] += 1] *)
Definition bump_counter (r : motif_locs) (k : motif) (v : Z) : M unit :=
  x ← load (r k) v; store (r k) v (add64 x 1).

Definition scan_slice (r : motif_locs) (v : Z) (out_egonet in_egonet : gset Z)
    (if_out if_in : motif) (_ : unit) (x : Z) : M unit :=
  if bool_decide (x = v) then ret tt
  else
    _ ← (if bool_decide (x ∈ out_egonet) then bump_counter r if_out v
         else ret tt);
    if bool_decide (x ∈ in_egonet) then bump_counter r if_in v else ret tt.

Definition scan_neigh (r : motif_locs) (out_indices out_indptr : positive)
    (v : Z) (out_egonet in_egonet : gset Z) (if_out if_in : motif)
    (_ : unit) (neigh : Z) : M unit :=
  wn ← get_neigh neigh out_indices out_indptr;
  for_view wn (scan_slice r v out_egonet in_egonet if_out if_in) tt.

Definition directed_node_body (r : motif_locs)
    (out_indices out_indptr in_indices in_indptr : positive)
    (_ : unit) (v : Z) : M unit :=
  wo ← get_neigh v out_indices out_indptr;
  ons ← view_to_list wo;
  let out_egonet : gset Z := list_to_set ons in
  wi ← get_neigh v in_indices in_indptr;
  ins ← view_to_list wi;
  let in_egonet : gset Z := list_to_set ins in
  _ ← for_each_st
        (scan_neigh r out_indices out_indptr v out_egonet in_egonet Out Cycle)
        (elements out_egonet) tt;
  for_each_st
    (scan_neigh r out_indices out_indptr v out_egonet in_egonet Middle In)
    (elements in_egonet) tt.

Definition _count_number_triangles_directed
    (out_indices out_indptr in_indices in_indptr : positive) : M motif_locs :=
  n ← array_len out_indptr;
  let num_nodes := n - 1 in
  num_out ← zeros num_nodes;
  num_in ← zeros num_nodes;
  num_cycle ← zeros num_nodes;
  num_middle ← zeros num_nodes;
  let r := four_locs num_out num_in num_cycle num_middle in
  _ ← for_each_st
        (directed_node_body r out_indices out_indptr in_indices in_indptr)
        (seqZ 0 num_nodes) tt;
  ret r.

(** The store [h] extended with the four result arrays [m] at [r]. *)
Definition with_motifs (r : motif_locs) (m : motifs)
    (h : gmap positive (list Z)) : gmap positive (list Z) :=
  <[r Middle := num_middle_triangles m]>
    (<[r Cycle := num_cycle_triangles m]>
       (<[r In := num_in_triangles m]>
          (<[r Out := num_out_triangles m]> h))).

(** A store that holds the 3-cycle and its transpose, sharing one array of
    row boundaries. *)
Definition cycle_store : gmap positive (list Z) :=
  <[3%positive := cycle_backward]>
    (<[2%positive := cycle_indptr]> (<[1%positive := cycle_forward]> ∅)).

End Store.

(** The four locations that four successive [np.zeros] take in [h]. *)
Definition fresh_locs (h : gmap positive (list Z)) (z : list Z)
  : Store.motif_locs :=
  let l1 := fresh (dom h) in
  let h1 := <[l1 := z]> h in
  let l2 := fresh (dom h1) in
  let h2 := <[l2 := z]> h1 in
  let l3 := fresh (dom h2) in
  let h3 := <[l3 := z]> h2 in
  Store.four_locs l1 l2 l3 (fresh (dom h3)).

(** [h'] holds every array of [h], unchanged. *)
Definition preserves (h h' : gmap positive (list Z)) : Prop :=
  ∀ l a, h !! l = Some a → h' !! l = Some a.

(** Outcome over the store for an outcome [o] over values: the new state
    [p'] shows as the loop variable [acc p'] and the store [enc p']. *)
Definition lifted {P S} (acc : P → S) (enc : P → gmap positive (list Z))
    (o : option P) : option (S * gmap positive (list Z)) :=
  match o with Some p' => Some (acc p', enc p') | None => None end.

(** The view that [indices[lo:hi]] makes of the array [a] at [l]. *)
Definition view_of (l : positive) (a : list Z) (lo hi : Z) : Store.view :=
  Store.View l (clip_index (len a) lo)
    (Z.max 0 (clip_index (len a) hi - clip_index (len a) lo)).

(** ** Parallel schedules

    [nb.prange] hands the node range out to workers in chunks.  A schedule
    lists the chunks in the order in which they are carried out; the nodes
    of a chunk are visited in the order of the chunk. *)

Definition covers (N : Z) (chunks : list (list Z)) : Prop :=
  concat chunks ≡ₚ seqZ 0 N.

Definition local_triangles_scheduled (chunks : list (list Z))
    (indices indptr : list Z) : option (list Z) :=
  let num_nodes := len indptr - 1 in
  num_triangles ← np_zeros num_nodes;
  for_each (λ a chunk, Local.node_loop indices indptr chunk a) chunks num_triangles.

Definition triangles_directed_scheduled (chunks : list (list Z))
    (out_indices out_indptr in_indices in_indptr : list Z) : option motifs :=
  let num_nodes := len out_indptr - 1 in
  num_out ← np_zeros num_nodes;
  num_in ← np_zeros num_nodes;
  num_cycle ← np_zeros num_nodes;
  num_middle ← np_zeros num_nodes;
  for_each
    (λ m chunk,
       Directed.node_loop out_indices out_indptr in_indices in_indptr chunk m)
    chunks (Motifs num_out num_in num_cycle num_middle).

(** ** Well-formed inputs *)

(** An array handed over by numpy has a length that fits a signed 64-bit
    integer. *)
Definition fits_int64 (a : list Z) : Prop := len a ≤ int64_max.

(** A CSR structure over [N] nodes whose row boundaries never decrease, end
    at the number of stored entries, and whose entries are node ids. *)
Record well_formed_csr (N : Z) (indices indptr : list Z) : Prop := {
  wf_rows : len indptr = N + 1;
  wf_sorted : StronglySorted Z.le indptr;
  wf_total : last indptr = Some (len indices);
  wf_range : Forall (λ x, 0 ≤ x < N) indices;
  wf_fits : fits_int64 indptr ∧ fits_int64 indices
}.

(** A valid CSR structure also has non-negative row boundaries. *)
Record valid_csr (N : Z) (indices indptr : list Z) : Prop := {
  valid_wf : well_formed_csr N indices indptr;
  valid_nonneg : Forall (λ p, 0 ≤ p) indptr
}.

(** ** What the counters are meant to count *)

(** The slice of node [w]; empty where the accessor faults. *)
Definition row (indices indptr : list Z) (w : Z) : list Z :=
  default [] (get_neigh w indices indptr).

(** What the counters need in order to read the rows of the nodes
    [0 .. N-1]: row boundaries for these nodes, and node ids in their
    rows. *)
Record addressable (N : Z) (indices indptr : list Z) : Prop := {
  addr_rows : N + 1 ≤ len indptr;
  addr_range :
    Forall (λ v, Forall (λ x, 0 ≤ x < N) (row indices indptr v)) (seqZ 0 N);
  addr_fits : fits_int64 indptr
}.

Definition egonet (indices indptr : list Z) (v : Z) : gset Z :=
  list_to_set (row indices indptr v).

(** All pairs [(w, x)] with [w] in the set [E] and [x] an entry of the slice
    of [w], one pair per occurrence. *)
Definition wedges (indices indptr : list Z) (E : gset Z) : list (Z * Z) :=
  w ← elements E; (λ x, (w, x)) <$> row indices indptr w.

Definition count_where (P : Z * Z → Prop) `{!∀ p, Decision (P p)}
    (ps : list (Z * Z)) : Z :=
  Z.of_nat (length (filter P ps)).

(** Pairs counted by the directed counter at node [v]: the end point is not
    [v] and lies in [T]. *)
Definition closes (v : Z) (T : gset Z) (p : Z * Z) : Prop := p.2 ≠ v ∧ p.2 ∈ T.

(** Pairs counted by the undirected counter: the end point lies in [T]. *)
Definition lands_in (T : gset Z) (p : Z * Z) : Prop := p.2 ∈ T.

Global Instance closes_dec v T p : Decision (closes v T p).
Proof. unfold closes. apply _. Defined.

Global Instance lands_in_dec T p : Decision (lands_in T p).
Proof. unfold lands_in. apply _. Defined.

(** Number of entries of [xs] that satisfy [Q]. *)
Definition hits (Q : Z → Prop) `{!∀ x, Decision (Q x)} (xs : list Z) : nat :=
  length (filter Q xs).

(** Number of ordered pairs counted by the undirected counter at [v]. *)
Definition local_pairs (indices indptr : list Z) (v : Z) : Z :=
  let E := egonet indices indptr v in
  count_where (lands_in E) (wedges indices indptr E).

(** Number of pairs counted by the directed counter at [v] for each motif:
    the first end ranges over the out-egonet for [Out] and [Cycle] and over
    the in-egonet for [Middle] and [In]; the second end is an entry of the
    first end's out-slice, is not [v], and lies in the out-egonet for [Out]
    and [Middle] and in the in-egonet for [Cycle] and [In]. *)
Definition motif_pairs (k : motif)
    (out_indices out_indptr in_indices in_indptr : list Z) (v : Z) : Z :=
  let out_egonet := egonet out_indices out_indptr v in
  let in_egonet := egonet in_indices in_indptr v in
  let E := match k with Out | Cycle => out_egonet | Middle | In => in_egonet end in
  let T := match k with Out | Middle => out_egonet | Cycle | In => in_egonet end in
  count_where (closes v T) (wedges out_indices out_indptr E).

(** The state [m] after slot [v] of array [k] has been bumped [n] times. *)
Definition tally (k : motif) (v : Z) (n : nat) (m : motifs) : motifs :=
  with_counter k
    (alter (Nat.iter n (λ x, add64 x 1)) (Z.to_nat v) (counter k m)) m.

(** The array [a] after every slot listed in [order] went through the
    update [g] of its node. *)
Definition update_at (g : Z → Z → Z) (order : list Z) (a : list Z) : list Z :=
  imap (λ i x, if bool_decide (Z.of_nat i ∈ order) then g (Z.of_nat i) x else x) a.

(** All four arrays have [N] slots. *)
Definition sized (N : Z) (m : motifs) : Prop := ∀ k, len (counter k m) = N.

(** The same numbers of pairs as sums over the first end. *)
Definition motif_hits (k : motif)
    (out_indices out_indptr in_indices in_indptr : list Z) (v : Z) : nat :=
  let out_egonet := egonet out_indices out_indptr v in
  let in_egonet := egonet in_indices in_indptr v in
  let E := match k with Out | Cycle => out_egonet | Middle | In => in_egonet end in
  let T := match k with Out | Middle => out_egonet | Cycle | In => in_egonet end in
  sum_list_with (λ w, hits (λ x, x ≠ v ∧ x ∈ T) (row out_indices out_indptr w))
    (elements E).

(** The state after the nodes of [order] added their numbers of pairs
    [h k v] to their slots. *)
Definition tally_all (h : motif → Z → nat) (order : list Z) (m : motifs) : motifs :=
  Motifs
    (update_at (λ v, Nat.iter (h Out v) (λ x, add64 x 1)) order (num_out_triangles m))
    (update_at (λ v, Nat.iter (h In v) (λ x, add64 x 1)) order (num_in_triangles m))
    (update_at (λ v, Nat.iter (h Cycle v) (λ x, add64 x 1)) order (num_cycle_triangles m))
    (update_at (λ v, Nat.iter (h Middle v) (λ x, add64 x 1)) order (num_middle_triangles m)).

(** Four arrays over [N] nodes filled from a table of values. *)
Definition motif_table (f : motif → Z → Z) (N : Z) : motifs :=
  Motifs (f Out <$> seqZ 0 N) (f In <$> seqZ 0 N)
         (f Cycle <$> seqZ 0 N) (f Middle <$> seqZ 0 N).

(** An in-CSR structure with one row more than [cycle_indptr]; the extra
    row holds an entry that is no node id of the 3-cycle. *)
Definition long_in_indices : list Z := [2; 0; 1; 7].
Definition long_in_indptr : list Z := [0; 1; 2; 3; 4].

(** ** Transposed structures *)

(** Over the nodes [0 .. N-1], the in-structure is the transpose of the
    out-structure: [b] occurs in the out-row of [a] exactly as often as [a]
    occurs in the in-row of [b]. *)
Definition transposes (N : Z)
    (out_indices out_indptr in_indices in_indptr : list Z) : Prop :=
  Forall (λ a,
    Forall (λ b,
      hits (λ x, x = b) (row out_indices out_indptr a)
      = hits (λ x, x = a) (row in_indices in_indptr b))
      (seqZ 0 N))
    (seqZ 0 N).

(** No node is its own out-neighbour. *)
Definition loop_free (N : Z) (out_indices out_indptr : list Z) : Prop :=
  Forall (λ v, v ∉ row out_indices out_indptr v) (seqZ 0 N).

(** ** Disjoint union of two copies of a graph *)

(** [(indices2, indptr2)] stores, over [2 * N] nodes, the graph of
    [(indices, indptr)] twice: node [v] of the first copy keeps its row, node
    [v + N] of the second copy has the row of [v] with every id moved up by
    [N].  No row mentions a node of the other copy. *)
Record two_copies (N : Z) (indices indptr indices2 indptr2 : list Z) : Prop := {
  copies_rows : len indptr2 = 2 * N + 1;
  copies_fits : fits_int64 indptr2;
  copies_first :
    Forall (λ v, row indices2 indptr2 v = row indices indptr v) (seqZ 0 N);
  copies_second :
    Forall (λ v, row indices2 indptr2 (v + N) = (λ x, x + N) <$> row indices indptr v)
      (seqZ 0 N)
}.

(** Concatenation of the four result arrays of two runs. *)
Definition motifs_app (m1 m2 : motifs) : motifs :=
  Motifs (num_out_triangles m1 ++ num_out_triangles m2)
         (num_in_triangles m1 ++ num_in_triangles m2)
         (num_cycle_triangles m1 ++ num_cycle_triangles m2)
         (num_middle_triangles m1 ++ num_middle_triangles m2).

(** The usual way to build the two copies: append the shifted entries, and
    the row boundaries moved past the first copy. *)
Definition duplicate_indices (N : Z) (indices : list Z) : list Z :=
  indices ++ ((λ x, x + N) <$> indices).

Definition duplicate_indptr (indices indptr : list Z) : list Z :=
  indptr ++ ((λ p, p + len indices) <$> tail indptr).

(** The edges 0 → 1, 0 → 2, 1 → 2 as out- and in-CSR structures. *)
Definition fan_out_indices : list Z := [1; 2; 2].
Definition fan_out_indptr : list Z := [0; 2; 3; 3].
Definition fan_in_indices : list Z := [0; 0; 1].
Definition fan_in_indptr : list Z := [0; 0; 1; 3].

(** ** Triangles of an undirected graph *)

(** The structure stores an undirected graph: over the nodes [0 .. N-1],
    [b] occurs in the row of [a] as often as [a] occurs in the row of [b]. *)
Definition symmetric (N : Z) (indices indptr : list Z) : Prop :=
  transposes N indices indptr indices indptr.

(** A pair [(u, x)] that stands for a triangle at [v] once: both ends are
    neighbours of [v] and the smaller one comes first. *)
Definition ascending_in (T : gset Z) (p : Z * Z) : Prop := p.1 < p.2 ∧ p.2 ∈ T.

Global Instance ascending_in_dec T p : Decision (ascending_in T p).
Proof. unfold ascending_in. apply _. Defined.

(** Number of triangles at [v]: edges [u - x] between two neighbours of [v],
    each taken once (from its smaller end), with the multiplicity of the
    stored entry. *)
Definition triangles_at (indices indptr : list Z) (v : Z) : Z :=
  let E := egonet indices indptr v in
  count_where (ascending_in E) (wedges indices indptr E).

(** The undirected triangle on the nodes 0, 1, 2, every edge stored in both
    directions. *)
Definition tri_indices : list Z := [1; 2; 0; 2; 0; 1].
Definition tri_indptr : list Z := [0; 2; 4; 6].

(** ** Order of the entries of a row *)

(** Over the nodes [0 .. N-1], the second structure has the rows of the
    first, up to the order of the entries inside each row. *)
Definition same_rows_up_to_order (N : Z)
    (indices indptr indices' indptr' : list Z) : Prop :=
  Forall (λ v, row indices' indptr' v ≡ₚ row indices indptr v) (seqZ 0 N).

(** [tri_indices] with the two entries of every row exchanged. *)
Definition tri_indices_reordered : list Z := [2; 1; 2; 0; 1; 0].

(** Edge payloads for [fan_out_indices]. *)
Definition fan_out_data : list Z := [10; 20; 30].


(** No row of the structure stores a neighbour twice. *)
Definition simple_rows (N : Z) (indices indptr : list Z) : Prop :=
  Forall (λ v, NoDup (row indices indptr v)) (seqZ 0 N).

(** The sum of the entries of a result array. *)
Definition total (counts : list Z) : Z := foldr Z.add 0 counts.

(** ** Bookkeeping of failed embedding algorithms ([experiments/common.py])

    Of an embedding algorithm the filter uses its hash and the name of its
    specification, of the outputs of a run the outcome and the error
    lines. *)

Module AlgFilter.

Record EmbeddingAlg : Type := {
  alg_hash : string;
  spec_name : string
}.

Record EmbAlgOutputs : Type := {
  outcome : string;
  error_out : list string
}.

Record t : Type := {
  failed_algs : gmap string (list (list string));
  max_strikes : Z
}.

(** [AlgFilter(max_strikes)] *)
Definition init (max_strikes : Z) : t :=
  {| failed_algs := ∅; max_strikes := max_strikes |}.

Definition alg2key (alg : EmbeddingAlg) : string :=
  alg_hash alg +:+ " (" +:+ spec_name alg +:+ ")".

Definition update (self : t) (alg : EmbeddingAlg) (alg_output : EmbAlgOutputs) : t :=
  if decide (outcome alg_output ≠ "completed") then
    let alg_key := alg2key alg in
    let message := outcome alg_output :: error_out alg_output in
    match failed_algs self !! alg_key with
    | Some messages =>
        {| failed_algs := <[alg_key := messages ++ [message]]> (failed_algs self);
           max_strikes := max_strikes self |}
    | None =>
        {| failed_algs := <[alg_key := [message]]> (failed_algs self);
           max_strikes := max_strikes self |}
    end
  else self.

Definition filter (self : t) (algs : list EmbeddingAlg) : list EmbeddingAlg :=
  foldl
    (λ filtered_algs alg,
       match failed_algs self !! alg2key alg with
       | None => filtered_algs ++ [alg]
       | Some messages =>
           if bool_decide (Z.of_nat (length messages) ≤ max_strikes self)
           then filtered_algs ++ [alg]
           else filtered_algs
       end)
    [] algs.

Definition reset (self : t) : t :=
  {| failed_algs := ∅; max_strikes := max_strikes self |}.

(** Number of failed runs recorded for the key of [alg]. *)
Definition strikes (self : t) (alg : EmbeddingAlg) : Z :=
  Z.of_nat (length (default [] (failed_algs self !! alg2key alg))).

(** No key is recorded with an empty list of failures. *)
Definition no_empty_record (self : t) : Prop :=
  ∀ key messages, failed_algs self !! key = Some messages → messages ≠ [].

(** The filter after a series of runs. *)
Definition updates (self : t) (runs : list (EmbeddingAlg * EmbAlgOutputs)) : t :=
  foldl (λ self run, update self run.1 run.2) self runs.

End AlgFilter.

(** An algorithm passes the filter when nothing is recorded for its key or
    the recorded failures do not exceed the allowance. *)
Definition alg_passes (self : AlgFilter.t) (alg : AlgFilter.EmbeddingAlg) : Prop :=
  AlgFilter.strikes self alg = 0
  ∨ AlgFilter.strikes self alg ≤ AlgFilter.max_strikes self.

Global Instance alg_passes_dec self alg : Decision (alg_passes self alg).
Proof. unfold alg_passes. apply _. Defined.

(** Two algorithms and the outputs of a failed and of a completed run. *)
Definition alg_a : AlgFilter.EmbeddingAlg :=
  {| AlgFilter.alg_hash := "1f"; AlgFilter.spec_name := "bgrl" |}.
Definition alg_b : AlgFilter.EmbeddingAlg :=
  {| AlgFilter.alg_hash := "2e"; AlgFilter.spec_name := "graphmae2" |}.
Definition run_timeout : AlgFilter.EmbAlgOutputs :=
  {| AlgFilter.outcome := "timeout"; AlgFilter.error_out := ["killed"] |}.
Definition run_completed : AlgFilter.EmbAlgOutputs :=
  {| AlgFilter.outcome := "completed"; AlgFilter.error_out := [] |}.

(** * Properties *)

(** ** Arithmetic on 64-bit integers *)

Ltac int64_consts :=
  unfold fits_int64, in_int64, int64_min, int64_max in *;
  change (2 ^ 64) with 18446744073709551616 in *;
  change (2 ^ 63) with 9223372036854775808 in *.

Lemma wrap64_id x : in_int64 x → wrap64 x = x.
Proof.
  unfold wrap64. int64_consts. intros H.
  rewrite Z.mod_small; lia.
Qed.

Lemma wrap64_add_l a b : wrap64 (wrap64 a + b) = wrap64 (a + b).
Proof.
  unfold wrap64.
  replace ((a + 2 ^ 63) `mod` 2 ^ 64 - 2 ^ 63 + b + 2 ^ 63)
    with ((a + 2 ^ 63) `mod` 2 ^ 64 + b) by lia.
  rewrite Zplus_mod_idemp_l. f_equal. f_equal. lia.
Qed.

Lemma iter_add64 (k : nat) :
  Nat.iter k (λ x, add64 x 1) 0 = wrap64 (Z.of_nat k).
Proof.
  induction k as [|k IH]; [done|].
  rewrite Nat.iter_succ, IH. unfold add64.
  rewrite wrap64_add_l. f_equal. lia.
Qed.

Lemma add64_succ node : 0 ≤ node < int64_max → add64 node 1 = node + 1.
Proof.
  intros H. apply wrap64_id. int64_consts. lia.
Qed.

(** ** Array accesses *)

Lemma getitem_nonneg a i : 0 ≤ i → getitem a i = a !! Z.to_nat i.
Proof.
  intros H. unfold getitem, wrap_index.
  rewrite (bool_decide_eq_false_2 (i < 0)) by lia.
  by rewrite bool_decide_eq_true_2.
Qed.

Lemma setitem_inside a i x :
  0 ≤ i < len a → setitem a i x = Some (<[Z.to_nat i := x]> a).
Proof.
  intros H. unfold setitem, wrap_index.
  rewrite (bool_decide_eq_false_2 (i < 0)) by lia.
  by rewrite bool_decide_eq_true_2.
Qed.

Lemma setitem_length a i x a' : setitem a i x = Some a' → length a' = length a.
Proof.
  unfold setitem. case_bool_decide; [|done].
  intros [= <-]. apply length_insert.
Qed.

Lemma bump_inside a v :
  0 ≤ v < len a → bump a v = Some (alter (λ x, add64 x 1) (Z.to_nat v) a).
Proof.
  intros H. unfold bump, len in *. rewrite getitem_nonneg by lia.
  destruct (lookup_lt_is_Some_2 a (Z.to_nat v)) as [x Hx]; [lia|].
  rewrite Hx. simpl. rewrite setitem_inside by (unfold len; lia).
  f_equal. apply list_eq. intros j.
  destruct (decide (j = Z.to_nat v)) as [->|Hne].
  - rewrite list_lookup_insert_eq by lia.
    by rewrite list_lookup_alter_eq, Hx.
  - rewrite list_lookup_insert_ne by done.
    by rewrite list_lookup_alter_ne.
Qed.

(** ** Loops *)

Lemma for_each_app {A S} (body : S → A → option S) xs ys s :
  for_each body (xs ++ ys) s = s' ← for_each body xs s; for_each body ys s'.
Proof.
  revert s. induction xs as [|x xs IH]; intros s; simpl; [done|].
  destruct (body s x) as [s'|]; simpl; [apply IH|done].
Qed.

Lemma for_each_ext {A S} (f g : S → A → option S) xs s :
  (∀ x s', x ∈ xs → f s' x = g s' x) → for_each f xs s = for_each g xs s.
Proof.
  revert s. induction xs as [|x xs IH]; intros s Hfg; simpl; [done|].
  rewrite (Hfg x s) by left.
  destruct (g s x) as [s'|]; simpl; [|done].
  apply IH. intros y s'' Hy. apply Hfg. by right.
Qed.

(** ** Counting the entries of slices *)

Lemma filter_pair_snd (P : Z * Z → Prop) `{!∀ p, Decision (P p)}
    (Q : Z → Prop) `{!∀ x, Decision (Q x)} (w : Z) (xs : list Z) :
  (∀ x, P (w, x) ↔ Q x) →
  length (filter P ((λ x, (w, x)) <$> xs)) = hits Q xs.
Proof.
  intros HPQ. unfold hits. induction xs as [|x xs IH]; [done|].
  rewrite fmap_cons, !filter_cons.
  destruct (decide (P (w, x))) as [HP|HP], (decide (Q x)) as [HQ|HQ];
    simpl; rewrite ?IH; try done; exfalso;
    [apply HQ, HPQ, HP | apply HP, HPQ, HQ].
Qed.

Lemma count_where_wedges (P : Z * Z → Prop) `{!∀ p, Decision (P p)}
    (Q : Z → Prop) `{!∀ x, Decision (Q x)} indices indptr (E : gset Z) :
  (∀ w x, P (w, x) ↔ Q x) →
  count_where P (wedges indices indptr E)
  = Z.of_nat (sum_list_with (λ w, hits Q (row indices indptr w)) (elements E)).
Proof.
  intros HPQ. unfold count_where, wedges. f_equal.
  induction (elements E) as [|w ws IH]; [done|].
  rewrite bind_cons, filter_app, length_app, IH. simpl.
  by rewrite (filter_pair_snd P Q).
Qed.

(** ** Rows of a well-formed CSR structure *)

Lemma slice_Forall (P : Z → Prop) a lo hi : Forall P a → Forall P (slice a lo hi).
Proof. intros H. unfold slice. by apply Forall_take, Forall_drop. Qed.

Lemma slice_inside a lo hi :
  0 ≤ lo ≤ hi → hi ≤ len a →
  slice a lo hi = take (Z.to_nat (hi - lo)) (drop (Z.to_nat lo) a)
  ∧ length (slice a lo hi) = Z.to_nat (hi - lo).
Proof.
  intros Hlo Hhi. unfold slice, clip_index.
  rewrite !bool_decide_eq_false_2 by lia.
  rewrite !Z.min_l by lia. split; [done|].
  rewrite length_take, length_drop. unfold len in *. lia.
Qed.

Lemma StronglySorted_lookup_le (l : list Z) (i j : nat) x y :
  StronglySorted Z.le l → (i ≤ j)%nat → l !! i = Some x → l !! j = Some y → x ≤ y.
Proof.
  intros Hs. revert i j. induction Hs as [|a l Hs IH Ha]; intros i j Hij Hi Hj.
  - by rewrite lookup_nil in Hi.
  - destruct i as [|i], j as [|j]; simpl in *; try lia.
    + naive_solver lia.
    + injection Hi as <-. eapply (Forall_lookup_1 _ _ _ _ Ha Hj).
    + eapply (IH i j); [lia|done..].
Qed.

Lemma row_Forall (P : Z → Prop) indices indptr w :
  Forall P indices → Forall P (row indices indptr w).
Proof.
  intros H. unfold row, get_neigh.
  destruct (getitem indptr w) as [lo|]; simpl; [|constructor].
  destruct (getitem indptr (add64 w 1)) as [hi|]; simpl; [|constructor].
  by apply slice_Forall.
Qed.

Lemma wf_addressable N indices indptr :
  well_formed_csr N indices indptr → addressable N indices indptr.
Proof.
  intros Hwf. split.
  - rewrite (wf_rows _ _ _ Hwf). lia.
  - apply Forall_forall. intros v _. apply row_Forall, (wf_range _ _ _ Hwf).
  - apply (wf_fits _ _ _ Hwf).
Qed.

Lemma wf_egonet_range N indices indptr v x :
  well_formed_csr N indices indptr → x ∈ egonet indices indptr v → 0 ≤ x < N.
Proof.
  intros Hwf. unfold egonet. rewrite elem_of_list_to_set. intros Hx.
  pose proof (row_Forall _ indices indptr v (wf_range _ _ _ Hwf)) as Hr.
  rewrite Forall_forall in Hr. by apply Hr.
Qed.

Section rows.
Context (N : Z) (indices indptr : list Z).
Hypothesis Ha : addressable N indices indptr.

Lemma addr_ptr (i : Z) : 0 ≤ i ≤ N → is_Some (indptr !! Z.to_nat i).
Proof.
  intros Hi. apply lookup_lt_is_Some.
  pose proof (addr_rows _ _ _ Ha) as Hr. unfold len in Hr. lia.
Qed.

Lemma addr_succ (w : Z) : 0 ≤ w < N → add64 w 1 = w + 1.
Proof.
  intros Hw. apply add64_succ.
  pose proof (addr_fits _ _ _ Ha) as Hf.
  pose proof (addr_rows _ _ _ Ha) as Hr. unfold fits_int64 in Hf. lia.
Qed.

Lemma addr_get_neigh (w : Z) :
  0 ≤ w < N →
  ∃ lo hi, indptr !! Z.to_nat w = Some lo
           ∧ indptr !! Z.to_nat (w + 1) = Some hi
           ∧ get_neigh w indices indptr = Some (slice indices lo hi).
Proof.
  intros Hw.
  destruct (addr_ptr w) as [lo Hlo]; [lia|].
  destruct (addr_ptr (w + 1)) as [hi Hhi]; [lia|].
  exists lo, hi. split_and!; [done..|].
  unfold get_neigh. rewrite addr_succ by done.
  rewrite !getitem_nonneg by lia. by rewrite Hlo, Hhi.
Qed.

Lemma addr_get_neigh_row (w : Z) :
  0 ≤ w < N → get_neigh w indices indptr = Some (row indices indptr w).
Proof.
  intros Hw. destruct (addr_get_neigh w Hw) as (lo & hi & _ & _ & Hg).
  unfold row. by rewrite Hg.
Qed.

Lemma addr_row_range (w : Z) :
  0 ≤ w < N → Forall (λ x, 0 ≤ x < N) (row indices indptr w).
Proof.
  intros Hw. pose proof (addr_range _ _ _ Ha) as Hr.
  rewrite Forall_forall in Hr. apply Hr, elem_of_seqZ. lia.
Qed.

Lemma addr_egonet_range (v x : Z) :
  0 ≤ v < N → x ∈ egonet indices indptr v → 0 ≤ x < N.
Proof.
  intros Hv. unfold egonet. rewrite elem_of_list_to_set. intros Hx.
  pose proof (addr_row_range v Hv) as Hr. rewrite Forall_forall in Hr.
  by apply Hr.
Qed.

End rows.

Section boundaries.
Context (N : Z) (indices indptr : list Z).
Hypothesis Hwf : well_formed_csr N indices indptr.

Lemma wf_ptr_last : indptr !! Z.to_nat N = Some (len indices).
Proof.
  pose proof (wf_rows _ _ _ Hwf) as Hr. unfold len in Hr.
  rewrite <- (wf_total _ _ _ Hwf), last_lookup. f_equal. lia.
Qed.

Lemma wf_ptr_le (i j : Z) x y :
  0 ≤ i ≤ j →
  indptr !! Z.to_nat i = Some x → indptr !! Z.to_nat j = Some y → x ≤ y.
Proof.
  intros Hij. apply StronglySorted_lookup_le; [apply (wf_sorted _ _ _ Hwf)|lia].
Qed.

Lemma wf_nodes_nonneg : 0 ≤ N.
Proof.
  pose proof (wf_rows _ _ _ Hwf) as Hr. pose proof (wf_total _ _ _ Hwf) as Ht.
  destruct indptr; [done|]. unfold len in Hr. simpl in Hr. lia.
Qed.

End boundaries.

(** ** Rows of a valid CSR structure do not overlap *)

Lemma sum_list_with_le {A} (f g : A → nat) (l : list A) :
  (∀ x, x ∈ l → (f x ≤ g x)%nat) → (sum_list_with f l ≤ sum_list_with g l)%nat.
Proof.
  induction l as [|x l IH]; intros Hfg; simpl; [done|].
  pose proof (Hfg x ltac:(left)).
  assert (sum_list_with f l ≤ sum_list_with g l)%nat; [|lia].
  apply IH. intros y Hy. apply Hfg. by right.
Qed.

Lemma sum_list_with_submseteq {A} (f : A → nat) (l k : list A) :
  l ⊆+ k → (sum_list_with f l ≤ sum_list_with f k)%nat.
Proof.
  induction 1 as [|x l k _ IH|x y l|x l k _ IH|l k m _ IH1 _ IH2]; simpl; lia.
Qed.

Section valid_rows.
Context (N : Z) (indices indptr : list Z).
Hypothesis Hv : valid_csr N indices indptr.

Let Hwf : well_formed_csr N indices indptr := valid_wf _ _ _ Hv.
Let Ha : addressable N indices indptr := wf_addressable _ _ _ Hwf.

Lemma valid_ptr_nonneg (i : nat) x : indptr !! i = Some x → 0 ≤ x.
Proof.
  intros Hi. by apply (Forall_lookup_1 _ _ _ _ (valid_nonneg _ _ _ Hv) Hi).
Qed.

Lemma valid_nodes_nonneg : 0 ≤ N.
Proof. apply (wf_nodes_nonneg _ _ _ Hwf). Qed.

Lemma valid_row_bounds (w : Z) :
  0 ≤ w < N →
  ∃ lo hi, indptr !! Z.to_nat w = Some lo
           ∧ indptr !! Z.to_nat (w + 1) = Some hi
           ∧ 0 ≤ lo ≤ hi ∧ hi ≤ len indices
           ∧ length (row indices indptr w) = Z.to_nat (hi - lo).
Proof.
  intros Hw. destruct (addr_get_neigh _ _ _ Ha w Hw) as (lo & hi & Hlo & Hhi & Hg).
  exists lo, hi. split_and!; [done..| | | |].
  - by eapply valid_ptr_nonneg.
  - by eapply (wf_ptr_le _ _ _ Hwf w (w + 1)); [lia|..].
  - eapply (wf_ptr_le _ _ _ Hwf (w + 1) N); [lia|done|].
    by apply wf_ptr_last.
  - unfold row. rewrite Hg. simpl. apply slice_inside.
    + split; [by eapply valid_ptr_nonneg|].
      by eapply (wf_ptr_le _ _ _ Hwf w (w + 1)); [lia|..].
    + eapply (wf_ptr_le _ _ _ Hwf (w + 1) N); [lia|done|].
      by apply wf_ptr_last.
Qed.

Lemma valid_rows_prefix (k : nat) :
  Z.of_nat k ≤ N →
  ∃ lo hi, indptr !! 0%nat = Some lo ∧ indptr !! k = Some hi
           ∧ Z.of_nat (sum_list_with (λ w, length (row indices indptr w))
                         (seqZ 0 (Z.of_nat k))) = hi - lo.
Proof.
  induction k as [|k IH]; intros Hk.
  - destruct (addr_ptr _ _ _ Ha 0) as [lo Hlo]; [pose proof valid_nodes_nonneg; lia|].
    exists lo, lo. simpl in *. split_and!; [done..|lia].
  - destruct IH as (lo & mid & Hlo & Hmid & Hsum); [lia|].
    destruct (valid_row_bounds (Z.of_nat k)) as (lo' & hi & Hlo' & Hhi & Hb & _ & Hlen);
      [lia|].
    rewrite Nat2Z.id in Hlo'. replace (Z.to_nat (Z.of_nat k + 1)) with (S k) in Hhi by lia.
    assert (lo' = mid) as -> by congruence.
    exists lo, hi. split_and!; [done..|].
    rewrite seqZ_S, sum_list_with_app. simpl.
    rewrite Z.add_0_l, Hlen. lia.
Qed.

Lemma valid_rows_total :
  (sum_list_with (λ w, length (row indices indptr w)) (seqZ 0 N)
   ≤ length indices)%nat.
Proof.
  pose proof valid_nodes_nonneg as HN.
  destruct (valid_rows_prefix (Z.to_nat N)) as (lo & hi & Hlo & Hhi & Hsum); [lia|].
  rewrite Z2Nat.id in Hsum by done.
  pose proof (valid_ptr_nonneg _ _ Hlo).
  rewrite (wf_ptr_last _ _ _ Hwf) in Hhi. injection Hhi as <-.
  unfold len in Hsum. lia.
Qed.

(** However the entries are filtered, the rows of distinct nodes hold no
    more entries than the whole array. *)
Lemma valid_sum_bound (f : Z → nat) (ws : list Z) :
  (∀ w, (f w ≤ length (row indices indptr w))%nat) →
  NoDup ws → Forall (λ w, 0 ≤ w < N) ws →
  (sum_list_with f ws ≤ length indices)%nat.
Proof.
  intros Hf Hnd Hws.
  etrans; [apply (sum_list_with_le _ (λ w, length (row indices indptr w)))|].
  { intros w _. apply Hf. }
  etrans; [|apply valid_rows_total].
  apply sum_list_with_submseteq, NoDup_submseteq; [done|].
  intros w Hw. rewrite Forall_forall in Hws. apply elem_of_seqZ.
  specialize (Hws w Hw). lia.
Qed.

End valid_rows.

(** ** Updates of result slots *)

Local Abbreviation inc := (λ x : Z, add64 x 1).

Lemma insert_as_alter (a : list Z) (i : nat) (x : Z) :
  <[i:=x]> a = alter (λ _, x) i a.
Proof.
  apply list_eq. intros j. destruct (decide (i = j)) as [->|Hne].
  - rewrite list_lookup_alter_eq. destruct (a !! j) as [y|] eqn:Hy.
    + rewrite list_lookup_insert_eq; [done|]. by eapply lookup_lt_Some.
    + simpl. rewrite list_insert_ge; [done|]. by apply lookup_ge_None.
  - by rewrite list_lookup_insert_ne, list_lookup_alter_ne.
Qed.

Lemma update_at_nil g a : update_at g [] a = a.
Proof.
  unfold update_at. apply list_eq. intros i. rewrite list_lookup_imap.
  destruct (a !! i) as [x|]; [|done]. cbn [fmap option_fmap option_map].
  rewrite bool_decide_eq_false_2; [done|]. apply not_elem_of_nil.
Qed.

Lemma update_at_cons g v order a :
  0 ≤ v → v ∉ order →
  update_at g order (alter (g v) (Z.to_nat v) a) = update_at g (v :: order) a.
Proof.
  intros Hv Hnin. unfold update_at. apply list_eq. intros i.
  rewrite !list_lookup_imap. destruct (decide (i = Z.to_nat v)) as [->|Hne].
  - rewrite list_lookup_alter_eq, Z2Nat.id by done.
    destruct (a !! Z.to_nat v); [|done]. cbn [fmap option_fmap option_map].
    rewrite bool_decide_eq_false_2 by done.
    rewrite bool_decide_eq_true_2; [done|left].
  - rewrite list_lookup_alter_ne by done.
    destruct (a !! i); [|done]. cbn [fmap option_fmap option_map]. f_equal.
    erewrite bool_decide_ext; [done|]. rewrite elem_of_cons.
    split; [by right|]. intros [?|?]; [lia|done].
Qed.

Lemma update_at_length g order a : length (update_at g order a) = length a.
Proof. apply length_imap. Qed.

Lemma update_at_perm g order order' a :
  order ≡ₚ order' → update_at g order a = update_at g order' a.
Proof.
  intros Hp. unfold update_at. apply list_eq. intros i.
  rewrite !list_lookup_imap. destruct (a !! i); [|done].
  cbn [fmap option_fmap option_map]. f_equal.
  erewrite bool_decide_ext; [done|]. by rewrite Hp.
Qed.

Lemma update_at_zeros g (N : Z) :
  update_at g (seqZ 0 N) (replicate (Z.to_nat N) 0) = (λ v, g v 0) <$> seqZ 0 N.
Proof.
  unfold update_at. apply list_eq. intros i.
  rewrite list_lookup_imap, list_lookup_fmap.
  destruct (decide (Z.of_nat i < N)) as [Hi|Hi].
  - rewrite lookup_replicate_2, lookup_seqZ_lt by lia.
    cbn [fmap option_fmap option_map].
    rewrite bool_decide_eq_true_2; [done|]. apply elem_of_seqZ. lia.
  - rewrite lookup_seqZ_ge by lia.
    by rewrite (proj1 (lookup_replicate_None _ _ _)) by lia.
Qed.

(** ** The undirected counter, node by node *)

Lemma local_scan_slice_foldl (E : gset Z) (xs : list Z) (n : Z) :
  foldl (Local.scan_slice E) n xs = Nat.iter (hits (.∈ E) xs) inc n.
Proof.
  revert n. induction xs as [|x xs IH]; intros n; [done|].
  unfold hits in *. rewrite filter_cons. simpl foldl. rewrite IH.
  unfold Local.scan_slice. destruct (decide (x ∈ E)) as [Hx|Hx].
  - rewrite bool_decide_eq_true_2 by done. simpl length. by rewrite Nat.iter_succ_r.
  - by rewrite bool_decide_eq_false_2.
Qed.

Lemma local_scan_neigh_loop indices indptr (E : gset Z) (ws : list Z) (n : Z) :
  (∀ w, w ∈ ws → get_neigh w indices indptr = Some (row indices indptr w)) →
  for_each (Local.scan_neigh indices indptr E) ws n
  = Some (Nat.iter
            (sum_list_with (λ w, hits (.∈ E) (row indices indptr w)) ws) inc n).
Proof.
  revert n. induction ws as [|w ws IH]; intros n Hws; [done|].
  cbn [for_each].
  assert (Local.scan_neigh indices indptr E n w
          = Some (foldl (Local.scan_slice E) n (row indices indptr w))) as ->.
  { unfold Local.scan_neigh. by rewrite (Hws w) by left. }
  cbn [mbind option_bind]. rewrite IH by (intros; apply Hws; by right).
  rewrite local_scan_slice_foldl. simpl sum_list_with.
  by rewrite Nat.add_comm, Nat.iter_add.
Qed.

(** The order in which a set hands out its elements does not matter. *)
Lemma local_scan_neigh_loop_perm indices indptr (E : gset Z) (ws ws' : list Z) n :
  ws ≡ₚ ws' →
  (∀ w, w ∈ ws → get_neigh w indices indptr = Some (row indices indptr w)) →
  for_each (Local.scan_neigh indices indptr E) ws n
  = for_each (Local.scan_neigh indices indptr E) ws' n.
Proof.
  intros Hp Hws.
  assert (∀ f : Z → nat, sum_list_with f ws = sum_list_with f ws') as Hs
    by (intros f; by rewrite Hp).
  rewrite !local_scan_neigh_loop; [by rewrite Hs| |done].
  intros w Hw. apply Hws. by rewrite Hp.
Qed.

Lemma local_pairs_sum indices indptr v :
  local_pairs indices indptr v
  = Z.of_nat (sum_list_with
                (λ w, hits (.∈ egonet indices indptr v) (row indices indptr w))
                (elements (egonet indices indptr v))).
Proof. unfold local_pairs. by apply count_where_wedges. Qed.

Section local.
Context (N : Z) (indices indptr : list Z).
Hypothesis Haddr : addressable N indices indptr.
Hypothesis Hrows : len indptr = N + 1.

Lemma local_node_body (a : list Z) (v : Z) :
  0 ≤ v < N → len a = N →
  Local.node_body indices indptr a v
  = Some (alter (λ _, wrap64 (local_pairs indices indptr v)) (Z.to_nat v) a).
Proof.
  intros Hv Ha. unfold Local.node_body.
  rewrite (addr_get_neigh_row _ _ _ Haddr) by done. cbn [mbind option_bind].
  unfold set_update. rewrite (left_id_L ∅ (∪)).
  fold (egonet indices indptr v).
  rewrite local_scan_neigh_loop.
  - cbn [mbind option_bind]. rewrite iter_add64, <- local_pairs_sum.
    rewrite setitem_inside by lia. by rewrite insert_as_alter.
  - intros w Hw. apply (addr_get_neigh_row _ _ _ Haddr).
    apply (addr_egonet_range _ _ _ Haddr v); [done|]. by apply elem_of_elements.
Qed.

Lemma local_node_loop (order a : list Z) :
  NoDup order → Forall (λ v, 0 ≤ v < N) order → len a = N →
  Local.node_loop indices indptr order a
  = Some (update_at (λ v _, wrap64 (local_pairs indices indptr v)) order a).
Proof.
  unfold Local.node_loop. revert a.
  induction order as [|v order IH]; intros a Hnd Hrange Ha.
  - by rewrite update_at_nil.
  - apply NoDup_cons in Hnd as [Hv Hnd]. apply Forall_cons in Hrange as [Hr Hrange].
    cbn [for_each]. rewrite local_node_body by done. cbn [mbind option_bind].
    rewrite IH; [|done..|unfold len in *; by rewrite length_alter].
    f_equal.
    apply (update_at_cons (λ v _, wrap64 (local_pairs indices indptr v)));
      [lia|done].
Qed.

Lemma local_closed_form :
  0 ≤ N →
  _count_number_local_triangles indices indptr
  = Some ((λ v, wrap64 (local_pairs indices indptr v)) <$> seqZ 0 N).
Proof.
  intros HN. unfold _count_number_local_triangles.
  rewrite Hrows. replace (N + 1 - 1) with N by lia.
  unfold np_zeros. rewrite bool_decide_eq_true_2 by done.
  cbn [mbind option_bind]. rewrite local_node_loop.
  - by rewrite update_at_zeros.
  - apply NoDup_seqZ.
  - apply Forall_forall. intros v Hv. apply elem_of_seqZ in Hv. lia.
  - unfold len. rewrite length_replicate. lia.
Qed.

End local.

(** ** The undirected counter on valid input *)

Ltac by_evaluation := apply (bool_decide_unpack _); vm_compute; exact I.

Lemma local_pairs_fit N indices indptr v :
  valid_csr N indices indptr → in_int64 (local_pairs indices indptr v).
Proof.
  intros Hv. pose proof (valid_wf _ _ _ Hv) as Hwf.
  rewrite local_pairs_sum.
  destruct (wf_fits _ _ _ Hwf) as [_ Hf].
  int64_consts. unfold len in Hf. split; [lia|].
  etrans; [|apply Hf]. apply inj_le, (valid_sum_bound _ _ _ Hv).
  { intros w. apply length_filter. }
  { apply NoDup_elements. }
  apply Forall_forall. intros w Hw.
  apply (wf_egonet_range _ _ _ v w Hwf). by apply elem_of_elements.
Qed.

Lemma tri_valid : valid_csr 3 tri_indices tri_indptr.
Proof. split; [split|]; by_evaluation. Qed.

(** C2: on a valid CSR structure over [N] nodes the undirected counter
    returns an array of length [N] whose entry at every node [v] is the
    number of pairs [(u, x)], [u] in the deduplicated neighbour set of [v]
    and [x] an entry (with multiplicity) of the slice of [u], such that [x]
    lies in that set; neither [u = v] nor [x = v] is left out. *)
Theorem local_triangles_count_ordered_pairs N indices indptr :
  valid_csr N indices indptr →
  ∃ counts,
    _count_number_local_triangles indices indptr = Some counts
    ∧ len counts = N
    ∧ ∀ v, 0 ≤ v < N → getitem counts v = Some (local_pairs indices indptr v).
Proof.
  intros Hv. pose proof (valid_wf _ _ _ Hv) as Hwf.
  pose proof (valid_nodes_nonneg _ _ _ Hv) as HN.
  eexists. split.
  { apply (local_closed_form N); [by apply wf_addressable|apply Hwf|done]. }
  split.
  - unfold len. rewrite length_fmap, length_seqZ. lia.
  - intros v Hr. rewrite getitem_nonneg by lia.
    rewrite list_lookup_fmap, lookup_seqZ_lt by lia. simpl.
    rewrite wrap64_id by (by eapply local_pairs_fit). do 2 f_equal. lia.
Qed.

Lemma local_triangles_count_ordered_pairs_witness :
  valid_csr 3 tri_indices tri_indptr
  ∧ ∃ counts,
      _count_number_local_triangles tri_indices tri_indptr = Some counts
      ∧ len counts = 3
      ∧ ∀ v, 0 ≤ v < 3 → getitem counts v = Some (local_pairs tri_indices tri_indptr v).
Proof.
  split; [exact tri_valid|].
  apply (local_triangles_count_ordered_pairs 3 tri_indices tri_indptr), tri_valid.
Defined.

(** C3: for the undirected triangle on three nodes, stored with every edge
    in both directions (whatever the order of the two entries of each row),
    the undirected counter returns 2 at each of the three nodes. *)
Theorem undirected_triangle_counts_two (r0 r1 r2 : list Z) :
  r0 ≡ₚ [1; 2] → r1 ≡ₚ [0; 2] → r2 ≡ₚ [0; 1] →
  _count_number_local_triangles (r0 ++ r1 ++ r2) [0; 2; 4; 6] = Some [2; 2; 2].
Proof.
  intros H0 H1 H2.
  symmetry in H0, H1, H2.
  apply Permutation_length_2_inv in H0 as [->| ->];
    apply Permutation_length_2_inv in H1 as [->| ->];
    apply Permutation_length_2_inv in H2 as [->| ->]; by vm_compute.
Qed.

Lemma undirected_triangle_counts_two_witness :
  _count_number_local_triangles tri_indices tri_indptr = Some [2; 2; 2].
Proof.
  apply (undirected_triangle_counts_two [1; 2] [0; 2] [0; 1]); reflexivity.
Defined.

(** ** The four result arrays *)

Lemma counter_with_counter k k' a m :
  counter k' (with_counter k a m) = if decide (k = k') then a else counter k' m.
Proof. by destruct k, k', m. Qed.

Lemma with_counter_id k m : with_counter k (counter k m) m = m.
Proof. by destruct k, m. Qed.

Lemma motifs_ext m m' : (∀ k, counter k m = counter k m') → m = m'.
Proof.
  intros H. destruct m, m'.
  pose proof (H Out). pose proof (H In). pose proof (H Cycle). pose proof (H Middle).
  simpl in *. congruence.
Qed.

Lemma counter_tally k k' v n m :
  counter k' (tally k v n m)
  = if decide (k = k') then alter (Nat.iter n inc) (Z.to_nat v) (counter k m)
    else counter k' m.
Proof. unfold tally. apply counter_with_counter. Qed.

Lemma tally_sized N k v n m : sized N m → sized N (tally k v n m).
Proof.
  intros Hm k'. rewrite counter_tally. case_decide as Hk; [|apply Hm].
  unfold len. rewrite length_alter. apply Hm.
Qed.

Lemma tally_0 k v m : tally k v 0 m = m.
Proof.
  unfold tally. rewrite list_alter_id by done. apply with_counter_id.
Qed.

Lemma tally_tally k v a b m : tally k v a (tally k v b m) = tally k v (a + b) m.
Proof.
  apply motifs_ext. intros k'. rewrite !counter_tally.
  case_decide as Hk; [|done]. rewrite decide_True by done.
  rewrite list_alter_alter_eq. apply list_alter_ext; [|done].
  intros x _. simpl. by rewrite Nat.iter_add.
Qed.

Lemma tally_comm k k' v a b m :
  k ≠ k' → tally k v a (tally k' v b m) = tally k' v b (tally k v a m).
Proof.
  intros Hk. apply motifs_ext. intros j. rewrite !counter_tally.
  repeat case_decide; congruence.
Qed.

Lemma tally_pair k1 k2 v a1 a2 b1 b2 m :
  k1 ≠ k2 →
  tally k2 v a2 (tally k1 v a1 (tally k2 v b2 (tally k1 v b1 m)))
  = tally k2 v (a2 + b2) (tally k1 v (a1 + b1) m).
Proof.
  intros Hk. rewrite (tally_comm k1 k2 v a1 b2) by done.
  by rewrite !tally_tally.
Qed.

Lemma bump_counter_tally N k v m :
  sized N m → 0 ≤ v < N → bump_counter k v m = Some (tally k v 1 m).
Proof.
  intros Hm Hv. unfold bump_counter. rewrite bump_inside by (rewrite Hm; lia).
  done.
Qed.

(** ** The directed counter, node by node *)

Lemma hits_cons (Q : Z → Prop) `{!∀ x, Decision (Q x)} x xs :
  hits Q (x :: xs) = (hits Q xs + (if decide (Q x) then 1 else 0))%nat.
Proof.
  unfold hits. rewrite filter_cons. destruct (decide (Q x)); simpl; lia.
Qed.

Section directed_node.
Context (N v : Z) (out_egonet in_egonet : gset Z) (k1 k2 : motif).
Hypothesis Hk : k1 ≠ k2.
Hypothesis Hv : 0 ≤ v < N.

Lemma directed_scan_slice m x :
  sized N m →
  Directed.scan_slice v out_egonet in_egonet k1 k2 m x
  = Some (tally k2 v (if decide (x ≠ v ∧ x ∈ in_egonet) then 1 else 0)
            (tally k1 v (if decide (x ≠ v ∧ x ∈ out_egonet) then 1 else 0) m)).
Proof.
  intros Hm. unfold Directed.scan_slice.
  destruct (decide (x = v)) as [Hx|Hx].
  { rewrite bool_decide_eq_true_2 by done.
    rewrite !decide_False by (intros [? ?]; done). by rewrite !tally_0. }
  rewrite (bool_decide_eq_false_2 (x = v)) by done.
  destruct (decide (x ∈ out_egonet)) as [Ho|Ho].
  - rewrite (bool_decide_eq_true_2 (x ∈ out_egonet)) by done.
    rewrite (bump_counter_tally N) by done. cbn [mbind option_bind].
    rewrite (decide_True (P := x ≠ v ∧ x ∈ out_egonet)) by done.
    destruct (decide (x ∈ in_egonet)) as [Hi|Hi].
    + rewrite bool_decide_eq_true_2 by done.
      rewrite (bump_counter_tally N) by (done || by apply tally_sized).
      by rewrite decide_True.
    + rewrite bool_decide_eq_false_2 by done.
      rewrite (decide_False (P := x ≠ v ∧ x ∈ in_egonet)) by (intros [? ?]; done).
      by rewrite tally_0.
  - rewrite (bool_decide_eq_false_2 (x ∈ out_egonet)) by done.
    cbn [mbind option_bind].
    rewrite (decide_False (P := x ≠ v ∧ x ∈ out_egonet)) by (intros [? ?]; done).
    rewrite tally_0. destruct (decide (x ∈ in_egonet)) as [Hi|Hi].
    + rewrite bool_decide_eq_true_2 by done.
      rewrite (bump_counter_tally N) by done. by rewrite decide_True.
    + rewrite bool_decide_eq_false_2 by done.
      rewrite decide_False by (intros [? ?]; done). by rewrite tally_0.
Qed.

Lemma directed_scan_slice_loop xs m :
  sized N m →
  for_each (Directed.scan_slice v out_egonet in_egonet k1 k2) xs m
  = Some (tally k2 v (hits (λ x, x ≠ v ∧ x ∈ in_egonet) xs)
            (tally k1 v (hits (λ x, x ≠ v ∧ x ∈ out_egonet) xs) m)).
Proof.
  revert m. induction xs as [|x xs IH]; intros m Hm.
  - by rewrite !tally_0.
  - cbn [for_each]. rewrite directed_scan_slice by done.
    cbn [mbind option_bind]. rewrite IH by (by do 2 apply tally_sized).
    by rewrite tally_pair, !hits_cons.
Qed.

Lemma directed_scan_neigh_loop out_indices out_indptr ws m :
  sized N m →
  (∀ w, w ∈ ws →
        get_neigh w out_indices out_indptr = Some (row out_indices out_indptr w)) →
  for_each
    (Directed.scan_neigh out_indices out_indptr v out_egonet in_egonet k1 k2) ws m
  = Some (tally k2 v
            (sum_list_with
               (λ w, hits (λ x, x ≠ v ∧ x ∈ in_egonet) (row out_indices out_indptr w))
               ws)
            (tally k1 v
               (sum_list_with
                  (λ w, hits (λ x, x ≠ v ∧ x ∈ out_egonet)
                          (row out_indices out_indptr w))
                  ws) m)).
Proof.
  revert m. induction ws as [|w ws IH]; intros m Hm Hws.
  - by rewrite !tally_0.
  - cbn [for_each].
    assert (Directed.scan_neigh out_indices out_indptr v out_egonet in_egonet
              k1 k2 m w
            = for_each (Directed.scan_slice v out_egonet in_egonet k1 k2)
                (row out_indices out_indptr w) m) as ->.
    { unfold Directed.scan_neigh. by rewrite (Hws w) by left. }
    rewrite directed_scan_slice_loop by done. cbn [mbind option_bind].
    rewrite IH; [|by do 2 apply tally_sized|intros; apply Hws; by right].
    rewrite tally_pair by done. simpl sum_list_with.
    by rewrite !(Nat.add_comm (hits _ _)).
Qed.

(** The order in which a set hands out its elements does not matter. *)
Lemma directed_scan_neigh_loop_perm out_indices out_indptr ws ws' m :
  ws ≡ₚ ws' → sized N m →
  (∀ w, w ∈ ws →
        get_neigh w out_indices out_indptr = Some (row out_indices out_indptr w)) →
  for_each
    (Directed.scan_neigh out_indices out_indptr v out_egonet in_egonet k1 k2) ws m
  = for_each
      (Directed.scan_neigh out_indices out_indptr v out_egonet in_egonet k1 k2)
      ws' m.
Proof.
  intros Hp Hm Hws.
  assert (∀ f : Z → nat, sum_list_with f ws = sum_list_with f ws') as Hs
    by (intros f; by rewrite Hp).
  rewrite !directed_scan_neigh_loop; [by rewrite !Hs|done| |done..].
  intros w Hw. apply Hws. by rewrite Hp.
Qed.

End directed_node.

Lemma tally_all_nil h m : tally_all h [] m = m.
Proof. destruct m. unfold tally_all. by rewrite !update_at_nil. Qed.

Lemma tally_all_cons h v order m :
  0 ≤ v → v ∉ order →
  tally_all h order
    (tally In v (h In v) (tally Middle v (h Middle v)
       (tally Cycle v (h Cycle v) (tally Out v (h Out v) m))))
  = tally_all h (v :: order) m.
Proof.
  intros Hv Hnin. destruct m as [ao ai ac am]. unfold tally_all, tally.
  cbn [counter with_counter num_out_triangles num_in_triangles
         num_cycle_triangles num_middle_triangles].
  f_equal.
  - by apply (update_at_cons (λ v, Nat.iter (h Out v) inc)).
  - by apply (update_at_cons (λ v, Nat.iter (h In v) inc)).
  - by apply (update_at_cons (λ v, Nat.iter (h Cycle v) inc)).
  - by apply (update_at_cons (λ v, Nat.iter (h Middle v) inc)).
Qed.

Lemma motif_pairs_hits k out_indices out_indptr in_indices in_indptr v :
  motif_pairs k out_indices out_indptr in_indices in_indptr v
  = Z.of_nat (motif_hits k out_indices out_indptr in_indices in_indptr v).
Proof.
  unfold motif_pairs, motif_hits. apply count_where_wedges.
  intros w x. unfold closes. done.
Qed.

Section directed.
Context (N : Z) (out_indices out_indptr in_indices in_indptr : list Z).
Hypothesis Hout : addressable N out_indices out_indptr.
Hypothesis Hrows : len out_indptr = N + 1.
Hypothesis Hin : addressable N in_indices in_indptr.

Local Abbreviation h :=
  (λ k v, motif_hits k out_indices out_indptr in_indices in_indptr v).

Lemma directed_node_body m v :
  0 ≤ v < N → sized N m →
  Directed.node_body out_indices out_indptr in_indices in_indptr m v
  = Some (tally In v (h In v) (tally Middle v (h Middle v)
            (tally Cycle v (h Cycle v) (tally Out v (h Out v) m)))).
Proof.
  intros Hv Hm. unfold Directed.node_body.
  rewrite (addr_get_neigh_row _ _ _ Hout), (addr_get_neigh_row _ _ _ Hin) by done.
  cbn [mbind option_bind].
  fold (egonet out_indices out_indptr v). fold (egonet in_indices in_indptr v).
  rewrite (directed_scan_neigh_loop N); [|done..|].
  - cbn [mbind option_bind].
    rewrite (directed_scan_neigh_loop N); [done|done..| |].
    + by do 2 apply tally_sized.
    + intros w Hw. apply (addr_get_neigh_row _ _ _ Hout).
      apply (addr_egonet_range _ _ _ Hin v); [done|]. by apply elem_of_elements.
  - intros w Hw. apply (addr_get_neigh_row _ _ _ Hout).
    apply (addr_egonet_range _ _ _ Hout v); [done|]. by apply elem_of_elements.
Qed.

Lemma directed_node_loop order m :
  NoDup order → Forall (λ v, 0 ≤ v < N) order → sized N m →
  Directed.node_loop out_indices out_indptr in_indices in_indptr order m
  = Some (tally_all h order m).
Proof.
  unfold Directed.node_loop. revert m.
  induction order as [|v order IH]; intros m Hnd Hrange Hm.
  - by rewrite tally_all_nil.
  - apply NoDup_cons in Hnd as [Hv Hnd]. apply Forall_cons in Hrange as [Hr Hrange].
    cbn [for_each]. rewrite directed_node_body by done. cbn [mbind option_bind].
    rewrite IH; [|done..|by do 4 apply tally_sized].
    f_equal. apply (tally_all_cons h); [lia|done].
Qed.

Lemma directed_closed_form :
  0 ≤ N →
  _count_number_triangles_directed out_indices out_indptr in_indices in_indptr
  = Some (motif_table
            (λ k v, wrap64 (motif_pairs k out_indices out_indptr
                              in_indices in_indptr v)) N).
Proof.
  intros HN. unfold _count_number_triangles_directed.
  rewrite Hrows. replace (N + 1 - 1) with N by lia.
  unfold np_zeros. rewrite bool_decide_eq_true_2 by done.
  cbn [mbind option_bind]. rewrite directed_node_loop.
  - f_equal. unfold tally_all, motif_table.
    cbn [num_out_triangles num_in_triangles num_cycle_triangles
           num_middle_triangles].
    rewrite !update_at_zeros.
    f_equal; apply list_fmap_ext; intros _ v _;
      by rewrite iter_add64, motif_pairs_hits.
  - apply NoDup_seqZ.
  - apply Forall_forall. intros v Hv. apply elem_of_seqZ in Hv. lia.
  - intros k. unfold len. destruct k; simpl; rewrite length_replicate; lia.
Qed.

End directed.

(** ** The directed counter on valid input *)

Lemma motif_pairs_fit N k out_indices out_indptr in_indices in_indptr v :
  valid_csr N out_indices out_indptr →
  addressable N in_indices in_indptr →
  0 ≤ v < N →
  in_int64 (motif_pairs k out_indices out_indptr in_indices in_indptr v).
Proof.
  intros Hv Hin Hr. pose proof (valid_wf _ _ _ Hv) as Hout.
  rewrite motif_pairs_hits.
  destruct (wf_fits _ _ _ Hout) as [_ Hf].
  int64_consts. unfold len in Hf. split; [lia|].
  etrans; [|apply Hf]. apply inj_le. unfold motif_hits.
  apply (valid_sum_bound _ _ _ Hv).
  { intros w. apply length_filter. }
  { apply NoDup_elements. }
  apply Forall_forall. intros w Hw. apply elem_of_elements in Hw.
  destruct k;
    (by apply (wf_egonet_range _ _ _ v w Hout))
    || (by apply (addr_egonet_range _ _ _ Hin v)).
Qed.

Lemma motif_table_lookup f N k v :
  0 ≤ v < N → getitem (counter k (motif_table f N)) v = Some (f k v).
Proof.
  intros Hv. rewrite getitem_nonneg by lia.
  destruct k; simpl; rewrite list_lookup_fmap, lookup_seqZ_lt by lia;
    simpl; do 2 f_equal; lia.
Qed.

Lemma motif_table_sized f N : 0 ≤ N → sized N (motif_table f N).
Proof.
  intros HN k. unfold len.
  destruct k; simpl; rewrite length_fmap, length_seqZ; lia.
Qed.

Lemma cycle_forward_valid : valid_csr 3 cycle_forward cycle_indptr.
Proof. split; [split|]; by_evaluation. Qed.

Lemma cycle_backward_valid : valid_csr 3 cycle_backward cycle_indptr.
Proof. split; [split|]; by_evaluation. Qed.

(** C1: on a valid pair of CSR structures over [N] nodes the directed
    counter returns four arrays of length [N]; at every node [v] the out,
    cycle, middleman and in entries are the numbers of pairs [(w, x)] with
    [w] in the out-egonet (out, cycle) or in the in-egonet (middleman, in),
    [x] an entry with multiplicity of the out-slice of [w], [x ≠ v], and [x]
    in the out-egonet (out, middleman) or in the in-egonet (cycle, in).
    Only [x = v] is left out; [w = v] is not. *)
Theorem directed_motifs_count_pairs N out_indices out_indptr in_indices in_indptr :
  valid_csr N out_indices out_indptr →
  valid_csr N in_indices in_indptr →
  ∃ m,
    _count_number_triangles_directed out_indices out_indptr in_indices in_indptr
    = Some m
    ∧ len (num_out_triangles m) = N ∧ len (num_in_triangles m) = N
    ∧ len (num_cycle_triangles m) = N ∧ len (num_middle_triangles m) = N
    ∧ ∀ v, 0 ≤ v < N →
        getitem (num_out_triangles m) v
        = Some (motif_pairs Out out_indices out_indptr in_indices in_indptr v)
        ∧ getitem (num_cycle_triangles m) v
          = Some (motif_pairs Cycle out_indices out_indptr in_indices in_indptr v)
        ∧ getitem (num_middle_triangles m) v
          = Some (motif_pairs Middle out_indices out_indptr in_indices in_indptr v)
        ∧ getitem (num_in_triangles m) v
          = Some (motif_pairs In out_indices out_indptr in_indices in_indptr v).
Proof.
  intros Hvo Hvi.
  pose proof (valid_wf _ _ _ Hvo) as Hout. pose proof (valid_wf _ _ _ Hvi) as Hin.
  pose proof (valid_nodes_nonneg _ _ _ Hvo) as HN.
  pose proof (wf_addressable _ _ _ Hout) as Hao.
  pose proof (wf_addressable _ _ _ Hin) as Hai.
  eexists. split; [apply (directed_closed_form N); (done || apply Hout)|].
  pose proof (motif_table_sized
                (λ k v, wrap64 (motif_pairs k out_indices out_indptr
                                  in_indices in_indptr v)) N HN) as Hs.
  split_and!; [apply (Hs Out)|apply (Hs In)|apply (Hs Cycle)|apply (Hs Middle)|].
  intros v Hv.
  split_and!;
    [rewrite (motif_table_lookup _ N Out) by done
    |rewrite (motif_table_lookup _ N Cycle) by done
    |rewrite (motif_table_lookup _ N Middle) by done
    |rewrite (motif_table_lookup _ N In) by done];
    by rewrite wrap64_id by (by eapply motif_pairs_fit).
Qed.

Lemma directed_motifs_count_pairs_witness :
  ∃ m,
    _count_number_triangles_directed cycle_forward cycle_indptr
      cycle_backward cycle_indptr = Some m
    ∧ len (num_out_triangles m) = 3 ∧ len (num_in_triangles m) = 3
    ∧ len (num_cycle_triangles m) = 3 ∧ len (num_middle_triangles m) = 3
    ∧ ∀ v, 0 ≤ v < 3 →
        getitem (num_out_triangles m) v
        = Some (motif_pairs Out cycle_forward cycle_indptr cycle_backward cycle_indptr v)
        ∧ getitem (num_cycle_triangles m) v
          = Some (motif_pairs Cycle cycle_forward cycle_indptr cycle_backward cycle_indptr v)
        ∧ getitem (num_middle_triangles m) v
          = Some (motif_pairs Middle cycle_forward cycle_indptr cycle_backward cycle_indptr v)
        ∧ getitem (num_in_triangles m) v
          = Some (motif_pairs In cycle_forward cycle_indptr cycle_backward cycle_indptr v).
Proof.
  apply (directed_motifs_count_pairs 3);
    [exact cycle_forward_valid | exact cycle_backward_valid].
Defined.

(** C4: for the graph whose only edges form a directed 3-cycle, given as
    out- and in-CSR structures that are transposes of one another, the
    directed counter returns 1 in the cycle array at each of the three nodes
    and 0 everywhere in the out, in and middleman arrays; this holds for both
    orientations of the cycle over the node ids 0, 1, 2. *)
Theorem directed_cycle_counts :
  _count_number_triangles_directed cycle_forward cycle_indptr
    cycle_backward cycle_indptr
  = Some (Motifs [0; 0; 0] [0; 0; 0] [1; 1; 1] [0; 0; 0])
  ∧ _count_number_triangles_directed cycle_backward cycle_indptr
      cycle_forward cycle_indptr
    = Some (Motifs [0; 0; 0] [0; 0; 0] [1; 1; 1] [0; 0; 0]).
Proof. split; by vm_compute. Qed.

(** C9: for two CSR structures over the same [N] nodes, each well formed on
    its own (row boundaries non-decreasing and ending at the number of
    entries, entries in [0, N)), the directed counter does not fault and
    returns four arrays of length [N]; nothing relates the two structures. *)
Theorem directed_motifs_never_fault N out_indices out_indptr in_indices in_indptr :
  well_formed_csr N out_indices out_indptr →
  well_formed_csr N in_indices in_indptr →
  ∃ m,
    _count_number_triangles_directed out_indices out_indptr in_indices in_indptr
    = Some m
    ∧ len (num_out_triangles m) = N ∧ len (num_in_triangles m) = N
    ∧ len (num_cycle_triangles m) = N ∧ len (num_middle_triangles m) = N.
Proof.
  intros Hout Hin.
  pose proof (wf_nodes_nonneg _ _ _ Hout) as HN.
  eexists. split.
  { apply (directed_closed_form N);
      [by apply wf_addressable|apply Hout|by apply wf_addressable|done]. }
  pose proof (motif_table_sized
                (λ k v, wrap64 (motif_pairs k out_indices out_indptr
                                  in_indices in_indptr v)) N HN) as Hs.
  split_and!; [apply (Hs Out)|apply (Hs In)|apply (Hs Cycle)|apply (Hs Middle)].
Qed.

Lemma directed_motifs_never_fault_witness :
  ∃ m,
    _count_number_triangles_directed cycle_forward cycle_indptr
      cycle_forward cycle_indptr = Some m
    ∧ len (num_out_triangles m) = 3 ∧ len (num_in_triangles m) = 3
    ∧ len (num_cycle_triangles m) = 3 ∧ len (num_middle_triangles m) = 3.
Proof.
  apply (directed_motifs_never_fault 3);
    apply valid_wf, cycle_forward_valid.
Defined.

(** ** Sizes of the result arrays, whatever the input *)

Lemma for_each_invariant {A S} (P : S → Prop) (body : S → A → option S) xs s s' :
  (∀ s x s', P s → body s x = Some s' → P s') →
  P s → for_each body xs s = Some s' → P s'.
Proof.
  intros Hbody. revert s. induction xs as [|x xs IH]; intros s Hs Hrun.
  - by injection Hrun as <-.
  - cbn [for_each] in Hrun. destruct (body s x) as [s1|] eqn:Hb; [|done].
    cbn [mbind option_bind] in Hrun. eapply IH; [|done]. by eapply Hbody.
Qed.

Lemma bump_length a v a' : bump a v = Some a' → length a' = length a.
Proof.
  unfold bump. destruct (getitem a v) as [x|]; [|done].
  cbn [mbind option_bind]. apply setitem_length.
Qed.

Lemma bump_counter_sized N k v m m' :
  sized N m → bump_counter k v m = Some m' → sized N m'.
Proof.
  unfold bump_counter. intros Hm Hb.
  destruct (bump (counter k m) v) as [a|] eqn:Ha; [|done].
  injection Hb as <-. intros k'. rewrite counter_with_counter.
  case_decide as Hk; [|apply Hm].
  unfold len. rewrite (bump_length _ _ _ Ha). apply Hm.
Qed.

Lemma directed_scan_slice_sized N v oe ie k1 k2 m x m' :
  sized N m → Directed.scan_slice v oe ie k1 k2 m x = Some m' → sized N m'.
Proof.
  unfold Directed.scan_slice. intros Hm.
  destruct (bool_decide (x = v)); [by intros [= <-]|].
  destruct (bool_decide (x ∈ oe)), (bool_decide (x ∈ ie)); cbn [mbind option_bind].
  - destruct (bump_counter k1 v m) as [m1|] eqn:H1; [|done].
    cbn [mbind option_bind]. apply bump_counter_sized.
    by eapply bump_counter_sized.
  - destruct (bump_counter k1 v m) as [m1|] eqn:H1; [|done].
    cbn [mbind option_bind]. intros [= <-]. by eapply bump_counter_sized.
  - by apply bump_counter_sized.
  - by intros [= <-].
Qed.

Lemma directed_scan_neigh_sized N oi op v oe ie k1 k2 m w m' :
  sized N m → Directed.scan_neigh oi op v oe ie k1 k2 m w = Some m' → sized N m'.
Proof.
  unfold Directed.scan_neigh. intros Hm.
  destruct (get_neigh w oi op) as [nn|]; [|done]. cbn [mbind option_bind].
  apply for_each_invariant; [|done].
  intros ???. apply directed_scan_slice_sized.
Qed.

Lemma directed_node_body_sized N oi op ii ip m v m' :
  sized N m → Directed.node_body oi op ii ip m v = Some m' → sized N m'.
Proof.
  unfold Directed.node_body. intros Hm.
  destruct (get_neigh v oi op) as [ons|]; [|done]. cbn [mbind option_bind].
  destruct (get_neigh v ii ip) as [ins|]; [|done]. cbn [mbind option_bind].
  destruct (for_each _ (elements (list_to_set ons)) m) as [m1|] eqn:H1; [|done].
  cbn [mbind option_bind].
  apply for_each_invariant.
  - intros ???. apply directed_scan_neigh_sized.
  - revert H1. apply for_each_invariant; [|done].
    intros ???. apply directed_scan_neigh_sized.
Qed.

Lemma directed_result_sized oi op ii ip m :
  _count_number_triangles_directed oi op ii ip = Some m → sized (len op - 1) m.
Proof.
  unfold _count_number_triangles_directed, np_zeros.
  case_bool_decide as HN; [|done]. cbn [mbind option_bind].
  apply for_each_invariant.
  - intros ???. apply directed_node_body_sized.
  - intros k. unfold len in *. destruct k; simpl; rewrite length_replicate; lia.
Qed.

(** ** Rows of the in-CSR structure beyond the last node *)

Lemma getitem_take a n i :
  0 ≤ i < Z.of_nat n → getitem (take n a) i = getitem a i.
Proof.
  intros Hi. rewrite !getitem_nonneg by lia. apply lookup_take_lt. lia.
Qed.

Lemma get_neigh_take_indptr v indices indptr n :
  0 ≤ v → v + 1 < Z.of_nat n → v + 1 ≤ int64_max →
  get_neigh v indices (take n indptr) = get_neigh v indices indptr.
Proof.
  intros H0 Hn Hmax. unfold get_neigh.
  rewrite add64_succ by lia. by rewrite !getitem_take by lia.
Qed.

Lemma row_take_indptr v indices indptr n :
  0 ≤ v → v + 1 < Z.of_nat n → v + 1 ≤ int64_max →
  row indices (take n indptr) v = row indices indptr v.
Proof. intros. unfold row. by rewrite get_neigh_take_indptr. Qed.

(** C10: the number of nodes is [len out_indptr - 1] alone.  When the
    in-CSR structure has more rows than that, the counter behaves exactly as
    on the in-CSR structure cut down to the first [len out_indptr] row
    boundaries; whatever it returns has four arrays of that length; and it
    does return when the out-CSR structure is well formed and the rows of
    the in-CSR structure for the nodes below [N] hold node ids below [N]. *)
Theorem directed_sized_by_out_indptr N out_indices out_indptr in_indices in_indptr :
  len out_indptr = N + 1 → fits_int64 out_indptr → N + 1 < len in_indptr →
  _count_number_triangles_directed out_indices out_indptr in_indices in_indptr
  = _count_number_triangles_directed out_indices out_indptr in_indices
      (take (Z.to_nat (N + 1)) in_indptr)
  ∧ (∀ m,
       _count_number_triangles_directed out_indices out_indptr
         in_indices in_indptr = Some m →
       len (num_out_triangles m) = N ∧ len (num_in_triangles m) = N
       ∧ len (num_cycle_triangles m) = N ∧ len (num_middle_triangles m) = N)
  ∧ (well_formed_csr N out_indices out_indptr →
     addressable N in_indices in_indptr →
     ∃ m, _count_number_triangles_directed out_indices out_indptr
            in_indices in_indptr = Some m).
Proof.
  intros Hrows Hfits Hlong. split_and!.
  - unfold _count_number_triangles_directed, np_zeros.
    case_bool_decide as HN; [|done]. cbn [mbind option_bind].
    unfold Directed.node_loop. apply for_each_ext. intros v m Hv.
    apply elem_of_seqZ in Hv. unfold Directed.node_body.
    rewrite get_neigh_take_indptr; [done|lia|lia|].
    unfold fits_int64 in Hfits. lia.
  - intros m Hm. apply directed_result_sized in Hm.
    rewrite Hrows in Hm. replace (N + 1 - 1) with N in Hm by lia.
    split_and!; [apply (Hm Out)|apply (Hm In)|apply (Hm Cycle)|apply (Hm Middle)].
  - intros Hout Hin. eexists.
    apply (directed_closed_form N);
      [by apply wf_addressable|done|done|by eapply wf_nodes_nonneg].
Qed.

Lemma long_in_addressable : addressable 3 long_in_indices long_in_indptr.
Proof. split; by_evaluation. Qed.

Lemma directed_sized_by_out_indptr_witness :
  _count_number_triangles_directed cycle_forward cycle_indptr
    long_in_indices long_in_indptr
  = _count_number_triangles_directed cycle_forward cycle_indptr long_in_indices
      (take (Z.to_nat (3 + 1)) long_in_indptr)
  ∧ ∃ m, _count_number_triangles_directed cycle_forward cycle_indptr
           long_in_indices long_in_indptr = Some m.
Proof.
  destruct (directed_sized_by_out_indptr 3 cycle_forward cycle_indptr
              long_in_indices long_in_indptr) as (Heq & _ & Hex);
    [reflexivity|by vm_compute|by vm_compute|].
  split; [exact Heq|].
  apply Hex; [apply valid_wf, cycle_forward_valid|exact long_in_addressable].
Defined.

(** ** Schedules of the node loop *)

Lemma for_each_concat {A S} (body : S → A → option S) (chunks : list (list A)) s :
  for_each (λ s chunk, for_each body chunk s) chunks s
  = for_each body (concat chunks) s.
Proof.
  revert s. induction chunks as [|c chunks IH]; intros s; [done|].
  cbn [for_each concat]. rewrite for_each_app.
  destruct (for_each body c s) as [s'|]; cbn [mbind option_bind]; [apply IH|done].
Qed.

Lemma covers_NoDup N chunks : covers N chunks → NoDup (concat chunks).
Proof. unfold covers. intros ->. apply NoDup_seqZ. Qed.

Lemma covers_range N chunks :
  covers N chunks → Forall (λ v, 0 ≤ v < N) (concat chunks).
Proof.
  unfold covers. intros ->. apply Forall_forall. intros v Hv.
  apply elem_of_seqZ in Hv. lia.
Qed.

Lemma tally_all_perm h order order' m :
  order ≡ₚ order' → tally_all h order m = tally_all h order' m.
Proof.
  intros Hp. unfold tally_all. f_equal; by apply update_at_perm.
Qed.

(** C7: both counters are functions of their input, and on well-formed
    input their result is the same for every schedule of the node loop:
    however the node range is cut into chunks and in whatever order the
    chunks and the nodes inside them are carried out, as long as every node
    is visited once, the scheduled run returns the arrays of the sequential
    run. *)
Theorem counters_independent_of_schedule N indices indptr in_indices in_indptr
    (chunks : list (list Z)) :
  well_formed_csr N indices indptr →
  well_formed_csr N in_indices in_indptr →
  covers N chunks →
  (∃ counts,
     _count_number_local_triangles indices indptr = Some counts
     ∧ local_triangles_scheduled chunks indices indptr = Some counts)
  ∧ (∃ m,
       _count_number_triangles_directed indices indptr in_indices in_indptr = Some m
       ∧ triangles_directed_scheduled chunks indices indptr in_indices in_indptr
         = Some m).
Proof.
  intros Hout Hin Hc.
  pose proof (wf_nodes_nonneg _ _ _ Hout) as HN.
  pose proof (wf_addressable _ _ _ Hout) as Hao.
  pose proof (wf_addressable _ _ _ Hin) as Hai.
  pose proof (wf_rows _ _ _ Hout) as Hrows.
  split.
  - eexists. split; [by apply (local_closed_form N)|].
    unfold local_triangles_scheduled.
    rewrite Hrows. replace (N + 1 - 1) with N by lia.
    unfold np_zeros. rewrite bool_decide_eq_true_2 by done.
    cbn [mbind option_bind]. unfold Local.node_loop. rewrite for_each_concat.
    fold (Local.node_loop indices indptr (concat chunks)
            (replicate (Z.to_nat N) 0)).
    rewrite (local_node_loop N);
      [|done|by eapply covers_NoDup|by apply covers_range
       |unfold len; rewrite length_replicate; lia].
    by rewrite (update_at_perm _ _ _ _ Hc), update_at_zeros.
  - eexists. split; [by apply (directed_closed_form N)|].
    unfold triangles_directed_scheduled.
    rewrite Hrows. replace (N + 1 - 1) with N by lia.
    unfold np_zeros. rewrite bool_decide_eq_true_2 by done.
    cbn [mbind option_bind]. unfold Directed.node_loop. rewrite for_each_concat.
    match goal with
    | |- for_each _ _ ?m0 = _ =>
        fold (Directed.node_loop indices indptr in_indices in_indptr
                (concat chunks) m0)
    end.
    rewrite (directed_node_loop N);
      [|done|done|by eapply covers_NoDup|by apply covers_range|].
    + rewrite (tally_all_perm _ _ _ _ Hc). f_equal.
      unfold tally_all, motif_table.
      cbn [num_out_triangles num_in_triangles num_cycle_triangles
             num_middle_triangles].
      rewrite !update_at_zeros.
      f_equal; apply list_fmap_ext; intros _ v _;
        by rewrite iter_add64, motif_pairs_hits.
    + intros k. unfold len. destruct k; simpl; rewrite length_replicate; lia.
Qed.

Lemma counters_independent_of_schedule_witness :
  (∃ counts,
     _count_number_local_triangles cycle_forward cycle_indptr = Some counts
     ∧ local_triangles_scheduled [[2]; [1; 0]] cycle_forward cycle_indptr
       = Some counts)
  ∧ (∃ m,
       _count_number_triangles_directed cycle_forward cycle_indptr
         cycle_backward cycle_indptr = Some m
       ∧ triangles_directed_scheduled [[2]; [1; 0]] cycle_forward cycle_indptr
           cycle_backward cycle_indptr = Some m).
Proof.
  apply (counters_independent_of_schedule 3);
    [apply valid_wf, cycle_forward_valid|apply valid_wf, cycle_backward_valid|].
  unfold covers. apply (bool_decide_unpack _). by vm_compute.
Defined.

(** ** Moving a node and its neighbourhood to other node ids *)

Lemma hits_fmap (Q : Z → Prop) `{!∀ x, Decision (Q x)} (g : Z → Z) xs :
  hits Q (g <$> xs) = hits (λ x, Q (g x)) xs.
Proof.
  induction xs as [|x xs IH]; [done|].
  rewrite fmap_cons, !hits_cons, IH. by destruct (decide (Q (g x))).
Qed.

Lemma hits_ext (Q Q' : Z → Prop) `{!∀ x, Decision (Q x)} `{!∀ x, Decision (Q' x)} xs :
  (∀ x, Q x ↔ Q' x) → hits Q xs = hits Q' xs.
Proof.
  intros HQ. induction xs as [|x xs IH]; [done|].
  rewrite !hits_cons, IH.
  destruct (decide (Q x)) as [Hq|Hq], (decide (Q' x)) as [Hq'|Hq']; try done;
    exfalso; [apply Hq', HQ, Hq|apply Hq, HQ, Hq'].
Qed.

Lemma sum_list_with_fmap {A B} (f : B → nat) (g : A → B) (l : list A) :
  sum_list_with f (g <$> l) = sum_list_with (λ x, f (g x)) l.
Proof.
  induction l as [|x l IH]; [done|]. rewrite fmap_cons.
  change (sum_list_with f (g x :: (g <$> l)))
    with (f (g x) + sum_list_with f (g <$> l))%nat.
  by rewrite IH.
Qed.

Lemma sum_list_with_ext {A} (f g : A → nat) (l : list A) :
  (∀ x, x ∈ l → f x = g x) → sum_list_with f l = sum_list_with g l.
Proof.
  induction l as [|x l IH]; intros Hfg; simpl; [done|].
  rewrite (Hfg x) by left. rewrite IH; [done|]. intros y Hy. apply Hfg. by right.
Qed.

Lemma elements_list_to_set_fmap (φ : Z → Z) `{!Inj (=) (=) φ} (l : list Z) :
  elements (list_to_set (φ <$> l) : gset Z)
  ≡ₚ φ <$> elements (list_to_set l : gset Z).
Proof.
  apply NoDup_Permutation.
  - apply NoDup_elements.
  - apply (NoDup_fmap_2 _), NoDup_elements.
  - intros y. rewrite elem_of_elements, elem_of_list_to_set, !list_elem_of_fmap.
    split; intros (x & -> & Hx); exists x; split; try done.
    + by rewrite elem_of_elements, elem_of_list_to_set.
    + by rewrite elem_of_elements, elem_of_list_to_set in Hx.
Qed.

Lemma elem_of_list_to_set_fmap (φ : Z → Z) `{!Inj (=) (=) φ} (l : list Z) x :
  φ x ∈ (list_to_set (φ <$> l) : gset Z) ↔ x ∈ (list_to_set l : gset Z).
Proof.
  rewrite !elem_of_list_to_set, list_elem_of_fmap. split.
  - intros (y & Hy & Hin). by apply (inj φ) in Hy as ->.
  - intros Hin. by exists x.
Qed.

(** The sum of hits over an egonet is carried along by an injective
    renaming [φ] of the node ids that maps the rows of the egonet's nodes. *)
Lemma embed_sum (φ : Z → Z) `{!Inj (=) (=) φ} (rows rows' : Z → list Z)
    (l : list Z) (Q Q' : Z → Prop)
    `{!∀ x, Decision (Q x)} `{!∀ x, Decision (Q' x)} :
  (∀ w, w ∈ l → rows' (φ w) = φ <$> rows w) →
  (∀ x, Q' (φ x) ↔ Q x) →
  sum_list_with (λ w, hits Q' (rows' w)) (elements (list_to_set (φ <$> l) : gset Z))
  = sum_list_with (λ w, hits Q (rows w)) (elements (list_to_set l : gset Z)).
Proof.
  intros Hrows HQ. rewrite (elements_list_to_set_fmap φ), sum_list_with_fmap.
  apply sum_list_with_ext. intros w Hw.
  rewrite elem_of_elements, elem_of_list_to_set in Hw.
  rewrite Hrows by done. rewrite hits_fmap. by apply hits_ext.
Qed.

Lemma local_pairs_embed (φ : Z → Z) `{!Inj (=) (=) φ}
    indices indptr indices' indptr' v :
  row indices' indptr' (φ v) = φ <$> row indices indptr v →
  (∀ w, w ∈ row indices indptr v →
        row indices' indptr' (φ w) = φ <$> row indices indptr w) →
  local_pairs indices' indptr' (φ v) = local_pairs indices indptr v.
Proof.
  intros Hv Hrows. rewrite !local_pairs_sum. f_equal. unfold egonet. rewrite Hv.
  apply (embed_sum φ (row indices indptr) (row indices' indptr')); [done|].
  intros x. apply (elem_of_list_to_set_fmap φ).
Qed.

Lemma motif_pairs_embed (φ : Z → Z) `{!Inj (=) (=) φ} k
    out_indices out_indptr in_indices in_indptr
    out_indices' out_indptr' in_indices' in_indptr' v :
  row out_indices' out_indptr' (φ v) = φ <$> row out_indices out_indptr v →
  row in_indices' in_indptr' (φ v) = φ <$> row in_indices in_indptr v →
  (∀ w, w ∈ row out_indices out_indptr v ∨ w ∈ row in_indices in_indptr v →
        row out_indices' out_indptr' (φ w) = φ <$> row out_indices out_indptr w) →
  motif_pairs k out_indices' out_indptr' in_indices' in_indptr' (φ v)
  = motif_pairs k out_indices out_indptr in_indices in_indptr v.
Proof.
  intros Hvo Hvi Hrows. rewrite !motif_pairs_hits. f_equal.
  unfold motif_hits, egonet. rewrite Hvo, Hvi.
  destruct k;
    apply (embed_sum φ (row out_indices out_indptr) (row out_indices' out_indptr'));
    try (intros w Hw; apply Hrows; ((by left) || (by right)));
    intros x; rewrite (elem_of_list_to_set_fmap φ);
    (split; intros [Hne Hin]; (split; [|done]);
     [intros ->; by apply Hne|intros Heq%(inj φ); by apply Hne]).
Qed.

Lemma table_two_copies (f f2 : Z → Z) N :
  0 ≤ N →
  (∀ v, 0 ≤ v < N → f2 v = f v) →
  (∀ v, 0 ≤ v < N → f2 (v + N) = f v) →
  f2 <$> seqZ 0 (2 * N) = (f <$> seqZ 0 N) ++ (f <$> seqZ 0 N).
Proof.
  intros HN H1 H2. replace (2 * N) with (N + N) by lia.
  rewrite seqZ_app, fmap_app by done. f_equal.
  - apply list_fmap_ext. intros _ v Hv%list_elem_of_lookup_2%elem_of_seqZ.
    apply H1. lia.
  - replace (0 + N) with (N + 0) by lia.
    rewrite <- (fmap_add_seqZ N 0 N), <- list_fmap_compose.
    apply list_fmap_ext. intros _ v Hv%list_elem_of_lookup_2%elem_of_seqZ.
    simpl. rewrite <- (H2 v) by lia. f_equal. lia.
Qed.

Section copies.
Context (N : Z) (indices indptr indices2 indptr2 : list Z).
Hypothesis Haddr : addressable N indices indptr.
Hypothesis Hcopies : two_copies N indices indptr indices2 indptr2.

Lemma copies_row_first v :
  0 ≤ v < N → row indices2 indptr2 v = row indices indptr v.
Proof.
  intros Hv. pose proof (copies_first _ _ _ _ _ Hcopies) as H.
  rewrite Forall_forall in H. apply H, elem_of_seqZ. lia.
Qed.

Lemma copies_row_second v :
  0 ≤ v < N →
  row indices2 indptr2 (v + N) = (λ x, x + N) <$> row indices indptr v.
Proof.
  intros Hv. pose proof (copies_second _ _ _ _ _ Hcopies) as H.
  rewrite Forall_forall in H. apply H, elem_of_seqZ. lia.
Qed.

Lemma copies_addressable : addressable (2 * N) indices2 indptr2.
Proof.
  split.
  - rewrite (copies_rows _ _ _ _ _ Hcopies). lia.
  - apply Forall_forall. intros v Hv%elem_of_seqZ.
    destruct (decide (v < N)) as [Hlt|Hge].
    + rewrite copies_row_first by lia.
      eapply Forall_impl; [apply (addr_row_range _ _ _ Haddr); lia|].
      intros x Hx. simpl in Hx. lia.
    + replace v with (v - N + N) by lia. rewrite copies_row_second by lia.
      apply Forall_fmap.
      eapply Forall_impl; [apply (addr_row_range _ _ _ Haddr (v - N)); lia|].
      intros x Hx. simpl in *. lia.
  - apply (copies_fits _ _ _ _ _ Hcopies).
Qed.

End copies.

Lemma shift_inj (N : Z) : Inj (=) (=) (λ x : Z, x + N).
Proof. intros x y. lia. Qed.

Section copies_counts.
Context (N : Z) (indices indptr indices2 indptr2 : list Z).
Hypothesis Haddr : addressable N indices indptr.
Hypothesis Hcopies : two_copies N indices indptr indices2 indptr2.

Lemma copies_rows_first v w :
  0 ≤ v < N → w ∈ row indices indptr v →
  row indices2 indptr2 (id w) = id <$> row indices indptr w.
Proof.
  intros Hv Hw. rewrite list_fmap_id. apply (copies_row_first N); [done|].
  pose proof (addr_row_range _ _ _ Haddr v Hv) as Hr.
  rewrite Forall_forall in Hr. by apply Hr.
Qed.

Lemma copies_rows_second v w :
  0 ≤ v < N → w ∈ row indices indptr v →
  row indices2 indptr2 (w + N) = (λ x, x + N) <$> row indices indptr w.
Proof.
  intros Hv Hw. apply (copies_row_second N); [done|].
  pose proof (addr_row_range _ _ _ Haddr v Hv) as Hr.
  rewrite Forall_forall in Hr. by apply Hr.
Qed.

Lemma local_pairs_first v :
  0 ≤ v < N → local_pairs indices2 indptr2 v = local_pairs indices indptr v.
Proof.
  intros Hv. apply (local_pairs_embed id).
  - rewrite list_fmap_id. by apply (copies_row_first N).
  - intros w. by apply copies_rows_first.
Qed.

Lemma local_pairs_second v :
  0 ≤ v < N → local_pairs indices2 indptr2 (v + N) = local_pairs indices indptr v.
Proof.
  intros Hv. apply (local_pairs_embed (λ x, x + N) (Inj0 := shift_inj N)).
  - by apply (copies_row_second N).
  - intros w. by apply copies_rows_second.
Qed.

End copies_counts.

Section copies_motifs.
Context (N : Z) (out_indices out_indptr out_indices2 out_indptr2 : list Z).
Context (in_indices in_indptr in_indices2 in_indptr2 : list Z).
Hypothesis Hout : addressable N out_indices out_indptr.
Hypothesis Hin : addressable N in_indices in_indptr.
Hypothesis Hcout : two_copies N out_indices out_indptr out_indices2 out_indptr2.
Hypothesis Hcin : two_copies N in_indices in_indptr in_indices2 in_indptr2.

Lemma motif_pairs_first k v :
  0 ≤ v < N →
  motif_pairs k out_indices2 out_indptr2 in_indices2 in_indptr2 v
  = motif_pairs k out_indices out_indptr in_indices in_indptr v.
Proof.
  intros Hv. apply (motif_pairs_embed id).
  - rewrite list_fmap_id. by apply (copies_row_first N).
  - rewrite list_fmap_id. by apply (copies_row_first N).
  - intros w [Hw|Hw].
    + by apply (copies_rows_first N _ _ _ _ Hout Hcout v).
    + rewrite list_fmap_id. apply (copies_row_first N _ _ _ _ Hcout).
      pose proof (addr_row_range _ _ _ Hin v Hv) as Hr.
      rewrite Forall_forall in Hr. by apply Hr.
Qed.

Lemma motif_pairs_second k v :
  0 ≤ v < N →
  motif_pairs k out_indices2 out_indptr2 in_indices2 in_indptr2 (v + N)
  = motif_pairs k out_indices out_indptr in_indices in_indptr v.
Proof.
  intros Hv. apply (motif_pairs_embed (λ x, x + N) (Inj0 := shift_inj N)).
  - by apply (copies_row_second N).
  - by apply (copies_row_second N).
  - intros w [Hw|Hw].
    + by apply (copies_rows_second N _ _ _ _ Hout Hcout v).
    + apply (copies_row_second N _ _ _ _ Hcout).
      pose proof (addr_row_range _ _ _ Hin v Hv) as Hr.
      rewrite Forall_forall in Hr. by apply Hr.
Qed.

End copies_motifs.

(** ** The usual construction of two copies *)

Lemma slice_app_l (a b : list Z) lo hi :
  0 ≤ lo ≤ hi → hi ≤ len a → slice (a ++ b) lo hi = slice a lo hi.
Proof.
  intros Hlo Hhi. unfold slice, clip_index, len in *. rewrite length_app.
  rewrite !bool_decide_eq_false_2 by lia. rewrite !Z.min_l by lia.
  rewrite drop_app_le by lia. apply take_app_le. rewrite length_drop. lia.
Qed.

Lemma slice_app_r (a : list Z) (f : Z → Z) lo hi :
  0 ≤ lo ≤ hi → hi ≤ len a →
  slice (a ++ (f <$> a)) (lo + len a) (hi + len a) = f <$> slice a lo hi.
Proof.
  intros Hlo Hhi. unfold slice, clip_index, len in *.
  rewrite length_app, length_fmap.
  rewrite !bool_decide_eq_false_2 by lia. rewrite !Z.min_l by lia.
  rewrite drop_app_ge by lia. rewrite fmap_take, fmap_drop. f_equal; [lia|].
  f_equal. lia.
Qed.

Lemma tail_length {A} (l : list A) : length (tail l) = pred (length l).
Proof. by destruct l. Qed.

Section duplicate.
Context (N : Z) (indices indptr : list Z).
Hypothesis Hv : valid_csr N indices indptr.
Hypothesis H0 : indptr !! 0%nat = Some 0.
Hypothesis Hfits : fits_int64 (duplicate_indptr indices indptr).

Let Hwf : well_formed_csr N indices indptr := valid_wf _ _ _ Hv.

Lemma duplicate_indptr_length : len (duplicate_indptr indices indptr) = 2 * N + 1.
Proof.
  pose proof (wf_rows _ _ _ Hwf) as Hr. unfold duplicate_indptr, len in *.
  rewrite length_app, length_fmap, tail_length.
  pose proof (valid_nodes_nonneg _ _ _ Hv). lia.
Qed.

Lemma duplicate_indptr_first (j : Z) :
  0 ≤ j ≤ N →
  duplicate_indptr indices indptr !! Z.to_nat j = indptr !! Z.to_nat j.
Proof.
  intros Hj. pose proof (wf_rows _ _ _ Hwf) as Hr. unfold len in Hr.
  unfold duplicate_indptr. apply lookup_app_l. lia.
Qed.

Lemma duplicate_indptr_second (j : Z) :
  0 ≤ j ≤ N →
  duplicate_indptr indices indptr !! Z.to_nat (j + N)
  = (λ p, p + len indices) <$> indptr !! Z.to_nat j.
Proof.
  intros Hj. pose proof (wf_rows _ _ _ Hwf) as Hr. unfold len in Hr.
  unfold duplicate_indptr. destruct (decide (j = 0)) as [->|Hne].
  - rewrite lookup_app_l by lia. change (Z.to_nat 0) with 0%nat.
    rewrite H0. cbn [fmap option_fmap option_map].
    rewrite !Z.add_0_l. apply (wf_ptr_last _ _ _ Hwf).
  - rewrite lookup_app_r by lia. rewrite list_lookup_fmap, lookup_tail.
    do 2 f_equal. lia.
Qed.

Lemma duplicate_succ (v : Z) : 0 ≤ v < 2 * N → add64 v 1 = v + 1.
Proof.
  intros Hr. apply add64_succ. pose proof duplicate_indptr_length.
  unfold fits_int64 in Hfits. lia.
Qed.

Lemma duplicate_row_first (v : Z) :
  0 ≤ v < N →
  row (duplicate_indices N indices) (duplicate_indptr indices indptr) v
  = row indices indptr v.
Proof.
  intros Hr.
  destruct (valid_row_bounds _ _ _ Hv v Hr) as (lo & hi & Hlo & Hhi & Hb & Hle & _).
  unfold row, get_neigh. rewrite duplicate_succ by lia.
  rewrite !getitem_nonneg by lia.
  rewrite !duplicate_indptr_first by lia. rewrite Hlo, Hhi. simpl.
  unfold duplicate_indices. by apply slice_app_l.
Qed.

Lemma duplicate_row_second (v : Z) :
  0 ≤ v < N →
  row (duplicate_indices N indices) (duplicate_indptr indices indptr) (v + N)
  = (λ x, x + N) <$> row indices indptr v.
Proof.
  intros Hr.
  destruct (valid_row_bounds _ _ _ Hv v Hr) as (lo & hi & Hlo & Hhi & Hb & Hle & _).
  unfold row, get_neigh. rewrite duplicate_succ by lia.
  rewrite (addr_succ _ _ _ (wf_addressable _ _ _ Hwf)) by done.
  rewrite !getitem_nonneg by lia.
  replace (v + N + 1) with (v + 1 + N) by lia.
  rewrite !duplicate_indptr_second by lia. rewrite Hlo, Hhi. simpl.
  unfold duplicate_indices. by apply slice_app_r.
Qed.

(** Appending the shifted arrays of a valid CSR structure whose row
    boundaries start at 0 stores the graph twice. *)
Lemma duplicate_two_copies :
  two_copies N indices indptr
    (duplicate_indices N indices) (duplicate_indptr indices indptr).
Proof.
  split.
  - apply duplicate_indptr_length.
  - done.
  - apply Forall_forall. intros v Hr%elem_of_seqZ. apply duplicate_row_first. lia.
  - apply Forall_forall. intros v Hr%elem_of_seqZ. apply duplicate_row_second. lia.
Qed.

End duplicate.

(** C5: on the disjoint union of two copies of a well-formed graph (second
    copy moved up by [N], no row mentioning the other copy) either counter
    returns the result on the graph itself followed by that same result
    once more, which is the concatenation of the results on the two
    copies. *)
Theorem disjoint_copies_concatenate N
    indices indptr in_indices in_indptr
    indices2 indptr2 in_indices2 in_indptr2 :
  well_formed_csr N indices indptr →
  well_formed_csr N in_indices in_indptr →
  two_copies N indices indptr indices2 indptr2 →
  two_copies N in_indices in_indptr in_indices2 in_indptr2 →
  (∃ counts,
     _count_number_local_triangles indices indptr = Some counts
     ∧ _count_number_local_triangles indices2 indptr2 = Some (counts ++ counts))
  ∧ (∃ m,
       _count_number_triangles_directed indices indptr in_indices in_indptr = Some m
       ∧ _count_number_triangles_directed indices2 indptr2 in_indices2 in_indptr2
         = Some (motifs_app m m)).
Proof.
  intros Hout Hin Hcout Hcin.
  pose proof (wf_nodes_nonneg _ _ _ Hout) as HN.
  pose proof (wf_addressable _ _ _ Hout) as Hao.
  pose proof (wf_addressable _ _ _ Hin) as Hai.
  pose proof (copies_addressable _ _ _ _ _ Hao Hcout) as Hao2.
  pose proof (copies_addressable _ _ _ _ _ Hai Hcin) as Hai2.
  split.
  - eexists. split; [apply (local_closed_form N); (done || apply Hout)|].
    rewrite (local_closed_form (2 * N)); [|done|apply Hcout|lia].
    f_equal. apply table_two_copies; [done|..]; intros v Hv; f_equal.
    + by apply (local_pairs_first N).
    + by apply (local_pairs_second N).
  - eexists. split; [apply (directed_closed_form N); (done || apply Hout)|].
    rewrite (directed_closed_form (2 * N)); [|done|apply Hcout|done|lia].
    f_equal. unfold motifs_app, motif_table.
    cbn [num_out_triangles num_in_triangles num_cycle_triangles
           num_middle_triangles].
    f_equal; (apply table_two_copies; [done|..]; intros v Hv; f_equal);
      (by apply (motif_pairs_first N)) || (by apply (motif_pairs_second N)).
Qed.

Lemma cycle_forward_copies :
  two_copies 3 cycle_forward cycle_indptr
    (duplicate_indices 3 cycle_forward) (duplicate_indptr cycle_forward cycle_indptr).
Proof. split; by_evaluation. Qed.

Lemma cycle_backward_copies :
  two_copies 3 cycle_backward cycle_indptr
    (duplicate_indices 3 cycle_backward) (duplicate_indptr cycle_backward cycle_indptr).
Proof. split; by_evaluation. Qed.

Lemma disjoint_copies_concatenate_witness :
  (∃ counts,
     _count_number_local_triangles cycle_forward cycle_indptr = Some counts
     ∧ _count_number_local_triangles
         (duplicate_indices 3 cycle_forward)
         (duplicate_indptr cycle_forward cycle_indptr)
       = Some (counts ++ counts))
  ∧ (∃ m,
       _count_number_triangles_directed cycle_forward cycle_indptr
         cycle_backward cycle_indptr = Some m
       ∧ _count_number_triangles_directed
           (duplicate_indices 3 cycle_forward)
           (duplicate_indptr cycle_forward cycle_indptr)
           (duplicate_indices 3 cycle_backward)
           (duplicate_indptr cycle_backward cycle_indptr)
         = Some (motifs_app m m)).
Proof.
  apply (disjoint_copies_concatenate 3);
    [apply valid_wf, cycle_forward_valid|apply valid_wf, cycle_backward_valid
    |exact cycle_forward_copies|exact cycle_backward_copies].
Defined.

(** ** Counting the same edges from either end *)

Lemma sum_list_with_add {A} (f g : A → nat) (l : list A) :
  sum_list_with (λ x, f x + g x)%nat l
  = (sum_list_with f l + sum_list_with g l)%nat.
Proof. induction l as [|x l IH]; simpl; [done|]. rewrite IH. lia. Qed.

Lemma sum_list_with_swap {A B} (f : A → B → nat) (la : list A) (lb : list B) :
  sum_list_with (λ a, sum_list_with (f a) lb) la
  = sum_list_with (λ b, sum_list_with (λ a, f a b) la) lb.
Proof.
  induction la as [|a la IH]; simpl.
  - induction lb as [|b lb IHb]; simpl; [done|]. by rewrite <- IHb.
  - by rewrite IH, sum_list_with_add.
Qed.

Lemma sum_list_with_cons {A} (f : A → nat) x l :
  sum_list_with f (x :: l) = (f x + sum_list_with f l)%nat.
Proof. done. Qed.

Lemma sum_indicator (x : Z) (l : list Z) :
  NoDup l →
  sum_list_with (λ t, if decide (x = t) then 1 else 0)%nat l
  = (if decide (x ∈ l) then 1 else 0)%nat.
Proof.
  induction 1 as [|t l Hnin Hnd IH].
  - rewrite decide_False; [done|apply not_elem_of_nil].
  - rewrite sum_list_with_cons, IH. destruct (decide (x = t)) as [->|Hne].
    + rewrite decide_False by done. rewrite decide_True; [done|left].
    + destruct (decide (x ∈ l)) as [Hin|Hin].
      * rewrite decide_True; [done|by right].
      * rewrite decide_False; [done|]. rewrite elem_of_cons. by intros [?|?].
Qed.

Lemma hits_by_target (v : Z) (T : gset Z) (xs : list Z) :
  v ∉ T →
  hits (λ x, x ≠ v ∧ x ∈ T) xs
  = sum_list_with (λ t, hits (λ x, x = t) xs) (elements T).
Proof.
  intros Hv. induction xs as [|x xs IH].
  - symmetry. induction (elements T) as [|t l IHl]; simpl; [done|].
    by rewrite IHl.
  - rewrite hits_cons, IH.
    erewrite (sum_list_with_ext (λ t, hits (λ x0, x0 = t) (x :: xs)));
      [|intros t _; apply hits_cons].
    rewrite sum_list_with_add, sum_indicator by apply NoDup_elements.
    f_equal. destruct (decide (x ∈ T)) as [Hin|Hin].
    + rewrite decide_True by (split; [by intros ->|done]).
      rewrite decide_True; [done|by apply elem_of_elements].
    + rewrite decide_False by (by intros [_ ?]).
      rewrite decide_False; [done|by rewrite elem_of_elements].
Qed.

Section transpose.
Context (N : Z) (out_indices out_indptr in_indices in_indptr : list Z).
Hypothesis Htr : transposes N out_indices out_indptr in_indices in_indptr.

Lemma transposes_mult (a b : Z) :
  0 ≤ a < N → 0 ≤ b < N →
  hits (λ x, x = b) (row out_indices out_indptr a)
  = hits (λ x, x = a) (row in_indices in_indptr b).
Proof.
  intros Ha Hb. unfold transposes in Htr. rewrite Forall_forall in Htr.
  assert (a ∈ seqZ 0 N) as Hain by (apply elem_of_seqZ; lia).
  specialize (Htr a Hain). rewrite Forall_forall in Htr.
  apply Htr, elem_of_seqZ. lia.
Qed.

(** Edges from [E] to [T], counted at their sources in the out-structure or
    at their targets in the in-structure. *)
Lemma transposes_sum (v : Z) (E T : gset Z) :
  v ∉ E → v ∉ T →
  (∀ w, w ∈ E → 0 ≤ w < N) → (∀ t, t ∈ T → 0 ≤ t < N) →
  sum_list_with
    (λ w, hits (λ x, x ≠ v ∧ x ∈ T) (row out_indices out_indptr w)) (elements E)
  = sum_list_with
      (λ t, hits (λ x, x ≠ v ∧ x ∈ E) (row in_indices in_indptr t)) (elements T).
Proof.
  intros HvE HvT HE HT.
  rewrite (sum_list_with_ext _
             (λ w, sum_list_with
                     (λ t, hits (λ x, x = w) (row in_indices in_indptr t))
                     (elements T))).
  2:{ intros w Hw%elem_of_elements. rewrite hits_by_target by done.
      apply sum_list_with_ext. intros t Ht%elem_of_elements.
      apply transposes_mult; auto. }
  rewrite sum_list_with_swap. apply sum_list_with_ext.
  intros t _. by rewrite hits_by_target.
Qed.

End transpose.

Lemma hits_eq_zero (v : Z) (xs : list Z) :
  hits (λ x, x = v) xs = 0%nat ↔ v ∉ xs.
Proof.
  induction xs as [|x xs IH].
  - split; [intros _; apply not_elem_of_nil|done].
  - rewrite hits_cons, not_elem_of_cons. destruct (decide (x = v)) as [->|Hne].
    + split; [lia|]. by intros [? _].
    + rewrite Nat.add_0_r, IH. split; [by split|by intros [_ ?]].
Qed.

Section swap.
Context (N : Z) (out_indices out_indptr in_indices in_indptr : list Z).
Hypothesis Hout : addressable N out_indices out_indptr.
Hypothesis Hin : addressable N in_indices in_indptr.
Hypothesis Htr : transposes N out_indices out_indptr in_indices in_indptr.
Hypothesis Hfree : loop_free N out_indices out_indptr.

Lemma swap_not_out v : 0 ≤ v < N → v ∉ egonet out_indices out_indptr v.
Proof.
  intros Hv. unfold egonet. rewrite elem_of_list_to_set.
  unfold loop_free in Hfree. rewrite Forall_forall in Hfree.
  apply Hfree, elem_of_seqZ. lia.
Qed.

Lemma swap_not_in v : 0 ≤ v < N → v ∉ egonet in_indices in_indptr v.
Proof.
  intros Hv. unfold egonet. rewrite elem_of_list_to_set.
  apply hits_eq_zero. rewrite <- (transposes_mult _ _ _ _ _ Htr) by done.
  apply hits_eq_zero. unfold loop_free in Hfree. rewrite Forall_forall in Hfree.
  apply Hfree, elem_of_seqZ. lia.
Qed.

Lemma swap_out_in v :
  0 ≤ v < N →
  motif_hits Out in_indices in_indptr out_indices out_indptr v
  = motif_hits In out_indices out_indptr in_indices in_indptr v.
Proof.
  intros Hv. unfold motif_hits. symmetry.
  apply (transposes_sum N); [done|by apply swap_not_in..| |];
    intros w; by apply (addr_egonet_range _ _ _ Hin v).
Qed.

Lemma swap_in_out v :
  0 ≤ v < N →
  motif_hits In in_indices in_indptr out_indices out_indptr v
  = motif_hits Out out_indices out_indptr in_indices in_indptr v.
Proof.
  intros Hv. unfold motif_hits. symmetry.
  apply (transposes_sum N); [done|by apply swap_not_out..| |];
    intros w; by apply (addr_egonet_range _ _ _ Hout v).
Qed.

Lemma swap_cycle v :
  0 ≤ v < N →
  motif_hits Cycle in_indices in_indptr out_indices out_indptr v
  = motif_hits Cycle out_indices out_indptr in_indices in_indptr v.
Proof.
  intros Hv. unfold motif_hits. symmetry.
  apply (transposes_sum N); [done|by apply swap_not_out|by apply swap_not_in| |];
    intros w.
  - by apply (addr_egonet_range _ _ _ Hout v).
  - by apply (addr_egonet_range _ _ _ Hin v).
Qed.

End swap.

(** C6: for a graph without self-loops given by two well-formed CSR
    structures that are transposes of one another, calling the directed
    counter with the two structures exchanged returns the out array of the
    original call as its in array, the in array as its out array, and the
    same cycle array. *)
Theorem swapped_structures_exchange_out_in N
    out_indices out_indptr in_indices in_indptr :
  well_formed_csr N out_indices out_indptr →
  well_formed_csr N in_indices in_indptr →
  transposes N out_indices out_indptr in_indices in_indptr →
  loop_free N out_indices out_indptr →
  ∃ m m',
    _count_number_triangles_directed out_indices out_indptr in_indices in_indptr
    = Some m
    ∧ _count_number_triangles_directed in_indices in_indptr out_indices out_indptr
      = Some m'
    ∧ num_out_triangles m' = num_in_triangles m
    ∧ num_in_triangles m' = num_out_triangles m
    ∧ num_cycle_triangles m' = num_cycle_triangles m.
Proof.
  intros Hwo Hwi Htr Hfree.
  pose proof (wf_nodes_nonneg _ _ _ Hwo) as HN.
  pose proof (wf_addressable _ _ _ Hwo) as Hao.
  pose proof (wf_addressable _ _ _ Hwi) as Hai.
  do 2 eexists. split_and!.
  - apply (directed_closed_form N); (done || apply Hwo).
  - apply (directed_closed_form N); (done || apply Hwi).
  - apply list_fmap_ext. intros _ v Hv%list_elem_of_lookup_2%elem_of_seqZ.
    rewrite !motif_pairs_hits. do 2 f_equal. apply (swap_out_in N); (done || lia).
  - apply list_fmap_ext. intros _ v Hv%list_elem_of_lookup_2%elem_of_seqZ.
    rewrite !motif_pairs_hits. do 2 f_equal. apply (swap_in_out N); (done || lia).
  - apply list_fmap_ext. intros _ v Hv%list_elem_of_lookup_2%elem_of_seqZ.
    rewrite !motif_pairs_hits. do 2 f_equal. apply (swap_cycle N); (done || lia).
Qed.

Lemma fan_out_valid : valid_csr 3 fan_out_indices fan_out_indptr.
Proof. split; [split|]; by_evaluation. Qed.

Lemma fan_in_valid : valid_csr 3 fan_in_indices fan_in_indptr.
Proof. split; [split|]; by_evaluation. Qed.

Lemma swapped_structures_exchange_out_in_witness :
  ∃ m m',
    _count_number_triangles_directed fan_out_indices fan_out_indptr
      fan_in_indices fan_in_indptr = Some m
    ∧ _count_number_triangles_directed fan_in_indices fan_in_indptr
        fan_out_indices fan_out_indptr = Some m'
    ∧ num_out_triangles m' = num_in_triangles m
    ∧ num_in_triangles m' = num_out_triangles m
    ∧ num_cycle_triangles m' = num_cycle_triangles m.
Proof.
  apply (swapped_structures_exchange_out_in 3);
    [apply valid_wf, fan_out_valid|apply valid_wf, fan_in_valid| |].
  - unfold transposes. by_evaluation.
  - unfold loop_free. by_evaluation.
Defined.

(** ** Runs over the store follow the runs over array values *)

Local Abbreviation heap := (gmap positive (list Z)).

Lemma store_bind_run {A B} (c : Store.M A) (k : A → Store.M B) (h : heap) :
  (c ≫= k) h = match c h with Some (x, h') => k x h' | None => None end.
Proof. done. Qed.

Lemma array_len_at (h : heap) l a :
  h !! l = Some a → Store.array_len l h = Some (len a, h).
Proof. intros H. unfold Store.array_len. by rewrite H. Qed.

Lemma load_at (h : heap) l a i :
  h !! l = Some a →
  Store.load l i h = match getitem a i with Some x => Some (x, h) | None => None end.
Proof. intros H. unfold Store.load. by rewrite H. Qed.

Lemma store_at (h : heap) l a i x :
  h !! l = Some a →
  Store.store l i x h
  = match setitem a i x with Some a' => Some (tt, <[l := a']> h) | None => None end.
Proof. intros H. unfold Store.store. by rewrite H. Qed.

Lemma view_to_list_at (h : heap) (w : Store.view) a :
  h !! Store.base w = Some a →
  Store.view_to_list w h
  = Some (take (Z.to_nat (Store.size w)) (drop (Z.to_nat (Store.start w)) a), h).
Proof. intros H. unfold Store.view_to_list. by rewrite H. Qed.

Lemma for_each_st_sim {A S P} (bodyM : S → A → Store.M S)
    (body : P → A → option P) (acc : P → S) (enc : P → heap) xs p :
  (∀ p x, x ∈ xs → bodyM (acc p) x (enc p) = lifted acc enc (body p x)) →
  Store.for_each_st bodyM xs (acc p) (enc p) = lifted acc enc (for_each body xs p).
Proof.
  revert p. induction xs as [|x xs IH]; intros p Hbody; [done|].
  cbn [Store.for_each_st for_each]. rewrite store_bind_run, Hbody by left.
  destruct (body p x) as [p'|]; [|done]. cbn [lifted mbind option_bind].
  apply IH. intros p'' y Hy. apply Hbody. by right.
Qed.

Lemma for_each_pure {A S} (f : S → A → S) xs s :
  for_each (λ s x, Some (f s x)) xs s = Some (foldl f s xs).
Proof. revert s. induction xs as [|x xs IH]; intros s; [done|]. apply IH. Qed.

(** Reading the elements of a slice one index at a time. *)
Lemma for_each_lookup {P} (body : P → Z → option P) (a : list Z) (c m : Z)
    (n : nat) (p : P) :
  0 ≤ c + m → (Z.to_nat (c + m) + n ≤ length a)%nat →
  for_each (λ p k, x ← getitem a (c + k); body p x) (seqZ m (Z.of_nat n)) p
  = for_each body (take n (drop (Z.to_nat (c + m)) a)) p.
Proof.
  revert m p. induction n as [|n IH]; intros m p Hm Hn; [done|].
  rewrite seqZ_cons by lia. cbn [for_each].
  destruct (lookup_lt_is_Some_2 a (Z.to_nat (c + m))) as [x Hx]; [lia|].
  rewrite getitem_nonneg, Hx by done. cbn [mbind option_bind].
  rewrite (drop_S _ _ _ Hx). cbn [take for_each].
  destruct (body p x) as [p'|]; [|done]. cbn [mbind option_bind].
  replace (Z.pred (Z.of_nat (S n))) with (Z.of_nat n) by lia.
  rewrite IH by lia. do 3 f_equal. lia.
Qed.

Lemma clip_index_bounds n i : 0 ≤ n → 0 ≤ clip_index n i ≤ n.
Proof. intros Hn. unfold clip_index. case_bool_decide; lia. Qed.

Lemma view_of_list l a lo hi :
  take (Z.to_nat (Store.size (view_of l a lo hi)))
    (drop (Z.to_nat (Store.start (view_of l a lo hi))) a)
  = slice a lo hi.
Proof. unfold view_of, slice. cbn [Store.size Store.start]. f_equal. lia. Qed.

Lemma for_view_sim {S P} (l : positive) (a : list Z) (lo hi : Z)
    (bodyM : S → Z → Store.M S) (body : P → Z → option P)
    (acc : P → S) (enc : P → heap) (p : P) :
  (∀ p, enc p !! l = Some a) →
  (∀ p x, bodyM (acc p) x (enc p) = lifted acc enc (body p x)) →
  Store.for_view (view_of l a lo hi) bodyM (acc p) (enc p)
  = lifted acc enc (for_each body (slice a lo hi) p).
Proof.
  intros Hl Hbody. unfold Store.for_view.
  rewrite (for_each_st_sim _
             (λ p k, x ← getitem a (Store.start (view_of l a lo hi) + k); body p x)).
  - f_equal. rewrite <- (view_of_list l).
    pose proof (clip_index_bounds (len a) lo ltac:(unfold len; lia)) as Hlo.
    pose proof (clip_index_bounds (len a) hi ltac:(unfold len; lia)) as Hhi.
    unfold view_of in *. cbn [Store.size Store.start Store.base] in *.
    set (s := clip_index (len a) lo) in *. set (e := clip_index (len a) hi) in *.
    rewrite <- (Z2Nat.id (Z.max 0 (e - s))) at 1 by lia.
    rewrite for_each_lookup; [by rewrite Z.add_0_r|lia|unfold len in *; lia].
  - intros p' k _. rewrite store_bind_run.
    cbn [Store.base view_of]. rewrite (load_at _ _ a) by done.
    destruct (getitem a _) as [x|]; [|done]. cbn [mbind option_bind].
    apply Hbody.
Qed.

Lemma get_neigh_at (h : heap) node l_indices l_indptr indices indptr :
  h !! l_indices = Some indices → h !! l_indptr = Some indptr →
  Store.get_neigh node l_indices l_indptr h
  = match getitem indptr node, getitem indptr (add64 node 1) with
    | Some lo, Some hi => Some (view_of l_indices indices lo hi, h)
    | _, _ => None
    end.
Proof.
  intros Hi Hp. unfold Store.get_neigh.
  rewrite store_bind_run, (load_at _ _ indptr) by done.
  destruct (getitem indptr node) as [lo|]; [|done].
  rewrite store_bind_run, (load_at _ _ indptr) by done.
  destruct (getitem indptr (add64 node 1)) as [hi|]; [|done].
  unfold Store.slice_view. rewrite store_bind_run, (array_len_at _ _ indices) by done.
  done.
Qed.

(** A loop over the slice of a node, over the store and over values. *)
Lemma neigh_loop_sim {S P} l_indices l_indptr indices indptr neigh
    (bodyM : S → Z → Store.M S) (body : P → Z → option P)
    (acc : P → S) (enc : P → heap) (p : P) :
  (∀ p, enc p !! l_indices = Some indices) →
  (∀ p, enc p !! l_indptr = Some indptr) →
  (∀ p x, bodyM (acc p) x (enc p) = lifted acc enc (body p x)) →
  (Store.get_neigh neigh l_indices l_indptr
   ≫= λ wn, Store.for_view wn bodyM (acc p)) (enc p)
  = lifted acc enc (get_neigh neigh indices indptr ≫= λ nn, for_each body nn p).
Proof.
  intros Hi Hp Hbody. rewrite store_bind_run.
  rewrite (get_neigh_at _ _ _ _ indices indptr) by done. unfold get_neigh.
  destruct (getitem indptr neigh) as [lo|]; [|done].
  destruct (getitem indptr (add64 neigh 1)) as [hi|]; [|done].
  cbn [mbind option_bind]. by apply for_view_sim.
Qed.

Lemma get_neigh_then_list {B} (h : heap) node l_indices l_indptr indices indptr
    (k : list Z → Store.M B) :
  h !! l_indices = Some indices → h !! l_indptr = Some indptr →
  (Store.get_neigh node l_indices l_indptr
   ≫= λ w, Store.view_to_list w ≫= k) h
  = match get_neigh node indices indptr with
    | Some xs => k xs h
    | None => None
    end.
Proof.
  intros Hi Hp.
  rewrite store_bind_run, (get_neigh_at _ _ _ _ indices indptr) by done.
  unfold get_neigh.
  destruct (getitem indptr node) as [lo|]; [|done].
  destruct (getitem indptr (add64 node 1)) as [hi|]; [|done].
  cbn [mbind option_bind].
  by rewrite store_bind_run, (view_to_list_at _ _ indices), view_of_list.
Qed.

Lemma fresh_unused (h : heap) : h !! fresh (dom h) = None.
Proof. apply not_elem_of_dom, is_fresh. Qed.

Section local_store.
Context (h0 : heap) (l_indices l_indptr r : positive) (indices indptr : list Z).
Hypothesis Hi : h0 !! l_indices = Some indices.
Hypothesis Hp : h0 !! l_indptr = Some indptr.
Hypothesis Hr : h0 !! r = None.

Lemma local_store_input (a : list Z) l b :
  h0 !! l = Some b → <[r := a]> h0 !! l = Some b.
Proof. intros Hl. rewrite lookup_insert_ne; [done|]. intros ->. congruence. Qed.

Lemma local_scan_neigh_sim (h : heap) (egonet : gset Z) (num_t neigh : Z) :
  h !! l_indices = Some indices → h !! l_indptr = Some indptr →
  (Store.get_neigh neigh l_indices l_indptr
   ≫= λ wn, Store.for_view wn
              (λ num_t neigh_neigh,
                 Store.ret (Local.scan_slice egonet num_t neigh_neigh))
              num_t) h
  = lifted id (λ _, h) (Local.scan_neigh indices indptr egonet num_t neigh).
Proof.
  intros Hhi Hhp.
  rewrite (neigh_loop_sim l_indices l_indptr indices indptr neigh _
             (λ n x, Some (Local.scan_slice egonet n x)) id (λ _, h) num_t);
    [|done..].
  unfold Local.scan_neigh. destruct (get_neigh neigh indices indptr) as [nn|]; [|done].
  cbn [mbind option_bind]. by rewrite for_each_pure.
Qed.

Lemma local_node_body_sim (a : list Z) (v : Z) :
  Store.local_node_body l_indices l_indptr r tt v (<[r := a]> h0)
  = lifted (λ _, tt) (λ a, <[r := a]> h0) (Local.node_body indices indptr a v).
Proof.
  pose proof (local_store_input a _ _ Hi) as Hi'.
  pose proof (local_store_input a _ _ Hp) as Hp'.
  unfold Store.local_node_body, Local.node_body.
  rewrite store_bind_run, (get_neigh_at _ _ _ _ indices indptr) by done.
  unfold get_neigh.
  destruct (getitem indptr v) as [lo|]; [|done].
  destruct (getitem indptr (add64 v 1)) as [hi|]; [|done].
  cbn [mbind option_bind].
  rewrite store_bind_run, (view_to_list_at _ _ indices), view_of_list by done.
  rewrite store_bind_run.
  match goal with
  | |- context [Store.for_each_st ?b ?xs 0 ?h] =>
      pose proof (for_each_st_sim b
                    (Local.scan_neigh indices indptr
                       (set_update ∅ (slice indices lo hi)))
                    (λ n, n) (λ _, h) xs 0) as Hsim
  end.
  cbn beta in Hsim.
  rewrite Hsim by (intros n w _; by apply local_scan_neigh_sim). clear Hsim.
  destruct (for_each _ _ 0) as [num_t|]; [|done].
  cbn [lifted mbind option_bind].
  rewrite (store_at _ _ a) by apply lookup_insert_eq.
  destruct (setitem a v num_t) as [a'|]; [|done].
  cbn [lifted]. by rewrite insert_insert_eq.
Qed.

End local_store.

Lemma local_store_run (h0 : heap) l_indices l_indptr indices indptr :
  h0 !! l_indices = Some indices → h0 !! l_indptr = Some indptr →
  Store._count_number_local_triangles l_indices l_indptr h0
  = lifted (λ _, fresh (dom h0)) (λ counts, <[fresh (dom h0) := counts]> h0)
      (_count_number_local_triangles indices indptr).
Proof.
  intros Hi Hp.
  unfold Store._count_number_local_triangles, _count_number_local_triangles.
  rewrite store_bind_run, (array_len_at _ _ indptr) by done.
  rewrite store_bind_run. unfold Store.zeros.
  destruct (np_zeros (len indptr - 1)) as [z|]; [|done].
  cbn [mbind option_bind]. rewrite store_bind_run.
  unfold Local.node_loop.
  rewrite (for_each_st_sim _ (Local.node_body indices indptr)
             (λ _, tt) (λ a, <[fresh (dom h0) := a]> h0)).
  - by destruct (for_each _ _ z).
  - intros a v _. by apply local_node_body_sim; [..|apply fresh_unused].
Qed.

Section directed_store.
Context (h0 : heap) (r : Store.motif_locs).
Hypothesis Hr : ∀ k, h0 !! r k = None.
Hypothesis Hinj : ∀ k k', r k = r k' → k = k'.

Lemma with_motifs_lookup m l :
  Store.with_motifs r m h0 !! l
  = if decide (l = r Middle) then Some (num_middle_triangles m)
    else if decide (l = r Cycle) then Some (num_cycle_triangles m)
    else if decide (l = r In) then Some (num_in_triangles m)
    else if decide (l = r Out) then Some (num_out_triangles m)
    else h0 !! l.
Proof.
  unfold Store.with_motifs. rewrite !lookup_insert.
  repeat case_decide; congruence.
Qed.

Lemma with_motifs_input m l b :
  h0 !! l = Some b → Store.with_motifs r m h0 !! l = Some b.
Proof.
  intros Hl. rewrite with_motifs_lookup.
  repeat case_decide; subst; rewrite ?Hr in Hl; congruence.
Qed.

Lemma with_motifs_counter m k :
  Store.with_motifs r m h0 !! r k = Some (counter k m).
Proof.
  rewrite with_motifs_lookup.
  destruct k; simpl; repeat case_decide; try done;
    match goal with H : r _ = r _ |- _ => by apply Hinj in H end.
Qed.

Lemma with_motifs_store m k a :
  <[r k := a]> (Store.with_motifs r m h0)
  = Store.with_motifs r (with_counter k a m) h0.
Proof.
  apply map_eq. intros l. rewrite lookup_insert, !with_motifs_lookup.
  destruct k, m; simpl; repeat case_decide; subst; try done;
    match goal with H : r _ = r _ |- _ => by apply Hinj in H end.
Qed.

Lemma bump_counter_sim m k v :
  Store.bump_counter r k v (Store.with_motifs r m h0)
  = lifted (λ _, tt) (λ m, Store.with_motifs r m h0) (bump_counter k v m).
Proof.
  unfold Store.bump_counter, bump_counter, bump.
  rewrite store_bind_run, (load_at _ _ (counter k m)) by apply with_motifs_counter.
  destruct (getitem (counter k m) v) as [x|]; [|done].
  cbn [mbind option_bind].
  rewrite (store_at _ _ (counter k m)) by apply with_motifs_counter.
  destruct (setitem (counter k m) v (add64 x 1)) as [a|]; [|done].
  cbn [mbind option_bind lifted]. by rewrite with_motifs_store.
Qed.

Lemma directed_scan_slice_sim v oe ie k1 k2 m x :
  Store.scan_slice r v oe ie k1 k2 tt x (Store.with_motifs r m h0)
  = lifted (λ _, tt) (λ m, Store.with_motifs r m h0)
      (Directed.scan_slice v oe ie k1 k2 m x).
Proof.
  unfold Store.scan_slice, Directed.scan_slice.
  destruct (bool_decide (x = v)); [done|].
  rewrite store_bind_run.
  destruct (bool_decide (x ∈ oe)).
  - rewrite bump_counter_sim.
    destruct (bump_counter k1 v m) as [m1|]; [|done].
    cbn [lifted mbind option_bind].
    destruct (bool_decide (x ∈ ie)); [apply bump_counter_sim|done].
  - cbn [mbind option_bind].
    destruct (bool_decide (x ∈ ie)); [apply bump_counter_sim|done].
Qed.

Context (l_oi l_op l_ii l_ip : positive).
Context (out_indices out_indptr in_indices in_indptr : list Z).
Hypothesis Hoi : h0 !! l_oi = Some out_indices.
Hypothesis Hop : h0 !! l_op = Some out_indptr.
Hypothesis Hii : h0 !! l_ii = Some in_indices.
Hypothesis Hip : h0 !! l_ip = Some in_indptr.

Lemma directed_scan_neigh_sim v oe ie k1 k2 m neigh :
  Store.scan_neigh r l_oi l_op v oe ie k1 k2 tt neigh (Store.with_motifs r m h0)
  = lifted (λ _, tt) (λ m, Store.with_motifs r m h0)
      (Directed.scan_neigh out_indices out_indptr v oe ie k1 k2 m neigh).
Proof.
  unfold Store.scan_neigh, Directed.scan_neigh.
  apply (neigh_loop_sim l_oi l_op out_indices out_indptr neigh
           (Store.scan_slice r v oe ie k1 k2) (Directed.scan_slice v oe ie k1 k2)
           (λ _, tt) (λ m, Store.with_motifs r m h0) m).
  - intros m'. by apply with_motifs_input.
  - intros m'. by apply with_motifs_input.
  - intros m' x. apply directed_scan_slice_sim.
Qed.

Lemma directed_node_body_sim m v :
  Store.directed_node_body r l_oi l_op l_ii l_ip tt v (Store.with_motifs r m h0)
  = lifted (λ _, tt) (λ m, Store.with_motifs r m h0)
      (Directed.node_body out_indices out_indptr in_indices in_indptr m v).
Proof.
  unfold Store.directed_node_body, Directed.node_body.
  rewrite (get_neigh_then_list _ _ _ _ out_indices out_indptr)
    by (by apply with_motifs_input).
  destruct (get_neigh v out_indices out_indptr) as [ons|]; [|done].
  rewrite (get_neigh_then_list _ _ _ _ in_indices in_indptr)
    by (by apply with_motifs_input).
  destruct (get_neigh v in_indices in_indptr) as [ins|]; [|done].
  cbn [mbind option_bind].
  rewrite store_bind_run.
  rewrite (for_each_st_sim _
             (Directed.scan_neigh out_indices out_indptr v
                (list_to_set ons) (list_to_set ins) Out Cycle)
             (λ _, tt) (λ m, Store.with_motifs r m h0) _ m)
    by (intros m' w _; apply directed_scan_neigh_sim).
  destruct (for_each _ _ m) as [m1|]; [|done].
  cbn [lifted mbind option_bind].
  apply (for_each_st_sim _ _ (λ _, tt) (λ m, Store.with_motifs r m h0)).
  intros m' w _. apply directed_scan_neigh_sim.
Qed.

End directed_store.

Lemma fresh_locs_spec (h : heap) (z : list Z) :
  (∀ k, h !! fresh_locs h z k = None)
  ∧ (∀ k k', fresh_locs h z k = fresh_locs h z k' → k = k').
Proof.
  unfold fresh_locs.
  set (l1 := fresh (dom h)). set (h1 := <[l1 := z]> h).
  set (l2 := fresh (dom h1)). set (h2 := <[l2 := z]> h1).
  set (l3 := fresh (dom h2)). set (h3 := <[l3 := z]> h2).
  set (l4 := fresh (dom h3)).
  pose proof (is_fresh (dom h)) as H1. fold l1 in H1.
  pose proof (is_fresh (dom h1)) as H2. fold l2 in H2.
  pose proof (is_fresh (dom h2)) as H3. fold l3 in H3.
  pose proof (is_fresh (dom h3)) as H4. fold l4 in H4.
  unfold h3 in H4. unfold h2 in H3, H4. unfold h1 in H2, H3, H4.
  rewrite !dom_insert_L in *.
  split.
  - intros k. apply not_elem_of_dom. destruct k; simpl; set_solver.
  - intros k k'. destruct k, k'; simpl; intros Heq; try done; exfalso;
      rewrite ?Heq in *; set_solver.
Qed.

Lemma directed_store_run (h0 : heap) l_oi l_op l_ii l_ip
    out_indices out_indptr in_indices in_indptr :
  h0 !! l_oi = Some out_indices → h0 !! l_op = Some out_indptr →
  h0 !! l_ii = Some in_indices → h0 !! l_ip = Some in_indptr →
  let r := fresh_locs h0 (replicate (Z.to_nat (len out_indptr - 1)) 0) in
  Store._count_number_triangles_directed l_oi l_op l_ii l_ip h0
  = lifted (λ _, r) (λ m, Store.with_motifs r m h0)
      (_count_number_triangles_directed out_indices out_indptr
         in_indices in_indptr).
Proof.
  intros Hoi Hop Hii Hip r.
  destruct (fresh_locs_spec h0 (replicate (Z.to_nat (len out_indptr - 1)) 0))
    as [Hr Hinj].
  unfold Store._count_number_triangles_directed, _count_number_triangles_directed.
  rewrite store_bind_run, (array_len_at _ _ out_indptr) by done.
  unfold Store.zeros, np_zeros.
  case_bool_decide as HN; [|done].
  cbn [mbind option_bind]. unfold Directed.node_loop.
  set (z := replicate (Z.to_nat (len out_indptr - 1)) 0) in *.
  transitivity
    (match Store.for_each_st (Store.directed_node_body r l_oi l_op l_ii l_ip)
             (seqZ 0 (len out_indptr - 1)) tt
             (Store.with_motifs r (Motifs z z z z) h0)
     with
     | Some (_, h') => Some (r, h')
     | None => None
     end); [reflexivity|].
  rewrite (for_each_st_sim _
             (Directed.node_body out_indices out_indptr in_indices in_indptr)
             (λ _, tt) (λ m, Store.with_motifs r m h0) _ (Motifs z z z z)).
  - by destruct (for_each _ _ _).
  - intros m v _. by apply directed_node_body_sim.
Qed.

(** C8: called on arrays of a store, each counter leaves every array that
    was in the store as it was (its inputs among them, whether or not they
    share storage), puts its results into locations that were unused before
    the call (four different ones for the directed counter), and fills them
    with the value computed from the contents of its inputs alone; a run that
    faults returns nothing. *)
Theorem counters_borrow_inputs_and_allocate_results (h : heap)
    l_indices l_indptr l_in_indices l_in_indptr
    indices indptr in_indices in_indptr :
  h !! l_indices = Some indices → h !! l_indptr = Some indptr →
  h !! l_in_indices = Some in_indices → h !! l_in_indptr = Some in_indptr →
  match _count_number_local_triangles indices indptr with
  | Some counts =>
      ∃ r h',
        Store._count_number_local_triangles l_indices l_indptr h = Some (r, h')
        ∧ h !! r = None ∧ h' !! r = Some counts ∧ preserves h h'
  | None => Store._count_number_local_triangles l_indices l_indptr h = None
  end
  ∧ match _count_number_triangles_directed indices indptr in_indices in_indptr with
    | Some m =>
        ∃ r h',
          Store._count_number_triangles_directed
            l_indices l_indptr l_in_indices l_in_indptr h = Some (r, h')
          ∧ (∀ k, h !! r k = None) ∧ (∀ k k', r k = r k' → k = k')
          ∧ (∀ k, h' !! r k = Some (counter k m)) ∧ preserves h h'
    | None =>
        Store._count_number_triangles_directed
          l_indices l_indptr l_in_indices l_in_indptr h = None
    end.
Proof.
  intros Hi Hp Hii Hip. split.
  - rewrite (local_store_run h _ _ indices indptr) by done.
    destruct (_count_number_local_triangles indices indptr) as [counts|]; [|done].
    eexists _, _. split; [done|]. split_and!.
    + apply fresh_unused.
    + apply lookup_insert_eq.
    + intros l a Hl. rewrite lookup_insert_ne; [done|].
      intros <-. by rewrite fresh_unused in Hl.
  - rewrite (directed_store_run h _ _ _ _ indices indptr in_indices in_indptr)
      by done.
    destruct (fresh_locs_spec h (replicate (Z.to_nat (len indptr - 1)) 0))
      as [Hr Hinj].
    destruct (_count_number_triangles_directed _ _ _ _) as [m|]; [|done].
    eexists _, _. split; [done|]. split_and!; [done..| |].
    + intros k. by apply with_motifs_counter.
    + intros l a Hl. by apply with_motifs_input.
Qed.

Lemma counters_borrow_inputs_and_allocate_results_witness :
  match _count_number_local_triangles cycle_forward cycle_indptr with
  | Some counts =>
      ∃ r h',
        Store._count_number_local_triangles 1 2 Store.cycle_store = Some (r, h')
        ∧ Store.cycle_store !! r = None ∧ h' !! r = Some counts
        ∧ preserves Store.cycle_store h'
  | None => Store._count_number_local_triangles 1 2 Store.cycle_store = None
  end
  ∧ match _count_number_triangles_directed cycle_forward cycle_indptr
            cycle_backward cycle_indptr with
    | Some m =>
        ∃ r h',
          Store._count_number_triangles_directed 1 2 3 2 Store.cycle_store
          = Some (r, h')
          ∧ (∀ k, Store.cycle_store !! r k = None) ∧ (∀ k k', r k = r k' → k = k')
          ∧ (∀ k, h' !! r k = Some (counter k m))
          ∧ preserves Store.cycle_store h'
    | None =>
        Store._count_number_triangles_directed 1 2 3 2 Store.cycle_store = None
    end.
Proof.
  apply (counters_borrow_inputs_and_allocate_results Store.cycle_store
           1 2 3 2 cycle_forward cycle_indptr cycle_backward cycle_indptr);
    reflexivity.
Defined.

(** * Further properties of the accessors and the counters *)

(** ** The rows of a CSR structure tile its arrays *)

Section tiling.
Context (N : Z) (indices indptr : list Z) (first : Z).
Hypothesis Hv : valid_csr N indices indptr.
Hypothesis Hfirst : indptr !! 0%nat = Some first.

Let Hwf : well_formed_csr N indices indptr := valid_wf _ _ _ Hv.
Let Ha : addressable N indices indptr := wf_addressable _ _ _ Hwf.

Lemma valid_row_segment (w : Z) :
  0 ≤ w < N →
  ∃ lo hi, indptr !! Z.to_nat w = Some lo
           ∧ indptr !! Z.to_nat (w + 1) = Some hi
           ∧ first ≤ lo ≤ hi ∧ hi ≤ len indices
           ∧ row indices indptr w
             = take (Z.to_nat (hi - lo)) (drop (Z.to_nat lo) indices).
Proof.
  intros Hw.
  destruct (valid_row_bounds _ _ _ Hv w Hw) as (lo & hi & Hlo & Hhi & Hb & Hle & _).
  exists lo, hi. split_and!; [done..| |lia|done|].
  - eapply (wf_ptr_le _ _ _ Hwf 0 w); [lia|done..].
  - destruct (addr_get_neigh _ _ _ Ha w Hw) as (lo' & hi' & Hlo' & Hhi' & Hg).
    unfold row. rewrite Hg. simpl.
    assert (lo' = lo) as -> by congruence. assert (hi' = hi) as -> by congruence.
    by apply slice_inside.
Qed.

Lemma rows_prefix (k : nat) :
  Z.of_nat k ≤ N →
  ∃ hi, indptr !! k = Some hi ∧ first ≤ hi ≤ len indices
        ∧ concat (row indices indptr <$> seqZ 0 (Z.of_nat k))
          = take (Z.to_nat (hi - first)) (drop (Z.to_nat first) indices).
Proof.
  induction k as [|k IH]; intros Hk.
  - exists first. split_and!; [done|lia| |by rewrite Z.sub_diag].
    eapply (wf_ptr_le _ _ _ Hwf 0 N);
      [pose proof (valid_nodes_nonneg _ _ _ Hv); lia|done|apply (wf_ptr_last _ _ _ Hwf)].
  - destruct IH as (mid & Hmid & Hb & Hcat); [lia|].
    destruct (valid_row_segment (Z.of_nat k)) as (lo & hi & Hlo & Hhi & Hb' & Hle & Hrow);
      [lia|].
    rewrite Nat2Z.id in Hlo. replace (Z.to_nat (Z.of_nat k + 1)) with (S k) in Hhi by lia.
    assert (lo = mid) as -> by congruence.
    exists hi. split_and!; [done|lia..|].
    rewrite seqZ_S, fmap_app, concat_app, Hcat, Z.add_0_l. simpl.
    rewrite app_nil_r, Hrow.
    pose proof (valid_ptr_nonneg _ _ _ Hv _ _ Hfirst) as H0.
    replace (Z.to_nat mid) with (Z.to_nat first + Z.to_nat (mid - first))%nat by lia.
    rewrite <- drop_drop, take_take_drop. f_equal. lia.
Qed.

End tiling.

(** X1: in a valid CSR structure the accessor succeeds at every node, and
    the slices of the nodes 0, 1, ..., N-1 put one after the other are the
    array [indices] from the first row boundary on: every stored entry
    belongs to exactly one node, and none is skipped. *)
Theorem rows_tile_indices N indices indptr first :
  valid_csr N indices indptr →
  indptr !! 0%nat = Some first →
  (∀ v, 0 ≤ v < N → get_neigh v indices indptr = Some (row indices indptr v))
  ∧ concat (row indices indptr <$> seqZ 0 N) = drop (Z.to_nat first) indices.
Proof.
  intros Hv Hfirst. pose proof (valid_wf _ _ _ Hv) as Hwf. split.
  - intros v Hr. by apply (addr_get_neigh_row N); [apply wf_addressable|].
  - pose proof (valid_nodes_nonneg _ _ _ Hv) as HN.
    destruct (rows_prefix N indices indptr first Hv Hfirst (Z.to_nat N))
      as (hi & Hhi & Hb & Hcat); [lia|].
    rewrite Z2Nat.id in Hcat by done. rewrite Hcat.
    rewrite (wf_ptr_last _ _ _ Hwf) in Hhi. injection Hhi as <-.
    apply take_ge. rewrite length_drop. unfold len. lia.
Qed.

Lemma rows_tile_indices_witness :
  (∀ v, 0 ≤ v < 3 →
        get_neigh v fan_out_indices fan_out_indptr
        = Some (row fan_out_indices fan_out_indptr v))
  ∧ concat (row fan_out_indices fan_out_indptr <$> seqZ 0 3)
    = drop (Z.to_nat 0) fan_out_indices.
Proof.
  apply (rows_tile_indices 3 fan_out_indices fan_out_indptr 0);
    [exact fan_out_valid|reflexivity].
Defined.

(** ** Payloads line up with neighbours *)

Lemma slice_lookup (a : list Z) lo hi (k : nat) :
  0 ≤ lo ≤ hi → hi ≤ len a → (k < Z.to_nat (hi - lo))%nat →
  slice a lo hi !! k = a !! (Z.to_nat lo + k)%nat.
Proof.
  intros Hlo Hhi Hk. destruct (slice_inside a lo hi Hlo Hhi) as [-> _].
  by rewrite lookup_take_lt, lookup_drop by done.
Qed.

(** X2: in a valid CSR structure with one payload per stored entry,
    [get_data] and [get_neigh] of a node return slices of the same length
    that sit at the same positions of their arrays: the k-th payload of the
    node belongs to its k-th neighbour. *)
Theorem get_data_lines_up_with_get_neigh N indices indptr data node :
  valid_csr N indices indptr → len data = len indices → 0 ≤ node < N →
  ∃ lo ns ds,
    indptr !! Z.to_nat node = Some lo
    ∧ get_neigh node indices indptr = Some ns
    ∧ get_data node data indptr = Some ds
    ∧ length ds = length ns
    ∧ ∀ k, (k < length ns)%nat →
        ns !! k = indices !! (Z.to_nat lo + k)%nat
        ∧ ds !! k = data !! (Z.to_nat lo + k)%nat.
Proof.
  intros Hv Hdata Hnode. pose proof (valid_wf _ _ _ Hv) as Hwf.
  destruct (valid_row_bounds _ _ _ Hv node Hnode)
    as (lo & hi & Hlo & Hhi & Hb & Hle & _).
  exists lo, (slice indices lo hi), (slice data lo hi).
  assert (get_neigh node indices indptr = Some (slice indices lo hi)) as Hn.
  { unfold get_neigh. rewrite (addr_succ N indices indptr) by (by apply wf_addressable || done).
    rewrite !getitem_nonneg by lia. by rewrite Hlo, Hhi. }
  assert (get_data node data indptr = Some (slice data lo hi)) as Hd.
  { unfold get_data. rewrite (addr_succ N indices indptr) by (by apply wf_addressable || done).
    rewrite !getitem_nonneg by lia. by rewrite Hlo, Hhi. }
  destruct (slice_inside indices lo hi Hb Hle) as [_ Hln].
  destruct (slice_inside data lo hi Hb ltac:(lia)) as [_ Hld].
  split_and!; [done..|congruence|].
  intros k Hk. rewrite Hln in Hk. split; apply slice_lookup; (done || lia).
Qed.

Lemma get_data_lines_up_with_get_neigh_witness :
  ∃ lo ns ds,
    fan_out_indptr !! Z.to_nat 0 = Some lo
    ∧ get_neigh 0 fan_out_indices fan_out_indptr = Some ns
    ∧ get_data 0 fan_out_data fan_out_indptr = Some ds
    ∧ length ds = length ns
    ∧ ∀ k, (k < length ns)%nat →
        ns !! k = fan_out_indices !! (Z.to_nat lo + k)%nat
        ∧ ds !! k = fan_out_data !! (Z.to_nat lo + k)%nat.
Proof.
  apply (get_data_lines_up_with_get_neigh 3);
    [exact fan_out_valid|reflexivity|lia].
Defined.

(** ** Negative node ids *)

Lemma getitem_negative a i :
  i < 0 → 0 ≤ i + len a → getitem a i = a !! Z.to_nat (i + len a).
Proof.
  intros Hi Hl. unfold getitem, wrap_index.
  rewrite (bool_decide_eq_true_2 (i < 0)) by done.
  by rewrite bool_decide_eq_true_2.
Qed.

Lemma slice_backwards (a : list Z) lo hi :
  len a ≤ lo → slice a lo hi = [].
Proof.
  intros Hlo. unfold slice.
  pose proof (clip_index_bounds (len a) hi ltac:(unfold len; lia)) as Hhi.
  assert (clip_index (len a) lo = len a) as ->.
  { unfold clip_index, len in *. rewrite bool_decide_eq_false_2 by lia. lia. }
  replace (Z.to_nat (clip_index (len a) hi - len a)) with 0%nat by lia. done.
Qed.

(** X3: a negative node id is not read as "counted from the last node".
    In a well-formed CSR structure over [N] nodes the id [-j], for [j] from
    2 to [N + 1], addresses the row of node [N + 1 - j] (so [-2] is the last
    node), and the id [-1] gives an empty slice. *)
Theorem get_neigh_negative_node N indices indptr :
  well_formed_csr N indices indptr →
  (∀ j, 2 ≤ j ≤ N + 1 →
        get_neigh (- j) indices indptr = get_neigh (N + 1 - j) indices indptr)
  ∧ get_neigh (-1) indices indptr = Some [].
Proof.
  intros Hwf. pose proof (wf_rows _ _ _ Hwf) as Hrows.
  destruct (wf_fits _ _ _ Hwf) as [Hfits _]. unfold fits_int64 in Hfits.
  pose proof (wf_nodes_nonneg _ _ _ Hwf) as HN.
  split.
  - intros j Hj. unfold get_neigh.
    assert (add64 (- j) 1 = 1 - j) as ->.
    { unfold add64. rewrite wrap64_id by (int64_consts; lia). lia. }
    rewrite add64_succ by lia.
    rewrite !getitem_negative by lia. rewrite !getitem_nonneg by lia.
    rewrite Hrows.
    replace (Z.to_nat (- j + (N + 1))) with (Z.to_nat (N + 1 - j)) by lia.
    replace (Z.to_nat (1 - j + (N + 1))) with (Z.to_nat (N + 1 - j + 1)) by lia.
    done.
  - unfold get_neigh. rewrite (getitem_negative indptr (-1)) by lia.
    rewrite Hrows. replace (-1 + (N + 1)) with N by lia.
    rewrite (wf_ptr_last _ _ _ Hwf). cbn [mbind option_bind].
    change (add64 (-1) 1) with 0. rewrite getitem_nonneg by lia.
    destruct (addr_ptr _ _ _ (wf_addressable _ _ _ Hwf) 0) as [p0 Hp0]; [lia|].
    rewrite Hp0. cbn [mbind option_bind]. f_equal. by apply slice_backwards.
Qed.

Lemma get_neigh_negative_node_witness :
  (∀ j, 2 ≤ j ≤ 3 + 1 →
        get_neigh (- j) fan_out_indices fan_out_indptr
        = get_neigh (3 + 1 - j) fan_out_indices fan_out_indptr)
  ∧ get_neigh (-1) fan_out_indices fan_out_indptr = Some [].
Proof.
  apply (get_neigh_negative_node 3), valid_wf, fan_out_valid.
Defined.

(** ** Nodes without neighbours *)

Lemma hits_none (Q : Z → Prop) `{!∀ x, Decision (Q x)} xs :
  (∀ x, ¬ Q x) → hits Q xs = 0%nat.
Proof.
  intros HQ. induction xs as [|x xs IH]; [done|].
  rewrite hits_cons, IH. by rewrite decide_False.
Qed.

Lemma sum_list_with_zero {A} (f : A → nat) (l : list A) :
  (∀ x, f x = 0%nat) → sum_list_with f l = 0%nat.
Proof.
  intros Hf. induction l as [|x l IH]; [done|].
  by rewrite sum_list_with_cons, Hf, IH.
Qed.

Lemma egonet_empty indices indptr v :
  row indices indptr v = [] → egonet indices indptr v = ∅.
Proof. unfold egonet. by intros ->. Qed.

Lemma local_pairs_isolated indices indptr v :
  row indices indptr v = [] → local_pairs indices indptr v = 0.
Proof.
  intros Hrow. rewrite local_pairs_sum, (egonet_empty _ _ _ Hrow).
  by rewrite elements_empty.
Qed.

Lemma motif_pairs_no_out k out_indices out_indptr in_indices in_indptr v :
  row out_indices out_indptr v = [] → k ≠ In →
  motif_pairs k out_indices out_indptr in_indices in_indptr v = 0.
Proof.
  intros Hrow Hk. rewrite motif_pairs_hits. unfold motif_hits.
  rewrite (egonet_empty _ _ _ Hrow).
  destruct k; try done; rewrite ?elements_empty; try done.
  change 0 with (Z.of_nat 0). f_equal. apply sum_list_with_zero.
  intros w. apply hits_none. intros x [_ Hx]. by apply not_elem_of_empty in Hx.
Qed.

Lemma motif_pairs_no_in k out_indices out_indptr in_indices in_indptr v :
  row in_indices in_indptr v = [] → k ≠ Out →
  motif_pairs k out_indices out_indptr in_indices in_indptr v = 0.
Proof.
  intros Hrow Hk. rewrite motif_pairs_hits. unfold motif_hits.
  rewrite (egonet_empty _ _ _ Hrow).
  destruct k; try done; rewrite ?elements_empty; try done.
  change 0 with (Z.of_nat 0). f_equal. apply sum_list_with_zero.
  intros w. apply hits_none. intros x [_ Hx]. by apply not_elem_of_empty in Hx.
Qed.

(** X4: a node with an empty out-row gets 0 from the undirected counter
    (called on that structure) and 0 in the out, cycle and middleman arrays
    of the directed counter; a node with an empty in-row gets 0 in the in,
    cycle and middleman arrays.  Only the out array can be non-zero without
    in-neighbours, and only the in array without out-neighbours. *)
Theorem nodes_without_neighbours_count_zero N
    out_indices out_indptr in_indices in_indptr v :
  well_formed_csr N out_indices out_indptr →
  well_formed_csr N in_indices in_indptr →
  0 ≤ v < N →
  ∃ counts m,
    _count_number_local_triangles out_indices out_indptr = Some counts
    ∧ _count_number_triangles_directed out_indices out_indptr in_indices in_indptr
      = Some m
    ∧ (row out_indices out_indptr v = [] →
       getitem counts v = Some 0
       ∧ getitem (num_out_triangles m) v = Some 0
       ∧ getitem (num_cycle_triangles m) v = Some 0
       ∧ getitem (num_middle_triangles m) v = Some 0)
    ∧ (row in_indices in_indptr v = [] →
       getitem (num_in_triangles m) v = Some 0
       ∧ getitem (num_cycle_triangles m) v = Some 0
       ∧ getitem (num_middle_triangles m) v = Some 0).
Proof.
  intros Hout Hin Hv.
  pose proof (wf_nodes_nonneg _ _ _ Hout) as HN.
  pose proof (wf_addressable _ _ _ Hout) as Hao.
  pose proof (wf_addressable _ _ _ Hin) as Hai.
  do 2 eexists. split_and!.
  - apply (local_closed_form N); (done || apply Hout).
  - apply (directed_closed_form N); (done || apply Hout).
  - intros Hrow. split_and!.
    + rewrite getitem_nonneg, list_lookup_fmap, lookup_seqZ_lt by lia. simpl.
      by rewrite Z.add_0_l, Z2Nat.id, local_pairs_isolated by (done || lia).
    + rewrite (motif_table_lookup _ N Out) by done.
      by rewrite motif_pairs_no_out.
    + rewrite (motif_table_lookup _ N Cycle) by done.
      by rewrite motif_pairs_no_out.
    + rewrite (motif_table_lookup _ N Middle) by done.
      by rewrite motif_pairs_no_out.
  - intros Hrow. split_and!.
    + rewrite (motif_table_lookup _ N In) by done.
      by rewrite motif_pairs_no_in.
    + rewrite (motif_table_lookup _ N Cycle) by done.
      by rewrite motif_pairs_no_in.
    + rewrite (motif_table_lookup _ N Middle) by done.
      by rewrite motif_pairs_no_in.
Qed.

Lemma nodes_without_neighbours_count_zero_witness :
  ∃ counts m,
    _count_number_local_triangles fan_out_indices fan_out_indptr = Some counts
    ∧ _count_number_triangles_directed fan_out_indices fan_out_indptr
        fan_in_indices fan_in_indptr = Some m
    ∧ (row fan_out_indices fan_out_indptr 2 = [] →
       getitem counts 2 = Some 0
       ∧ getitem (num_out_triangles m) 2 = Some 0
       ∧ getitem (num_cycle_triangles m) 2 = Some 0
       ∧ getitem (num_middle_triangles m) 2 = Some 0)
    ∧ (row fan_in_indices fan_in_indptr 2 = [] →
       getitem (num_in_triangles m) 2 = Some 0
       ∧ getitem (num_cycle_triangles m) 2 = Some 0
       ∧ getitem (num_middle_triangles m) 2 = Some 0).
Proof.
  apply (nodes_without_neighbours_count_zero 3);
    [apply valid_wf, fan_out_valid|apply valid_wf, fan_in_valid|lia].
Defined.

(** ** Range of the counts *)

Lemma local_pairs_bound N indices indptr v :
  valid_csr N indices indptr → 0 ≤ local_pairs indices indptr v ≤ len indices.
Proof.
  intros Hv. pose proof (valid_wf _ _ _ Hv) as Hwf.
  rewrite local_pairs_sum. split; [lia|]. unfold len.
  apply inj_le, (valid_sum_bound _ _ _ Hv).
  { intros w. apply length_filter. }
  { apply NoDup_elements. }
  apply Forall_forall. intros w Hw.
  apply (wf_egonet_range _ _ _ v w Hwf). by apply elem_of_elements.
Qed.

Lemma motif_pairs_bound N k out_indices out_indptr in_indices in_indptr v :
  valid_csr N out_indices out_indptr →
  addressable N in_indices in_indptr →
  0 ≤ v < N →
  0 ≤ motif_pairs k out_indices out_indptr in_indices in_indptr v
  ≤ len out_indices.
Proof.
  intros Hv Hin Hr. pose proof (valid_wf _ _ _ Hv) as Hout.
  rewrite motif_pairs_hits. split; [lia|]. unfold len. apply inj_le.
  unfold motif_hits. apply (valid_sum_bound _ _ _ Hv).
  { intros w. apply length_filter. }
  { apply NoDup_elements. }
  apply Forall_forall. intros w Hw. apply elem_of_elements in Hw.
  destruct k;
    (by apply (wf_egonet_range _ _ _ v w Hout))
    || (by apply (addr_egonet_range _ _ _ Hin v)).
Qed.

(** X5: on a valid out-structure (and a well-formed in-structure) every
    entry of every result array lies between 0 and the number of stored
    out-entries, so no 64-bit counter ever wraps around. *)
Theorem counts_between_zero_and_number_of_entries N
    out_indices out_indptr in_indices in_indptr :
  valid_csr N out_indices out_indptr →
  well_formed_csr N in_indices in_indptr →
  ∃ counts m,
    _count_number_local_triangles out_indices out_indptr = Some counts
    ∧ _count_number_triangles_directed out_indices out_indptr in_indices in_indptr
      = Some m
    ∧ Forall (λ c, 0 ≤ c ≤ len out_indices) counts
    ∧ ∀ k, Forall (λ c, 0 ≤ c ≤ len out_indices) (counter k m).
Proof.
  intros Hv Hin. pose proof (valid_wf _ _ _ Hv) as Hout.
  pose proof (wf_nodes_nonneg _ _ _ Hout) as HN.
  pose proof (wf_addressable _ _ _ Hout) as Hao.
  pose proof (wf_addressable _ _ _ Hin) as Hai.
  do 2 eexists. split_and!.
  - apply (local_closed_form N); (done || apply Hout).
  - apply (directed_closed_form N); (done || apply Hout).
  - apply Forall_fmap, Forall_forall. intros v _. simpl.
    rewrite wrap64_id by (by eapply local_pairs_fit).
    by eapply local_pairs_bound.
  - intros k.
    assert (Forall (λ c, 0 ≤ c ≤ len out_indices)
              ((λ v, wrap64 (motif_pairs k out_indices out_indptr
                               in_indices in_indptr v)) <$> seqZ 0 N)) as H.
    { apply Forall_fmap, Forall_forall. intros v Hr%elem_of_seqZ. simpl.
      rewrite wrap64_id by (eapply motif_pairs_fit; (done || lia)).
      eapply motif_pairs_bound; (done || lia). }
    by destruct k.
Qed.

Lemma counts_between_zero_and_number_of_entries_witness :
  ∃ counts m,
    _count_number_local_triangles fan_out_indices fan_out_indptr = Some counts
    ∧ _count_number_triangles_directed fan_out_indices fan_out_indptr
        fan_in_indices fan_in_indptr = Some m
    ∧ Forall (λ c, 0 ≤ c ≤ len fan_out_indices) counts
    ∧ ∀ k, Forall (λ c, 0 ≤ c ≤ len fan_out_indices) (counter k m).
Proof.
  apply (counts_between_zero_and_number_of_entries 3);
    [exact fan_out_valid|apply valid_wf, fan_in_valid].
Defined.

(** ** The two counters on one structure *)

Lemma motif_pairs_same_structure k indices indptr v :
  v ∉ row indices indptr v →
  motif_pairs k indices indptr indices indptr v = local_pairs indices indptr v.
Proof.
  intros Hv. rewrite motif_pairs_hits, local_pairs_sum. f_equal.
  unfold motif_hits.
  assert (∀ w, hits (λ x, x ≠ v ∧ x ∈ egonet indices indptr v) (row indices indptr w)
               = hits (.∈ egonet indices indptr v) (row indices indptr w)) as Hh.
  { intros w. apply hits_ext. intros x. split; [by intros [_ ?]|].
    intros Hx. split; [|done]. intros ->.
    unfold egonet in Hx. by rewrite elem_of_list_to_set in Hx. }
  destruct k; by apply sum_list_with_ext.
Qed.

(** X6: on a well-formed structure without self-loops, passing the same
    structure as out- and as in-adjacency makes all four arrays of the
    directed counter equal to the array of the undirected counter. *)
Theorem directed_on_one_structure_is_local N indices indptr :
  well_formed_csr N indices indptr →
  loop_free N indices indptr →
  ∃ counts,
    _count_number_local_triangles indices indptr = Some counts
    ∧ _count_number_triangles_directed indices indptr indices indptr
      = Some (Motifs counts counts counts counts).
Proof.
  intros Hwf Hfree.
  pose proof (wf_nodes_nonneg _ _ _ Hwf) as HN.
  pose proof (wf_addressable _ _ _ Hwf) as Ha.
  eexists. split; [apply (local_closed_form N); (done || apply Hwf)|].
  rewrite (directed_closed_form N); [|done|apply Hwf|done..].
  f_equal. unfold motif_table.
  unfold loop_free in Hfree. rewrite Forall_forall in Hfree.
  f_equal; apply list_fmap_ext; intros _ v Hr%list_elem_of_lookup_2;
    f_equal; by apply motif_pairs_same_structure, Hfree.
Qed.

Lemma directed_on_one_structure_is_local_witness :
  ∃ counts,
    _count_number_local_triangles tri_indices tri_indptr = Some counts
    ∧ _count_number_triangles_directed tri_indices tri_indptr tri_indices tri_indptr
      = Some (Motifs counts counts counts counts).
Proof.
  apply (directed_on_one_structure_is_local 3);
    [apply valid_wf, tri_valid|unfold loop_free; by_evaluation].
Defined.

(** ** The undirected counter counts every triangle twice *)

Lemma count_where_wedges_by_source (P : Z * Z → Prop) `{!∀ p, Decision (P p)}
    (Q : Z → Z → Prop) `{!∀ w x, Decision (Q w x)} indices indptr (E : gset Z) :
  (∀ w x, P (w, x) ↔ Q w x) →
  count_where P (wedges indices indptr E)
  = Z.of_nat (sum_list_with (λ w, hits (Q w) (row indices indptr w)) (elements E)).
Proof.
  intros HPQ. unfold count_where, wedges. f_equal.
  induction (elements E) as [|w ws IH]; [done|].
  rewrite bind_cons, filter_app, length_app, IH, sum_list_with_cons.
  by rewrite (filter_pair_snd P (Q w)).
Qed.

Lemma sum_indicator_where (P : Z → Prop) `{!∀ x, Decision (P x)} (x : Z) (l : list Z) :
  NoDup l →
  sum_list_with
    (λ t, if decide (P t) then (if decide (x = t) then 1 else 0) else 0)%nat l
  = (if decide (P x ∧ x ∈ l) then 1 else 0)%nat.
Proof.
  induction 1 as [|t l Hnin Hnd IH].
  - rewrite decide_False; [done|]. intros [_ Hx]. by apply not_elem_of_nil in Hx.
  - rewrite sum_list_with_cons, IH. destruct (decide (x = t)) as [->|Hne].
    + destruct (decide (P t)) as [Hp|Hp].
      * rewrite (decide_False (P := P t ∧ t ∈ l)) by (by intros [_ ?]).
        rewrite decide_True; [done|]. split; [done|left].
      * rewrite (decide_False (P := P t ∧ t ∈ l)) by (by intros [? _]).
        rewrite decide_False; [done|]. by intros [? _].
    + replace (if decide (P t) then 0%nat else 0%nat) with 0%nat
        by (by destruct (decide (P t))).
      destruct (decide (P x ∧ x ∈ l)) as [[Hp Hin]|Hn].
      * rewrite decide_True; [done|]. split; [done|by right].
      * rewrite decide_False; [done|]. intros [Hp Hin]. apply Hn. split; [done|].
        apply elem_of_cons in Hin as [?|?]; done.
Qed.

Lemma hits_by_target_where (P : Z → Prop) `{!∀ x, Decision (P x)}
    (T : gset Z) (xs : list Z) :
  hits (λ x, P x ∧ x ∈ T) xs
  = sum_list_with (λ t, if decide (P t) then hits (λ x, x = t) xs else 0%nat)
      (elements T).
Proof.
  induction xs as [|x xs IH].
  - symmetry. apply sum_list_with_zero. intros t. by destruct (decide (P t)).
  - rewrite hits_cons, IH.
    erewrite (sum_list_with_ext
                (λ t, if decide (P t) then hits (λ x0, x0 = t) (x :: xs) else 0%nat)).
    2:{ intros t _. rewrite hits_cons.
        instantiate (1 := λ t, ((if decide (P t) then hits (λ x0, x0 = t) xs else 0)
                               + (if decide (P t)
                                  then (if decide (x = t) then 1 else 0) else 0))%nat).
        simpl. by destruct (decide (P t)). }
    rewrite sum_list_with_add, sum_indicator_where by apply NoDup_elements.
    f_equal. destruct (decide (P x ∧ x ∈ T)) as [[Hp Hin]|Hn].
    + rewrite decide_True; [done|]. split; [done|by apply elem_of_elements].
    + rewrite decide_False; [done|]. intros [Hp Hin]. apply Hn. split; [done|].
      by apply elem_of_elements.
Qed.

Lemma sum_list_with_ext2 {A B} (f g : A → B → nat) (la : list A) (lb : list B) :
  (∀ a b, a ∈ la → b ∈ lb → f a b = g a b) →
  sum_list_with (λ a, sum_list_with (f a) lb) la
  = sum_list_with (λ a, sum_list_with (g a) lb) la.
Proof.
  intros Hfg. apply sum_list_with_ext. intros a Ha.
  apply sum_list_with_ext. intros b Hb. by apply Hfg.
Qed.

(** A symmetric table with an empty diagonal sums to twice its upper half. *)
Lemma double_sum_twice (F : Z → Z → nat) (l : list Z) :
  (∀ a b, a ∈ l → b ∈ l → F a b = F b a) →
  (∀ a, a ∈ l → F a a = 0%nat) →
  sum_list_with (λ a, sum_list_with (F a) l) l
  = (2 * sum_list_with
           (λ a, sum_list_with (λ b, if decide (a < b)%Z then F a b else 0%nat) l) l)%nat.
Proof.
  intros Hsym Hdiag.
  rewrite (sum_list_with_ext2 F
             (λ a b, (if decide (a < b)%Z then F a b else 0)
                     + (if decide (b < a)%Z then F b a else 0))%nat).
  2:{ intros a b Ha Hb.
      destruct (decide (a < b)%Z), (decide (b < a)%Z); try lia.
      - by rewrite Hsym.
      - assert (a = b) as -> by lia. by rewrite Hdiag. }
  rewrite (sum_list_with_ext _
             (λ a, sum_list_with (λ b, if decide (a < b)%Z then F a b else 0) l
                   + sum_list_with (λ b, if decide (b < a)%Z then F b a else 0) l)%nat).
  2:{ intros a _. apply sum_list_with_add. }
  rewrite sum_list_with_add.
  rewrite (sum_list_with_swap (λ a b, if decide (b < a)%Z then F b a else 0%nat)).
  lia.
Qed.

Lemma triangles_at_sum indices indptr v :
  triangles_at indices indptr v
  = Z.of_nat
      (sum_list_with
         (λ w, hits (λ x, w < x ∧ x ∈ egonet indices indptr v)
                 (row indices indptr w))
         (elements (egonet indices indptr v))).
Proof.
  unfold triangles_at.
  by apply (count_where_wedges_by_source _
              (λ w x, w < x ∧ x ∈ egonet indices indptr v)).
Qed.

Lemma local_pairs_twice_triangles N indices indptr v :
  well_formed_csr N indices indptr →
  symmetric N indices indptr → loop_free N indices indptr →
  0 ≤ v < N →
  local_pairs indices indptr v = 2 * triangles_at indices indptr v.
Proof.
  intros Hwf Hsym Hfree Hv.
  unfold loop_free in Hfree. rewrite Forall_forall in Hfree.
  assert (∀ u, 0 ≤ u < N → u ∉ row indices indptr u) as Hloop.
  { intros u Hu. apply Hfree, elem_of_seqZ. lia. }
  assert (v ∉ egonet indices indptr v) as HvE.
  { unfold egonet. rewrite elem_of_list_to_set. by apply Hloop. }
  rewrite local_pairs_sum, triangles_at_sum.
  set (E := egonet indices indptr v) in *.
  set (F := λ w t : Z, hits (λ x, x = t) (row indices indptr w)).
  rewrite (sum_list_with_ext _ (λ w, sum_list_with (F w) (elements E))).
  2:{ intros w _. unfold F. rewrite <- (hits_by_target v) by done.
      apply hits_ext. intros x. split; [|by intros [_ ?]].
      intros Hx. split; [|done]. by intros ->. }
  rewrite (sum_list_with_ext
             (λ w, hits (λ x, w < x ∧ x ∈ E) (row indices indptr w))
             (λ w, sum_list_with
                     (λ t, if decide (w < t) then F w t else 0%nat) (elements E))).
  2:{ intros w _. apply (hits_by_target_where (λ t, w < t)). }
  rewrite double_sum_twice; [lia|..].
  - intros a b Ha%elem_of_elements Hb%elem_of_elements. unfold F.
    apply (transposes_mult N _ _ _ _ Hsym);
      by apply (wf_egonet_range N indices indptr v).
  - intros a Ha%elem_of_elements. unfold F. apply hits_eq_zero, Hloop.
    by apply (wf_egonet_range N indices indptr v).
Qed.

(** X7: on a valid structure that stores an undirected graph without
    self-loops (every edge in both directions), the entry of the undirected
    counter at every node is exactly twice the number of triangles at that
    node, where a triangle is an edge between two neighbours taken once. *)
Theorem local_count_is_twice_the_triangles N indices indptr :
  valid_csr N indices indptr →
  symmetric N indices indptr →
  loop_free N indices indptr →
  ∃ counts,
    _count_number_local_triangles indices indptr = Some counts
    ∧ ∀ v, 0 ≤ v < N →
        getitem counts v = Some (2 * triangles_at indices indptr v).
Proof.
  intros Hv Hsym Hfree. pose proof (valid_wf _ _ _ Hv) as Hwf.
  pose proof (valid_nodes_nonneg _ _ _ Hv) as HN.
  eexists. split.
  { apply (local_closed_form N); [by apply wf_addressable|apply Hwf|done]. }
  intros v Hr. rewrite getitem_nonneg by lia.
  rewrite list_lookup_fmap, lookup_seqZ_lt by lia. simpl.
  rewrite wrap64_id by (by eapply local_pairs_fit).
  rewrite Z.add_0_l, Z2Nat.id by lia.
  by rewrite (local_pairs_twice_triangles N).
Qed.

Lemma tri_symmetric : symmetric 3 tri_indices tri_indptr.
Proof. unfold symmetric, transposes. by_evaluation. Qed.

Lemma tri_loop_free : loop_free 3 tri_indices tri_indptr.
Proof. unfold loop_free. by_evaluation. Qed.

Lemma local_count_is_twice_the_triangles_witness :
  ∃ counts,
    _count_number_local_triangles tri_indices tri_indptr = Some counts
    ∧ ∀ v, 0 ≤ v < 3 →
        getitem counts v = Some (2 * triangles_at tri_indices tri_indptr v).
Proof.
  apply (local_count_is_twice_the_triangles 3);
    [exact tri_valid|exact tri_symmetric|exact tri_loop_free].
Defined.

(** ** The order of the entries inside a row *)

Lemma hits_perm (Q : Z → Prop) `{!∀ x, Decision (Q x)} xs ys :
  xs ≡ₚ ys → hits Q xs = hits Q ys.
Proof. intros Hp. unfold hits. by rewrite Hp. Qed.

Lemma egonet_perm indices indptr indices' indptr' v :
  row indices' indptr' v ≡ₚ row indices indptr v →
  egonet indices' indptr' v = egonet indices indptr v.
Proof. intros Hp. unfold egonet. by apply list_to_set_perm_L. Qed.

Section reorder.
Context (N : Z) (indices indptr indices' indptr' : list Z).
Hypothesis Ha : addressable N indices indptr.
Hypothesis Hsame : same_rows_up_to_order N indices indptr indices' indptr'.

Lemma reorder_row v : 0 ≤ v < N → row indices' indptr' v ≡ₚ row indices indptr v.
Proof.
  intros Hv. unfold same_rows_up_to_order in Hsame.
  rewrite Forall_forall in Hsame. apply Hsame, elem_of_seqZ. lia.
Qed.

Lemma reorder_hits (Q : Z → Prop) `{!∀ x, Decision (Q x)} v :
  0 ≤ v < N →
  sum_list_with (λ w, hits Q (row indices' indptr' w))
    (elements (egonet indices indptr v))
  = sum_list_with (λ w, hits Q (row indices indptr w))
      (elements (egonet indices indptr v)).
Proof.
  intros Hv. apply sum_list_with_ext. intros w Hw%elem_of_elements.
  apply hits_perm, reorder_row. by apply (addr_egonet_range _ _ _ Ha v).
Qed.

Lemma reorder_local_pairs v :
  0 ≤ v < N → local_pairs indices' indptr' v = local_pairs indices indptr v.
Proof.
  intros Hv. rewrite !local_pairs_sum.
  rewrite (egonet_perm indices indptr indices' indptr' v) by by apply reorder_row.
  by rewrite reorder_hits.
Qed.

End reorder.

Lemma reorder_motif_pairs N k
    out_indices out_indptr in_indices in_indptr
    out_indices' out_indptr' in_indices' in_indptr' v :
  addressable N out_indices out_indptr →
  addressable N in_indices in_indptr →
  same_rows_up_to_order N out_indices out_indptr out_indices' out_indptr' →
  same_rows_up_to_order N in_indices in_indptr in_indices' in_indptr' →
  0 ≤ v < N →
  motif_pairs k out_indices' out_indptr' in_indices' in_indptr' v
  = motif_pairs k out_indices out_indptr in_indices in_indptr v.
Proof.
  intros Hout Hin Hso Hsi Hv. rewrite !motif_pairs_hits. f_equal.
  unfold motif_hits.
  rewrite (egonet_perm out_indices out_indptr out_indices' out_indptr' v)
    by by apply (reorder_row N).
  rewrite (egonet_perm in_indices in_indptr in_indices' in_indptr' v)
    by by apply (reorder_row N).
  destruct k; apply sum_list_with_ext; intros w Hw%elem_of_elements;
    apply hits_perm, (reorder_row N _ _ _ _ Hso);
    (by apply (addr_egonet_range _ _ _ Hout v))
    || (by apply (addr_egonet_range _ _ _ Hin v)).
Qed.

(** X8: the order in which the neighbours of a node are stored inside its
    row has no influence: two pairs of well-formed structures over the same
    nodes whose rows agree up to the order of their entries give the same
    result arrays, for the undirected and for the directed counter. *)
Theorem order_inside_rows_is_irrelevant N
    out_indices out_indptr in_indices in_indptr
    out_indices' out_indptr' in_indices' in_indptr' :
  well_formed_csr N out_indices out_indptr →
  well_formed_csr N in_indices in_indptr →
  well_formed_csr N out_indices' out_indptr' →
  well_formed_csr N in_indices' in_indptr' →
  same_rows_up_to_order N out_indices out_indptr out_indices' out_indptr' →
  same_rows_up_to_order N in_indices in_indptr in_indices' in_indptr' →
  (∃ counts,
     _count_number_local_triangles out_indices out_indptr = Some counts
     ∧ _count_number_local_triangles out_indices' out_indptr' = Some counts)
  ∧ (∃ m,
       _count_number_triangles_directed out_indices out_indptr
         in_indices in_indptr = Some m
       ∧ _count_number_triangles_directed out_indices' out_indptr'
           in_indices' in_indptr' = Some m).
Proof.
  intros Hout Hin Hout' Hin' Hso Hsi.
  pose proof (wf_nodes_nonneg _ _ _ Hout) as HN.
  pose proof (wf_addressable _ _ _ Hout) as Hao.
  pose proof (wf_addressable _ _ _ Hin) as Hai.
  pose proof (wf_addressable _ _ _ Hout') as Hao'.
  pose proof (wf_addressable _ _ _ Hin') as Hai'.
  split.
  - eexists. split; [apply (local_closed_form N); (done || apply Hout)|].
    rewrite (local_closed_form N); [|done|apply Hout'|done].
    f_equal. apply list_fmap_ext. intros _ v Hr%list_elem_of_lookup_2%elem_of_seqZ.
    f_equal. apply (reorder_local_pairs N); (done || lia).
  - eexists. split; [apply (directed_closed_form N); (done || apply Hout)|].
    rewrite (directed_closed_form N); [|done|apply Hout'|done..].
    f_equal. unfold motif_table.
    f_equal; apply list_fmap_ext; intros _ v Hr%list_elem_of_lookup_2%elem_of_seqZ;
      f_equal; apply (reorder_motif_pairs N); (done || lia).
Qed.

Lemma tri_reordered_valid : valid_csr 3 tri_indices_reordered tri_indptr.
Proof. split; [split|]; by_evaluation. Qed.

Lemma tri_reordered_same :
  same_rows_up_to_order 3 tri_indices tri_indptr tri_indices_reordered tri_indptr.
Proof. unfold same_rows_up_to_order. by_evaluation. Qed.

Lemma order_inside_rows_is_irrelevant_witness :
  (∃ counts,
     _count_number_local_triangles tri_indices tri_indptr = Some counts
     ∧ _count_number_local_triangles tri_indices_reordered tri_indptr = Some counts)
  ∧ (∃ m,
       _count_number_triangles_directed tri_indices tri_indptr
         tri_indices tri_indptr = Some m
       ∧ _count_number_triangles_directed tri_indices_reordered tri_indptr
           tri_indices_reordered tri_indptr = Some m).
Proof.
  apply (order_inside_rows_is_irrelevant 3);
    [apply valid_wf, tri_valid|apply valid_wf, tri_valid
    |apply valid_wf, tri_reordered_valid|apply valid_wf, tri_reordered_valid
    |exact tri_reordered_same|exact tri_reordered_same].
Defined.

(** ** Inputs on which the counters fault *)






(** X10: with a single row boundary there are no nodes and both counters
    return empty arrays without looking at any other array; with no row
    boundary at all the number of nodes is -1 and the allocation of the
    result arrays is refused. *)
Theorem counters_on_no_nodes p indices in_indices in_indptr :
  _count_number_local_triangles indices [p] = Some []
  ∧ _count_number_triangles_directed indices [p] in_indices in_indptr
    = Some (Motifs [] [] [] [])
  ∧ _count_number_local_triangles indices [] = None
  ∧ _count_number_triangles_directed indices [] in_indices in_indptr = None.
Proof. by split_and!. Qed.



(** * The filter of failed algorithms *)

(** ** Totals of the directed counter on simple graphs *)

Lemma total_fmap (f : Z → nat) (l : list Z) :
  total ((λ v, Z.of_nat (f v)) <$> l) = Z.of_nat (sum_list_with f l).
Proof.
  unfold total. induction l as [|x l IH]; [done|].
  rewrite fmap_cons, sum_list_with_cons. cbn [foldr]. rewrite IH. lia.
Qed.

Lemma sum_list_with_filter {A} (P : A → Prop) `{!∀ x, Decision (P x)}
    (f : A → nat) (l : list A) :
  sum_list_with f (filter P l)
  = sum_list_with (λ x, if decide (P x) then f x else 0%nat) l.
Proof.
  induction l as [|x l IH]; [done|].
  rewrite filter_cons, (sum_list_with_cons _ x l).
  destruct (decide (P x)); [rewrite sum_list_with_cons|]; by rewrite IH.
Qed.

Lemma sum_over_set (N : Z) (E : gset Z) (f : Z → nat) :
  (∀ w, w ∈ E → 0 ≤ w < N) →
  sum_list_with f (elements E)
  = sum_list_with (λ w, if decide (w ∈ E) then f w else 0%nat) (seqZ 0 N).
Proof.
  intros HE. rewrite <- sum_list_with_filter.
  apply sum_list_with_Permutation_proper.
  apply NoDup_Permutation; [apply NoDup_elements|apply NoDup_filter, NoDup_seqZ|].
  intros w. rewrite elem_of_elements, list_elem_of_filter, elem_of_seqZ.
  split; [|by intros [? _]]. intros Hw. split; [done|]. apply HE in Hw. lia.
Qed.

Lemma hits_NoDup (x : Z) (l : list Z) :
  NoDup l →
  hits (λ y, y = x) l = (if decide (x ∈ l) then 1 else 0)%nat.
Proof.
  induction 1 as [|y l Hnin Hnd IH].
  - rewrite decide_False; [done|apply not_elem_of_nil].
  - rewrite hits_cons, IH. destruct (decide (y = x)) as [->|Hne].
    + rewrite decide_False by done. rewrite decide_True; [done|left].
    + destruct (decide (x ∈ l)) as [Hin|Hin].
      * rewrite decide_True; [done|by right].
      * rewrite decide_False; [done|]. rewrite elem_of_cons. by intros [?|?].
Qed.

Lemma sum_list_with_swap3 (H : Z → Z → Z → nat) (l : list Z) :
  sum_list_with (λ c, sum_list_with (λ a, sum_list_with (λ b, H a b c) l) l) l
  = sum_list_with (λ a, sum_list_with (λ b, sum_list_with (λ c, H a b c) l) l) l.
Proof.
  rewrite (sum_list_with_swap
             (λ c a, sum_list_with (λ b, H a b c) l) l l).
  apply sum_list_with_ext. intros a _.
  apply (sum_list_with_swap (λ c b, H a b c) l l).
Qed.

Section totals.
Context (N : Z) (out_indices out_indptr in_indices in_indptr : list Z).
Hypothesis Hout : addressable N out_indices out_indptr.
Hypothesis Hin : addressable N in_indices in_indptr.
Hypothesis Htr : transposes N out_indices out_indptr in_indices in_indptr.
Hypothesis Hfree : loop_free N out_indices out_indptr.
Hypothesis Hsimple : simple_rows N out_indices out_indptr.

(** The number of times the edge from [a] to [b] is stored: 0 or 1. *)
Local Abbreviation edge a b :=
  (hits (λ x, x = b) (row out_indices out_indptr a)).

Lemma edge_out (a b : Z) :
  0 ≤ a < N →
  (if decide (b ∈ egonet out_indices out_indptr a) then 1 else 0)%nat = edge a b.
Proof.
  intros Ha. unfold simple_rows in Hsimple. rewrite Forall_forall in Hsimple.
  rewrite hits_NoDup by (apply Hsimple, elem_of_seqZ; lia).
  unfold egonet.
  destruct (decide (b ∈ row out_indices out_indptr a)) as [Hb|Hb].
  - rewrite decide_True; [done|by apply elem_of_list_to_set].
  - rewrite decide_False; [done|by rewrite elem_of_list_to_set].
Qed.

Lemma edge_in (a b : Z) :
  0 ≤ a < N → 0 ≤ b < N →
  (if decide (a ∈ egonet in_indices in_indptr b) then 1 else 0)%nat = edge a b.
Proof.
  intros Ha Hb. rewrite <- (edge_out a b Ha). unfold egonet.
  pose proof (transposes_mult _ _ _ _ _ Htr a b Ha Hb) as Hm.
  pose proof (hits_eq_zero b (row out_indices out_indptr a)) as Ho.
  pose proof (hits_eq_zero a (row in_indices in_indptr b)) as Hi.
  rewrite <- Hm in Hi.
  destruct (decide (a ∈ (list_to_set (row in_indices in_indptr b) : gset Z)))
    as [H1|H1];
    destruct (decide (b ∈ (list_to_set (row out_indices out_indptr a) : gset Z)))
      as [H2|H2]; try done; rewrite elem_of_list_to_set in H1, H2.
  - exfalso. apply Ho in H2. by apply Hi in H2.
  - exfalso. apply H1. apply dec_stable. intros Hn. apply Hi in Hn.
    by apply Ho in Hn.
Qed.

(** Pairs from [E] to [T] as a sum over all pairs of nodes. *)
Lemma pairs_over_nodes (v : Z) (E T : gset Z) :
  v ∉ T →
  (∀ w, w ∈ E → 0 ≤ w < N) → (∀ t, t ∈ T → 0 ≤ t < N) →
  sum_list_with
    (λ w, hits (λ x, x ≠ v ∧ x ∈ T) (row out_indices out_indptr w)) (elements E)
  = sum_list_with
      (λ w, sum_list_with
              (λ t, (if decide (w ∈ E) then 1 else 0)
                    * ((if decide (t ∈ T) then 1 else 0) * edge w t))%nat
              (seqZ 0 N))
      (seqZ 0 N).
Proof.
  intros HvT HE HT. rewrite (sum_over_set N) by done.
  apply sum_list_with_ext. intros w _.
  destruct (decide (w ∈ E)) as [Hw|Hw].
  - rewrite hits_by_target by done. rewrite (sum_over_set N) by done.
    apply sum_list_with_ext. intros t _.
    destruct (decide (t ∈ T)); lia.
  - symmetry. apply sum_list_with_zero. intros t. lia.
Qed.

Lemma motif_hits_over_nodes (k : motif) (v : Z) :
  0 ≤ v < N →
  motif_hits k out_indices out_indptr in_indices in_indptr v
  = sum_list_with
      (λ w, sum_list_with
              (λ t, (match k with Out | Cycle => edge v w | In | Middle => edge w v end)
                    * ((match k with Out | Middle => edge v t | In | Cycle => edge t v end)
                       * edge w t))%nat
              (seqZ 0 N))
      (seqZ 0 N).
Proof.
  intros Hv. unfold motif_hits.
  pose proof (swap_not_out N _ _ Hfree v Hv) as Hno.
  pose proof (swap_not_in N _ _ _ _ Htr Hfree v Hv) as Hni.
  assert (∀ x, x ∈ egonet out_indices out_indptr v → 0 ≤ x < N) as Hro.
  { intros x. by apply (addr_egonet_range _ _ _ Hout v). }
  assert (∀ x, x ∈ egonet in_indices in_indptr v → 0 ≤ x < N) as Hri.
  { intros x. by apply (addr_egonet_range _ _ _ Hin v). }
  destruct k; rewrite pairs_over_nodes by done;
    apply sum_list_with_ext2; intros w t Hw%elem_of_seqZ Ht%elem_of_seqZ;
    rewrite ?edge_out, ?edge_in by lia; done.
Qed.

Lemma total_out_middle :
  sum_list_with (motif_hits Middle out_indices out_indptr in_indices in_indptr)
    (seqZ 0 N)
  = sum_list_with (motif_hits Out out_indices out_indptr in_indices in_indptr)
      (seqZ 0 N).
Proof.
  rewrite (sum_list_with_ext
             (motif_hits Middle out_indices out_indptr in_indices in_indptr)
             (λ b, sum_list_with
                     (λ a, sum_list_with
                             (λ c, (edge a b * (edge b c * edge a c))%nat)
                             (seqZ 0 N))
                     (seqZ 0 N))).
  2:{ intros v Hv%elem_of_seqZ. apply motif_hits_over_nodes. lia. }
  rewrite (sum_list_with_ext
             (motif_hits Out out_indices out_indptr in_indices in_indptr)
             (λ a, sum_list_with
                     (λ b, sum_list_with
                             (λ c, (edge a b * (edge a c * edge b c))%nat)
                             (seqZ 0 N))
                     (seqZ 0 N))).
  2:{ intros v Hv%elem_of_seqZ. apply motif_hits_over_nodes. lia. }
  rewrite (sum_list_with_swap
             (λ b a, sum_list_with
                       (λ c, (edge a b * (edge b c * edge a c))%nat) (seqZ 0 N))).
  apply sum_list_with_ext. intros a _. apply sum_list_with_ext. intros b _.
  apply sum_list_with_ext. intros c _. lia.
Qed.

Lemma total_in_out :
  sum_list_with (motif_hits In out_indices out_indptr in_indices in_indptr)
    (seqZ 0 N)
  = sum_list_with (motif_hits Out out_indices out_indptr in_indices in_indptr)
      (seqZ 0 N).
Proof.
  rewrite (sum_list_with_ext
             (motif_hits In out_indices out_indptr in_indices in_indptr)
             (λ c, sum_list_with
                     (λ a, sum_list_with
                             (λ b, (edge a c * (edge b c * edge a b))%nat)
                             (seqZ 0 N))
                     (seqZ 0 N))).
  2:{ intros v Hv%elem_of_seqZ. apply motif_hits_over_nodes. lia. }
  rewrite (sum_list_with_ext
             (motif_hits Out out_indices out_indptr in_indices in_indptr)
             (λ a, sum_list_with
                     (λ b, sum_list_with
                             (λ c, (edge a b * (edge a c * edge b c))%nat)
                             (seqZ 0 N))
                     (seqZ 0 N))).
  2:{ intros v Hv%elem_of_seqZ. apply motif_hits_over_nodes. lia. }
  rewrite (sum_list_with_swap3
             (λ a b c, (edge a c * (edge b c * edge a b))%nat)).
  apply sum_list_with_ext. intros a _. apply sum_list_with_ext. intros b _.
  apply sum_list_with_ext. intros c _. lia.
Qed.

End totals.

(** X15: for a simple directed graph (no self-loops, no neighbour stored
    twice in a row, in-structure the transpose of the out-structure) the
    out, in and middleman arrays of the directed counter have the same sum:
    every transitive triangle is counted once in each of them, at its
    source, at its sink and at its middle node. *)
Theorem out_in_middle_totals_agree N
    out_indices out_indptr in_indices in_indptr :
  valid_csr N out_indices out_indptr →
  well_formed_csr N in_indices in_indptr →
  transposes N out_indices out_indptr in_indices in_indptr →
  loop_free N out_indices out_indptr →
  simple_rows N out_indices out_indptr →
  ∃ m,
    _count_number_triangles_directed out_indices out_indptr in_indices in_indptr
    = Some m
    ∧ total (num_in_triangles m) = total (num_out_triangles m)
    ∧ total (num_middle_triangles m) = total (num_out_triangles m).
Proof.
  intros Hv Hwi Htr Hfree Hsimple.
  pose proof (valid_wf _ _ _ Hv) as Hwo.
  pose proof (wf_nodes_nonneg _ _ _ Hwo) as HN.
  pose proof (wf_addressable _ _ _ Hwo) as Hao.
  pose proof (wf_addressable _ _ _ Hwi) as Hai.
  assert (∀ k,
            (λ v, wrap64 (motif_pairs k out_indices out_indptr
                            in_indices in_indptr v)) <$> seqZ 0 N
            = (λ v, Z.of_nat (motif_hits k out_indices out_indptr
                                in_indices in_indptr v)) <$> seqZ 0 N) as Htab.
  { intros k. apply list_fmap_ext.
    intros _ v Hr%list_elem_of_lookup_2%elem_of_seqZ.
    rewrite wrap64_id by (apply (motif_pairs_fit N); (done || lia)).
    apply motif_pairs_hits. }
  eexists. split.
  { apply (directed_closed_form N); (done || apply Hwo). }
  unfold motif_table.
  cbn [num_out_triangles num_in_triangles num_middle_triangles].
  rewrite !Htab, !total_fmap. split; f_equal.
  - by apply total_in_out.
  - by apply total_out_middle.
Qed.

Lemma out_in_middle_totals_agree_witness :
  ∃ m,
    _count_number_triangles_directed fan_out_indices fan_out_indptr
      fan_in_indices fan_in_indptr = Some m
    ∧ total (num_in_triangles m) = total (num_out_triangles m)
    ∧ total (num_middle_triangles m) = total (num_out_triangles m).
Proof.
  apply (out_in_middle_totals_agree 3).
  - apply fan_out_valid.
  - apply valid_wf, fan_in_valid.
  - unfold transposes. by_evaluation.
  - unfold loop_free. by_evaluation.
  - unfold simple_rows. by_evaluation.
Defined.

Section alg_filter.
Import AlgFilter.

Lemma strikes_lookup self alg :
  strikes self alg
  = match failed_algs self !! alg2key alg with
    | Some messages => Z.of_nat (length messages)
    | None => 0
    end.
Proof. unfold strikes. by destruct (failed_algs self !! alg2key alg). Qed.

Lemma strikes_nonneg self alg : 0 ≤ strikes self alg.
Proof. unfold strikes. lia. Qed.

Lemma no_empty_record_init n : no_empty_record (init n).
Proof. intros key messages. unfold init. simpl. by rewrite lookup_empty. Qed.

Lemma no_empty_record_reset self : no_empty_record (reset self).
Proof. intros key messages. unfold reset. simpl. by rewrite lookup_empty. Qed.

Lemma max_strikes_update self alg out :
  max_strikes (update self alg out) = max_strikes self.
Proof.
  unfold update. case_decide; [|done].
  by destruct (failed_algs self !! alg2key alg).
Qed.

Lemma no_empty_record_update self alg out :
  no_empty_record self → no_empty_record (update self alg out).
Proof.
  intros Hinv. unfold update. case_decide; [|done].
  destruct (failed_algs self !! alg2key alg) as [old|] eqn:Hold;
    intros key messages Hl; simpl in Hl; rewrite lookup_insert in Hl;
    case_decide; try (by eapply Hinv); injection Hl as <-; [by destruct old|done].
Qed.

Lemma strikes_update_failed self alg out other :
  outcome out ≠ "completed" →
  strikes (update self alg out) other
  = strikes self other + (if decide (alg2key other = alg2key alg) then 1 else 0).
Proof.
  intros Hfail. rewrite !strikes_lookup. unfold update.
  rewrite decide_True by done.
  destruct (failed_algs self !! alg2key alg) as [old|] eqn:Hold; simpl;
    rewrite lookup_insert; case_decide as Hk.
  - rewrite decide_True by done. rewrite <- Hk, Hold, length_app. simpl. lia.
  - rewrite decide_False by done.
    destruct (failed_algs self !! alg2key other); lia.
  - rewrite decide_True by done. by rewrite <- Hk, Hold.
  - rewrite decide_False by done.
    destruct (failed_algs self !! alg2key other); lia.
Qed.

Lemma strikes_update_mono self alg out other :
  strikes self other ≤ strikes (update self alg out) other.
Proof.
  destruct (decide (outcome out ≠ "completed")) as [Hf|Hc].
  - rewrite strikes_update_failed by done. case_decide; lia.
  - unfold update. by rewrite decide_False.
Qed.

Lemma filter_step self alg (acc : list EmbeddingAlg) :
  no_empty_record self →
  match failed_algs self !! alg2key alg with
  | None => acc ++ [alg]
  | Some messages =>
      if bool_decide (Z.of_nat (length messages) ≤ max_strikes self)
      then acc ++ [alg] else acc
  end
  = if bool_decide (alg_passes self alg) then acc ++ [alg] else acc.
Proof.
  intros Hinv.
  assert (alg_passes self alg
          ↔ match failed_algs self !! alg2key alg with
            | Some messages => Z.of_nat (length messages) ≤ max_strikes self
            | None => True
            end) as Hp.
  { unfold alg_passes. rewrite (strikes_lookup self alg).
    destruct (failed_algs self !! alg2key alg) as [messages|] eqn:Hm; [|by split; [|left]].
    assert (messages ≠ []) as Hne by by eapply Hinv.
    assert (0 < Z.of_nat (length messages)) by (destruct messages; simpl; [done|lia]).
    split; [intros [?|?]; lia|by right]. }
  destruct (failed_algs self !! alg2key alg) as [messages|].
  - destruct (decide (Z.of_nat (length messages) ≤ max_strikes self)) as [Hle|Hgt].
    + rewrite !bool_decide_eq_true_2; [done|by apply Hp|done].
    + rewrite !bool_decide_eq_false_2; [done| |done]. by rewrite Hp.
  - rewrite bool_decide_eq_true_2; [done|by apply Hp].
Qed.

Lemma filter_from self algs (acc : list EmbeddingAlg) :
  no_empty_record self →
  foldl
    (λ filtered_algs alg,
       match failed_algs self !! alg2key alg with
       | None => filtered_algs ++ [alg]
       | Some messages =>
           if bool_decide (Z.of_nat (length messages) ≤ max_strikes self)
           then filtered_algs ++ [alg]
           else filtered_algs
       end)
    acc algs
  = acc ++ base.filter (alg_passes self) algs.
Proof.
  intros Hinv. revert acc. induction algs as [|alg algs IH]; intros acc.
  - by rewrite app_nil_r.
  - cbn [foldl]. rewrite filter_step by done. rewrite IH, filter_cons.
    destruct (decide (alg_passes self alg)).
    + rewrite bool_decide_eq_true_2 by done. by rewrite <- app_assoc.
    + by rewrite bool_decide_eq_false_2.
Qed.

Lemma alg_passes_update self alg out other :
  alg_passes (update self alg out) other → alg_passes self other.
Proof.
  unfold alg_passes. rewrite max_strikes_update.
  pose proof (strikes_update_mono self alg out other).
  pose proof (strikes_nonneg self other). intros [?|?]; [left|right]; lia.
Qed.

Lemma filter_sublist_impl {A} (P Q : A → Prop)
    `{!∀ x, Decision (P x)} `{!∀ x, Decision (Q x)} (l : list A) :
  (∀ x, P x → Q x) → base.filter P l `sublist_of` base.filter Q l.
Proof.
  intros HPQ. induction l as [|x l IH]; [done|].
  rewrite !filter_cons. destruct (decide (P x)) as [Hp|Hp].
  - rewrite decide_True by by apply HPQ. by apply sublist_skip.
  - destruct (decide (Q x)); [by apply sublist_cons|done].
Qed.

Lemma updates_cons self run runs :
  updates self (run :: runs) = updates (update self run.1 run.2) runs.
Proof. done. Qed.

Lemma no_empty_record_updates self runs :
  no_empty_record self → no_empty_record (updates self runs).
Proof.
  revert self. induction runs as [|run runs IH]; intros self Hinv; [done|].
  rewrite updates_cons. by apply IH, no_empty_record_update.
Qed.

Lemma max_strikes_updates self runs :
  max_strikes (updates self runs) = max_strikes self.
Proof.
  revert self. induction runs as [|run runs IH]; intros self; [done|].
  by rewrite updates_cons, IH, max_strikes_update.
Qed.

Lemma strikes_updates_mono self runs other :
  strikes self other ≤ strikes (updates self runs) other.
Proof.
  revert self. induction runs as [|run runs IH]; intros self; [done|].
  rewrite updates_cons. etrans; [apply strikes_update_mono|apply IH].
Qed.

Lemma alg_passes_updates self runs other :
  alg_passes (updates self runs) other → alg_passes self other.
Proof.
  revert self. induction runs as [|run runs IH]; intros self; [done|].
  rewrite updates_cons. intros Hp. by eapply alg_passes_update, IH.
Qed.

Lemma strikes_after_failed_run self runs alg out other :
  (alg, out) ∈ runs → outcome out ≠ "completed" →
  alg2key other = alg2key alg →
  1 ≤ strikes (updates self runs) other.
Proof.
  intros Hin Hfail Hkey. revert self.
  induction runs as [|run runs IH]; intros self; [by apply elem_of_nil in Hin|].
  rewrite updates_cons. apply elem_of_cons in Hin as [<-|Hin].
  - etrans; [|apply strikes_updates_mono]. simpl.
    rewrite strikes_update_failed by done. rewrite decide_True by done.
    pose proof (strikes_nonneg self other). lia.
  - by apply IH.
Qed.

(** X12: a run that completed leaves the filter as it is; a run with any
    other outcome adds exactly one strike to the algorithms that share the
    key of the algorithm run, and none to the others.  The allowance is
    never changed, and no key is ever recorded with an empty list. *)
Theorem alg_filter_update_adds_one_strike self alg out :
  no_empty_record self →
  no_empty_record (update self alg out)
  ∧ max_strikes (update self alg out) = max_strikes self
  ∧ (outcome out = "completed" → update self alg out = self)
  ∧ (outcome out ≠ "completed" →
     ∀ other,
       strikes (update self alg out) other
       = strikes self other
         + (if decide (alg2key other = alg2key alg) then 1 else 0)).
Proof.
  intros Hinv. split_and!.
  - by apply no_empty_record_update.
  - apply max_strikes_update.
  - intros Hc. unfold update. rewrite decide_False; [done|]. by intros ?.
  - intros Hf other. by apply strikes_update_failed.
Qed.

Lemma alg_filter_update_adds_one_strike_witness :
  no_empty_record (update (init 0) alg_a run_timeout)
  ∧ max_strikes (update (init 0) alg_a run_timeout) = max_strikes (init 0)
  ∧ (outcome run_timeout = "completed" →
     update (init 0) alg_a run_timeout = init 0)
  ∧ (outcome run_timeout ≠ "completed" →
     ∀ other,
       strikes (update (init 0) alg_a run_timeout) other
       = strikes (init 0) other
         + (if decide (alg2key other = alg2key alg_a) then 1 else 0)).
Proof.
  apply (alg_filter_update_adds_one_strike (init 0) alg_a run_timeout).
  apply no_empty_record_init.
Defined.

(** X13: [filter] returns, in their order, exactly the algorithms for whose
    key nothing is recorded or the recorded failures do not exceed
    [max_strikes]; right after construction and after [reset] it returns
    all of them, whatever [max_strikes] is. *)
Theorem alg_filter_keeps_algs_within_allowance self algs :
  no_empty_record self →
  filter self algs = base.filter (alg_passes self) algs
  ∧ filter (reset self) algs = algs
  ∧ ∀ n, filter (init n) algs = algs.
Proof.
  intros Hinv. split_and!.
  - unfold filter. by rewrite filter_from.
  - unfold filter. rewrite filter_from by apply no_empty_record_reset.
    simpl. induction algs as [|alg algs IH]; [done|].
    rewrite filter_cons, decide_True; [by rewrite IH|]. by left.
  - intros n. unfold filter. rewrite filter_from by apply no_empty_record_init.
    simpl. induction algs as [|alg algs IH]; [done|].
    rewrite filter_cons, decide_True; [by rewrite IH|]. by left.
Qed.

Lemma alg_filter_keeps_algs_within_allowance_witness :
  filter (update (init 0) alg_a run_timeout) [alg_a; alg_b]
  = base.filter (alg_passes (update (init 0) alg_a run_timeout)) [alg_a; alg_b]
  ∧ filter (reset (update (init 0) alg_a run_timeout)) [alg_a; alg_b]
    = [alg_a; alg_b]
  ∧ ∀ n, filter (init n) [alg_a; alg_b] = [alg_a; alg_b].
Proof.
  apply (alg_filter_keeps_algs_within_allowance
           (update (init 0) alg_a run_timeout) [alg_a; alg_b]).
  apply no_empty_record_update, no_empty_record_init.
Defined.

(** X14: strikes are never taken back by further runs: after any series of
    runs [filter] returns a sublist of what it returned before, and with an
    allowance of 0 (as the alignment experiment sets it) an algorithm that
    shares its key with a failed run of the series is not returned. *)
Theorem alg_filter_exclusion_is_permanent self runs algs :
  no_empty_record self →
  filter (updates self runs) algs `sublist_of` filter self algs
  ∧ ∀ alg out other,
      (alg, out) ∈ runs → outcome out ≠ "completed" →
      max_strikes self ≤ 0 → alg2key other = alg2key alg →
      other ∉ filter (updates self runs) algs.
Proof.
  intros Hinv.
  pose proof (no_empty_record_updates self runs Hinv) as Hinv'.
  split.
  - unfold filter. rewrite !filter_from by done. simpl.
    apply filter_sublist_impl. intros other. apply alg_passes_updates.
  - intros alg out other Hin Hfail Hmax Hkey.
    unfold filter. rewrite filter_from by done. simpl.
    rewrite list_elem_of_filter. intros [Hp _].
    pose proof (strikes_after_failed_run self runs alg out other Hin Hfail Hkey).
    unfold alg_passes in Hp. rewrite max_strikes_updates in Hp.
    destruct Hp; lia.
Qed.

Lemma alg_filter_exclusion_is_permanent_witness :
  filter (updates (init 0) [(alg_a, run_timeout); (alg_b, run_completed)])
    [alg_a; alg_b]
  `sublist_of` filter (init 0) [alg_a; alg_b]
  ∧ ∀ alg out other,
      (alg, out) ∈ [(alg_a, run_timeout); (alg_b, run_completed)] →
      outcome out ≠ "completed" →
      max_strikes (init 0) ≤ 0 → alg2key other = alg2key alg →
      other ∉ filter
                (updates (init 0) [(alg_a, run_timeout); (alg_b, run_completed)])
                [alg_a; alg_b].
Proof.
  apply (alg_filter_exclusion_is_permanent (init 0)
           [(alg_a, run_timeout); (alg_b, run_completed)] [alg_a; alg_b]).
  apply no_empty_record_init.
Defined.

End alg_filter.
